(** * Properties 4 Creations: client-side widgets

    A shallow embedding of the JavaScript widgets of the site and the
    properties their specification states about them:

    - [RateLimiter]    (docs/js/utils/rateLimiter.js)
    - [Accordion]      (docs/js/theme-toggle.js, second document)
    - [PropertyFilter] (MIGRATION_READY.md, second document)
    - [FormValidator]  (_site/js/security/csrf-protection.js, second document)

    Conventions of the embedding.  A JavaScript string is the list of its
    UTF-16 code units.  Timestamps, counts and the other numbers the code
    handles are integers ([Z]); a number that can be [NaN] is a [jsnum].  An
    object that the code mutates is a record that the operation returns
    updated; a [Map] is a [gmap].  A call that can throw gives a
    [completion].  The part of the document that a widget reads and
    writes is a [Dom.t]: its elements in tree order, and what the widget
    wrote on them.  Callbacks supplied by the page are recorded as a
    trace of their calls. *)

From Stdlib Require Import ZArith List Ascii String Lia Bool DecimalString Sorted.
From stdpp Require Import base option list gmap.

Open Scope Z_scope.

(** ** JavaScript values *)

(** A string is its sequence of UTF-16 code units. *)
Abbreviation jsstring := (list N).

(** [str "abc"] is the JavaScript literal ['abc'] (code units below 256). *)
Definition str (s : string) : jsstring :=
  List.map N_of_ascii (list_ascii_of_string s).

(** A JavaScript number that holds an integer or [NaN]. *)
Inductive jsnum : Type :=
| Num (z : Z)
| NaN.

(** How a call ends: it returns a value or it throws. *)
Inductive completion (A : Type) : Type :=
| Returned (a : A)
| Threw.
Arguments Returned {A} a.
Arguments Threw {A}.

(** [Math.max(a, x)] for an integer [a]: [NaN] is contagious. *)
Definition Math_max (a : Z) (x : jsnum) : jsnum :=
  match x with
  | Num z => Num (Z.max a z)
  | NaN => NaN
  end.

(** [x > y] on numbers: every comparison with [NaN] is false. *)
Definition js_gt (x y : jsnum) : bool :=
  match x, y with
  | Num a, Num b => b <? a
  | _, _ => false
  end.

(** [Math.ceil(x / d)] for integers [x] and [d > 0]. *)
Definition Math_ceil_div (x d : Z) : Z := - ((- x) / d).

(** The mathematical ceiling of the quotient [x / d], as a relation. *)
Definition is_ceiling (x d c : Z) : Prop := d * (c - 1) < x <= d * c.

(** [x < y] on numbers. *)
Definition js_lt (x y : jsnum) : bool := js_gt y x.

(** [x >= y] on numbers. *)
Definition js_ge (x y : jsnum) : bool :=
  match x, y with
  | Num a, Num b => b <=? a
  | _, _ => false
  end.

(** A property that may be missing from an object reads as [undefined],
    which a comparison converts to [NaN]. *)
Definition toNumber (x : option Z) : jsnum :=
  match x with
  | Some z => Num z
  | None => NaN
  end.

(** The code units that [\s] matches and that [trim()] strips: the
    WhiteSpace and LineTerminator productions of ECMAScript. *)
Definition isWhiteSpace (c : N) : bool :=
  ((9 <=? c) && (c <=? 13) || (c =? 32) || (c =? 160) || (c =? 5760)
   || (8192 <=? c) && (c <=? 8202) || (c =? 8232) || (c =? 8233)
   || (c =? 8239) || (c =? 8287) || (c =? 12288) || (c =? 65279))%N.

(** [\d] *)
Definition isDigit (c : N) : bool := ((48 <=? c) && (c <=? 57))%N.

Fixpoint trimStart (s : jsstring) : jsstring :=
  match s with
  | c :: s' => if isWhiteSpace c then trimStart s' else s
  | [] => []
  end.

Definition trimEnd (s : jsstring) : jsstring := rev (trimStart (rev s)).

(** [s.trim()] *)
Definition trim (s : jsstring) : jsstring := trimEnd (trimStart s).

Fixpoint startsWith (needle hay : jsstring) : bool :=
  match needle, hay with
  | [], _ => true
  | _ :: _, [] => false
  | a :: needle', b :: hay' => (a =? b)%N && startsWith needle' hay'
  end.

(** [hay.includes(needle)] on strings *)
Fixpoint includes (hay needle : jsstring) : bool :=
  startsWith needle hay ||
  match hay with
  | [] => false
  | _ :: hay' => includes hay' needle
  end.

(** [array.includes(x)] on an array of strings *)
Definition Array_includes (array : list jsstring) (x : jsstring) : bool :=
  bool_decide (x ∈ array).

(** [s.split(sep)] for a separator of one code unit *)
Fixpoint split (sep : N) (s : jsstring) : list jsstring :=
  match s with
  | [] => [[]]
  | c :: s' =>
      if (c =? sep)%N then [] :: split sep s'
      else
        match split sep s' with
        | piece :: pieces => (c :: piece) :: pieces
        | [] => [[c]]
        end
  end.

(** The value of the longest prefix of decimal digits of [s], after [acc]. *)
Fixpoint digitsValue (acc : Z) (s : jsstring) : Z :=
  match s with
  | c :: s' => if isDigit c then digitsValue (10 * acc + (Z.of_N c - 48)) s' else acc
  | [] => acc
  end.

(** [parseInt(s, 10)] *)
Definition parseInt (s : jsstring) : jsnum :=
  let s := trimStart s in
  let '(sign, s) :=
    match s with
    | 45%N :: s' => (-1, s')
    | 43%N :: s' => (1, s')
    | _ => (1, s)
    end in
  match s with
  | c :: _ => if isDigit c then Num (sign * digitsValue 0 s) else NaN
  | [] => NaN
  end.

(** [String(z)] for an integer, as a template literal prints it *)
Definition Z_toString (z : Z) : jsstring :=
  str (DecimalString.NilZero.string_of_int (Z.to_int z)).

(** What the host provides and the embedding does not fix:
    [String.prototype.toLowerCase]; [new RegExp(source)] for a pattern
    that the page supplies, which throws ([None]) or gives the test of
    the pattern; the test that the selector [[name='...']] makes of a
    name attribute when the text between its quotes is not a plain name
    ([None] when the selector does not parse); the number and date
    parsers behind the [number] and [date] validators; and the text of
    [Math.random().toString(36).substr(2, 9)] at each call. *)
Class Platform : Type := {
  toLowerCase : jsstring -> jsstring;
  RegExp : jsstring -> option (jsstring -> bool);
  nameSelector : jsstring -> option (jsstring -> bool);
  isNumeric : jsstring -> bool;
  Date_parse_isNaN : jsstring -> bool;
  Math_random_text : nat -> jsstring
}.

(** A platform for the examples: lower case on ASCII, a pattern that
    stands for itself unless it is an opening parenthesis alone, which
    does not parse, no selector but the plain ones, decimal digits as
    numbers, no dates, and the draws ["r0"], ["r1"], ... *)
Definition asciiLower (c : N) : N :=
  if ((65 <=? c) && (c <=? 90))%N then (c + 32)%N else c.

Definition asciiPlatform : Platform := {|
  toLowerCase := List.map asciiLower;
  RegExp := fun source =>
    if bool_decide (source = str "(") then None else Some (fun s => includes s source);
  nameSelector := fun _ => None;
  isNumeric := fun s => negb (length s =? 0)%nat && forallb isDigit s;
  Date_parse_isNaN := fun _ => true;
  Math_random_text := fun n => str "r" ++ Z_toString (Z.of_nat n)
|}.

(** ** RateLimiter *)

Module RateLimiter.

(** The fields of a [RateLimiter] instance.  [attempts] is the [Map] from
    user key to the array of attempt timestamps, oldest first. *)
Record t : Type := mk {
  maxAttempts : Z;
  windowMs : Z;
  attempts : gmap jsstring (list Z)
}.

(** [new RateLimiter(maxAttempts, windowMs)]. *)
Definition new (maxAttempts windowMs : Z) : t :=
  mk maxAttempts windowMs ∅.

(** [createFormRateLimiter()]. *)
Definition createFormRateLimiter : t := new 3 60000.

(** The object [isAllowed] returns; a field that the returned object
    literal does not have is [None]. *)
Record result : Type := mkResult {
  allowed : bool;
  retryAfter : option jsnum;
  res_attempts : Z;
  res_maxAttempts : Z;
  remainingAttempts : option Z
}.

(** [userAttempts.filter((timestamp) => now - timestamp < this.windowMs)] *)
Definition validOf (rl : t) (now : Z) (userAttempts : list Z) : list Z :=
  List.filter (fun timestamp => now - timestamp <? windowMs rl) userAttempts.

(** [isAllowed(key)], with [now] the value [Date.now()] returns. *)
Definition isAllowed (now : Z) (key : jsstring) (rl : t) : result * t :=
  let userAttempts := default [] (attempts rl !! key) in
  let validAttempts := validOf rl now userAttempts in
  if maxAttempts rl <=? Z.of_nat (length validAttempts) then
    let retryAfter :=
      match head validAttempts with
      | Some oldestAttempt =>
          Num (Math_ceil_div (oldestAttempt + windowMs rl - now) 1000)
      | None => NaN
      end in
    (mkResult false (Some (Math_max 1 retryAfter))
       (Z.of_nat (length validAttempts)) (maxAttempts rl) None,
     rl)
  else
    let validAttempts := validAttempts ++ [now] in
    (mkResult true None
       (Z.of_nat (length validAttempts)) (maxAttempts rl)
       (Some (maxAttempts rl - Z.of_nat (length validAttempts))),
     mk (maxAttempts rl) (windowMs rl) (<[key := validAttempts]> (attempts rl))).

(** [resetUserAttempts(key)]. *)
Definition resetUserAttempts (key : jsstring) (rl : t) : t :=
  mk (maxAttempts rl) (windowMs rl) (delete key (attempts rl)).

(** What [cleanup()] does to one entry of the map: the key is deleted
    when no attempt is valid, the array is replaced by the valid ones when
    some expired, and left alone otherwise. *)
Definition cleanupEntry (rl : t) (now : Z) (attempts : list Z) : option (list Z) :=
  let validAttempts := validOf rl now attempts in
  if (length validAttempts =? 0)%nat then None
  else if negb (length validAttempts =? length attempts)%nat then Some validAttempts
  else Some attempts.

(** [cleanup()]. *)
Definition cleanup (now : Z) (rl : t) : t :=
  mk (maxAttempts rl) (windowMs rl) (omap (cleanupEntry rl now) (attempts rl)).

(** [destroy()]. *)
Definition destroy (rl : t) : t :=
  mk (maxAttempts rl) (windowMs rl) ∅.

(** The methods that write the attempt map. *)
Inductive op : Type :=
| IsAllowed (now : Z) (key : jsstring)
| ResetUserAttempts (key : jsstring)
| Cleanup (now : Z)
| Destroy.

Definition exec (o : op) (rl : t) : t :=
  match o with
  | IsAllowed now key => snd (isAllowed now key rl)
  | ResetUserAttempts key => resetUserAttempts key rl
  | Cleanup now => cleanup now rl
  | Destroy => destroy rl
  end.

(** The states a limiter goes through after its construction. *)
Inductive reachable : t -> Prop :=
| reachable_new maxAttempts windowMs :
    reachable (new maxAttempts windowMs)
| reachable_exec o rl :
    reachable rl -> reachable (exec o rl).

(** No stored array is longer than [maxAttempts]. *)
Definition bounded (rl : t) : Prop :=
  forall (key : jsstring) (l : list Z),
    attempts rl !! key = Some l -> Z.of_nat (length l) <= maxAttempts rl.

End RateLimiter.

(** ** Accordion *)

Module Accordion.

(** One entry of [this.items].  [isOpen] is the logical state of the
    panel and [ariaExpanded] the attribute of its button; the height
    animation and the [hidden] attribute it drives are presentation. *)
Record item : Type := mkItem {
  isOpen : bool;
  ariaExpanded : bool
}.

(** An accordion: the two options the state machine reads, the items, and
    the trace of the [onToggle(index, isOpen)] calls made so far.
    [onToggle] tells whether the option is a function. *)
Record t : Type := mk {
  allowMultiple : bool;
  onToggle : bool;
  items : list item;
  calls : list (Z * bool)
}.

Definition setItems (a : t) (l : list item) : t :=
  mk (allowMultiple a) (onToggle a) l (calls a).

(** [if (typeof this.options.onToggle === 'function') this.options.onToggle(index, b)] *)
Definition callback (index : Z) (b : bool) (a : t) : t :=
  if onToggle a
  then mk (allowMultiple a) (onToggle a) (items a) (calls a ++ [(index, b)])
  else a.

(** [index < 0 || index >= this.items.length] *)
Definition outOfRange (index : Z) (a : t) : bool :=
  (index <? 0) || (Z.of_nat (length (items a)) <=? index).

(** [close(index)] *)
Definition close (index : Z) (a : t) : t :=
  if outOfRange index a then a
  else
    match items a !! Z.to_nat index with
    | None => a
    | Some it =>
        if negb (isOpen it) then a
        else
          let a := setItems a (<[Z.to_nat index := mkItem false false]> (items a)) in
          callback index false a
    end.

(** One step of the loop
    [this.items.forEach((item, i) => { if (i !== index && item.isOpen) this.close(i) })];
    [item.isOpen] is read from the live item when the loop reaches it. *)
Definition closeOther (index : Z) (a : t) (i : nat) : t :=
  match items a !! i with
  | None => a
  | Some item =>
      if negb (Z.of_nat i =? index) && isOpen item then close (Z.of_nat i) a else a
  end.

(** [open(index)] *)
Definition open (index : Z) (a : t) : t :=
  if outOfRange index a then a
  else
    match items a !! Z.to_nat index with
    | None => a
    | Some it =>
        if isOpen it then a
        else
          let a :=
            if negb (allowMultiple a)
            then fold_left (closeOther index) (seq 0 (length (items a))) a
            else a in
          let a := setItems a (<[Z.to_nat index := mkItem true true]> (items a)) in
          callback index true a
    end.

(** [toggle(index)] *)
Definition toggle (index : Z) (a : t) : t :=
  if outOfRange index a then a
  else
    match items a !! Z.to_nat index with
    | None => a
    | Some it => if isOpen it then close index a else open index a
    end.

(** [openAll()] and [closeAll()] *)
Definition openAll (a : t) : t :=
  fold_left (fun a index => open (Z.of_nat index) a) (seq 0 (length (items a))) a.

Definition closeAll (a : t) : t :=
  fold_left (fun a index => close (Z.of_nat index) a) (seq 0 (length (items a))) a.

(** [destroy()] *)
Definition destroy (a : t) : t := setItems a [].

(** [getOpenPanels()] and [isPanelOpen(index)] *)
Definition getOpenPanels (a : t) : list Z :=
  List.filter (fun index => negb (index =? -1))
    (imap (fun index item => if isOpen item then Z.of_nat index else -1) (items a)).

Definition isPanelOpen (index : nat) (a : t) : bool :=
  match items a !! index with
  | Some item => isOpen item
  | None => false
  end.

(** The constructor and [init()]: [panels] items, all closed, then the
    panels of [defaultOpen] opened in turn. *)
Definition new (allowMultiple onToggle : bool) (defaultOpen : list Z) (panels : nat) : t :=
  let a := mk allowMultiple onToggle (replicate panels (mkItem false false)) [] in
  fold_left
    (fun a index =>
       if (0 <=? index) && (index <? Z.of_nat (length (items a)))
       then open index a else a)
    defaultOpen a.

(** The public methods; a click or Enter/Space on a button is [Toggle]. *)
Inductive op : Type :=
| Toggle (index : Z)
| Open (index : Z)
| Close (index : Z)
| OpenAll
| CloseAll
| Destroy.

Definition exec (o : op) (a : t) : t :=
  match o with
  | Toggle index => toggle index a
  | Open index => open index a
  | Close index => close index a
  | OpenAll => openAll a
  | CloseAll => closeAll a
  | Destroy => destroy a
  end.

Inductive reachable : t -> Prop :=
| reachable_new allowMultiple onToggle defaultOpen panels :
    reachable (new allowMultiple onToggle defaultOpen panels)
| reachable_exec o a :
    reachable a -> reachable (exec o a).

(** The [onToggle] calls of the loop that closes the other panels, for the
    state [a] the loop starts from. *)
Definition closingCalls (index : Z) (a : t) (i : nat) : list (Z * bool) :=
  if onToggle a && isPanelOpen i a && negb (Z.of_nat i =? index)
  then [(Z.of_nat i, false)] else [].

(** At most one panel is open. *)
Definition atMostOne (a : t) : Prop :=
  forall i j : nat, isPanelOpen i a = true -> isPanelOpen j a = true -> i = j.

(** The invariant of the single-open mode. *)
Definition single (a : t) : Prop := allowMultiple a = false /\ atMostOne a.

End Accordion.

(** ** PropertyFilter *)

Module PropertyFilter.

(** A property of the embedded data payload.  A field that the payload
    may leave out is an [option]; [sqft], [image] and the other fields
    that only the card markup prints are left out of the record. *)
Module Property.
Record t : Type := mk {
  id : option jsstring;
  slug : option jsstring;
  name : option jsstring;
  address : option jsstring;
  city : option jsstring;
  description : option jsstring;
  bedrooms : option Z;
  bathrooms : option Z;
  price_amount : option Z;
  type : option jsstring;
  tags : option (list jsstring);
  featured : bool
}.
End Property.

(** [this.filters]; [None] is [null]. *)
Module Filters.
Record t : Type := mk {
  bedrooms : option jsnum;
  bathrooms : option jsnum;
  tags : list jsstring;
  search : jsstring;
  minPrice : option jsnum;
  maxPrice : option jsnum;
  propertyType : jsstring
}.

(** The object literal of the constructor and of [resetFilters]. *)
Definition default : t := mk None None [] [] None None [].

Definition setSearch (f : t) (s : jsstring) : t :=
  mk (bedrooms f) (bathrooms f) (tags f) s (minPrice f) (maxPrice f) (propertyType f).
Definition setBedrooms (f : t) (b : option jsnum) : t :=
  mk b (bathrooms f) (tags f) (search f) (minPrice f) (maxPrice f) (propertyType f).
Definition setBathrooms (f : t) (b : option jsnum) : t :=
  mk (bedrooms f) b (tags f) (search f) (minPrice f) (maxPrice f) (propertyType f).
Definition setPropertyType (f : t) (s : jsstring) : t :=
  mk (bedrooms f) (bathrooms f) (tags f) (search f) (minPrice f) (maxPrice f) s.
Definition setPrices (f : t) (lo hi : option jsnum) : t :=
  mk (bedrooms f) (bathrooms f) (tags f) (search f) lo hi (propertyType f).
Definition setTags (f : t) (l : list jsstring) : t :=
  mk (bedrooms f) (bathrooms f) l (search f) (minPrice f) (maxPrice f) (propertyType f).
End Filters.

(** A string is truthy when it is not empty. *)
Definition truthy (s : jsstring) : bool := negb (length s =? 0)%nat.

(** [x || ''] for a string field that may be missing *)
Definition orEmpty (x : option jsstring) : jsstring := default [] x.

(** [bound !== null && test(bound)] *)
Definition notNullAnd (bound : option jsnum) (test : jsnum -> bool) : bool :=
  match bound with
  | Some b => test b
  | None => false
  end.

(** A child of the mount container after [render()]: the placeholder or
    a card, which carries its [data-property-id], the index behind its
    animation delay and the property its markup is built from. *)
Record card : Type := mkCard {
  data_property_id : option jsstring;
  animationIndex : nat;
  content : Property.t
}.

Inductive node : Type :=
| NoResults
| Card (c : card).

(** The fields of a [PropertyFilter] instance, with the DOM it owns:
    [container] is the list of children of the mount element ([None]
    when the selector found nothing), [resultsCount] and [resultsLabel]
    are the texts of the live region of the filter bar. *)
Record t : Type := mk {
  allProperties : list Property.t;
  filteredProperties : list Property.t;
  container : option (list node);
  filterBar : bool;
  filters : Filters.t;
  debounceTimeout : option nat;
  debounceDelay : Z;
  resultsCount : nat;
  resultsLabel : jsstring
}.

Definition setFiltered (pf : t) (l : list Property.t) : t :=
  mk (allProperties pf) l (container pf) (filterBar pf) (filters pf)
     (debounceTimeout pf) (debounceDelay pf) (resultsCount pf) (resultsLabel pf).
Definition setContainer (pf : t) (c : option (list node)) : t :=
  mk (allProperties pf) (filteredProperties pf) c (filterBar pf) (filters pf)
     (debounceTimeout pf) (debounceDelay pf) (resultsCount pf) (resultsLabel pf).
Definition setFilters_ (pf : t) (f : Filters.t) : t :=
  mk (allProperties pf) (filteredProperties pf) (container pf) (filterBar pf) f
     (debounceTimeout pf) (debounceDelay pf) (resultsCount pf) (resultsLabel pf).
Definition setDebounceTimeout (pf : t) (h : option nat) : t :=
  mk (allProperties pf) (filteredProperties pf) (container pf) (filterBar pf) (filters pf)
     h (debounceDelay pf) (resultsCount pf) (resultsLabel pf).
Definition setResults (pf : t) (n : nat) (label : jsstring) : t :=
  mk (allProperties pf) (filteredProperties pf) (container pf) (filterBar pf) (filters pf)
     (debounceTimeout pf) (debounceDelay pf) n label.

(** [createPropertyCard(prop, index)] *)
Definition createPropertyCard (prop : Property.t) (index : nat) : card :=
  mkCard
    (match Property.id prop with
     | Some i => if truthy i then Some i else Property.slug prop
     | None => Property.slug prop
     end)
    index prop.

(** [render()]: the container is emptied, then it receives the
    placeholder or one card per filtered property, appended in the order
    of [forEach]. *)
Definition render (pf : t) : t :=
  match container pf with
  | None => pf
  | Some _ =>
      if (length (filteredProperties pf) =? 0)%nat
      then setContainer pf (Some [NoResults])
      else
        setContainer pf
          (Some (fst (fold_left
                        (fun '(children, index) prop =>
                           (children ++ [Card (createPropertyCard prop index)], S index))
                        (filteredProperties pf) ([], 0%nat))))
  end.

(** [updateResultsCount()]; its two elements exist with the filter bar. *)
Definition updateResultsCount (pf : t) : t :=
  if filterBar pf
  then setResults pf (length (filteredProperties pf))
         (if (length (filteredProperties pf) =? 1)%nat
          then str "property found" else str "properties found")
  else pf.

(** The constructor; [mounted] tells whether [containerSelector] finds
    the mount element. *)
Definition construct (properties : list Property.t) (mounted : bool) : t :=
  mk properties properties (if mounted then Some [] else None) false
     Filters.default None 300 0 [].

(** [createFilterUI()]: the filter bar, with the count of all properties
    in its live region. *)
Definition createFilterUI (pf : t) : t :=
  mk (allProperties pf) (filteredProperties pf) (container pf) true (filters pf)
     (debounceTimeout pf) (debounceDelay pf)
     (length (allProperties pf)) (str "properties found").

(** [init()]: nothing without a container; else the filter bar is built
    (the listeners attached by [attachEventListeners] are in
    [FilterEvents]) and the list rendered. *)
Definition init (pf : t) : t :=
  match container pf with
  | None => pf
  | Some _ => updateResultsCount (render (createFilterUI pf))
  end.

Section WithPlatform.
Context `{Platform}.

(** The text the search is matched against. *)
Definition searchable (prop : Property.t) : jsstring :=
  toLowerCase
    (orEmpty (Property.name prop) ++ str " " ++ orEmpty (Property.address prop)
     ++ str " " ++ orEmpty (Property.city prop) ++ str " "
     ++ orEmpty (Property.description prop)).

(** The callback of [this.allProperties.filter] in [applyFilters]:
    one early [return false] per criterion, in the order of the code. *)
Definition passes (filters : Filters.t) (prop : Property.t) : bool :=
  if truthy (Filters.search filters)
     && negb (includes (searchable prop) (Filters.search filters))
  then false
  else if notNullAnd (Filters.bedrooms filters)
            (fun b => js_lt (toNumber (Property.bedrooms prop)) b)
  then false
  else if notNullAnd (Filters.bathrooms filters)
            (fun b => js_lt (toNumber (Property.bathrooms prop)) b)
  then false
  else if truthy (Filters.propertyType filters)
          && negb (bool_decide (Property.type prop = Some (Filters.propertyType filters)))
  then false
  else if notNullAnd (Filters.minPrice filters)
            (fun p => js_lt (toNumber (Property.price_amount prop)) p)
  then false
  else if notNullAnd (Filters.maxPrice filters)
            (fun p => js_gt (toNumber (Property.price_amount prop)) p)
  then false
  else if (0 <? length (Filters.tags filters))%nat
  then
    let propTags := default [] (Property.tags prop) in
    let hasAllTags :=
      forallb (fun tag => Array_includes propTags tag) (Filters.tags filters) in
    if negb hasAllTags then false else true
  else true.

(** [applyFilters()] *)
Definition applyFilters (pf : t) : t :=
  let pf := setFiltered pf (List.filter (passes (filters pf)) (allProperties pf)) in
  updateResultsCount (render pf).

(** [new PropertyFilter(properties, containerSelector)] followed by
    [init()]. *)
Definition new (properties : list Property.t) (mounted : bool) : t :=
  init (construct properties mounted).

End WithPlatform.

End PropertyFilter.

(** ** The listeners of PropertyFilter and the timers of the page *)

Module FilterEvents.

Import PropertyFilter.

(** What a pending [setTimeout] of [attachEventListeners] runs: the arrow
    function of the search listener or [handlePriceChange]. *)
Inductive callback : Type :=
| SearchCommit
| HandlePriceChange.

Record timer : Type := mkTimer {
  handle : nat;
  due : Z;
  action : callback
}.

(** The filter, the values of its three text controls, the clock and the
    timer queue of the page, and a trace of the calls of [applyFilters()]:
    the time of each call and the criteria it ran with. *)
Record world : Type := mkWorld {
  pf : PropertyFilter.t;
  searchValue : jsstring;
  minPriceValue : jsstring;
  maxPriceValue : jsstring;
  now : Z;
  timers : list timer;
  nextHandle : nat;
  applied : list (Z * Filters.t)
}.

Definition setPf (w : world) (p : PropertyFilter.t) : world :=
  mkWorld p (searchValue w) (minPriceValue w) (maxPriceValue w) (now w) (timers w)
    (nextHandle w) (applied w).
Definition setNow (w : world) (t : Z) : world :=
  mkWorld (pf w) (searchValue w) (minPriceValue w) (maxPriceValue w) t (timers w)
    (nextHandle w) (applied w).
Definition setTimers (w : world) (l : list timer) : world :=
  mkWorld (pf w) (searchValue w) (minPriceValue w) (maxPriceValue w) (now w) l
    (nextHandle w) (applied w).
Definition setControls (w : world) (s lo hi : jsstring) : world :=
  mkWorld (pf w) s lo hi (now w) (timers w) (nextHandle w) (applied w).

(** [setTimeout(action, delay)]: the new timer and its handle. *)
Definition setTimeout (action : callback) (delay : Z) (w : world) : nat * world :=
  (nextHandle w,
   mkWorld (pf w) (searchValue w) (minPriceValue w) (maxPriceValue w) (now w)
     (timers w ++ [mkTimer (nextHandle w) (now w + delay) action])
     (S (nextHandle w)) (applied w)).

(** [clearTimeout(h)]; [None] is [null] and clears nothing. *)
Definition clearTimeout (h : option nat) (w : world) : world :=
  match h with
  | None => w
  | Some h => setTimers w (List.filter (fun tm => negb (handle tm =? h)%nat) (timers w))
  end.

(** [clearTimeout(this.debounceTimeout);
     this.debounceTimeout = setTimeout(action, this.debounceDelay)] *)
Definition debounce (action : callback) (w : world) : world :=
  let w := clearTimeout (debounceTimeout (pf w)) w in
  let '(h, w) := setTimeout action (debounceDelay (pf w)) w in
  setPf w (setDebounceTimeout (pf w) (Some h)).

(** [value ? parseInt(value, 10) : null] *)
Definition parseOrNull (value : jsstring) : option jsnum :=
  if truthy value then Some (parseInt value) else None.

(** [array.splice(array.indexOf(tag), 1)] when [tag] is in the array:
    its first occurrence is removed. *)
Fixpoint spliceFirst (tag : jsstring) (array : list jsstring) : list jsstring :=
  match array with
  | [] => []
  | x :: array' => if bool_decide (x = tag) then array' else x :: spliceFirst tag array'
  end.

Section WithPlatform.
Context `{Platform}.

(** [this.applyFilters()], recorded in the trace. *)
Definition applyFiltersNow (w : world) : world :=
  mkWorld (applyFilters (pf w)) (searchValue w) (minPriceValue w) (maxPriceValue w)
    (now w) (timers w) (nextHandle w) (applied w ++ [(now w, filters (pf w))]).

Definition updateFilters (w : world) (f : Filters.t -> Filters.t) : world :=
  setPf w (setFilters_ (pf w) (f (filters (pf w)))).

(** The body of a timer callback.  Both read the controls when they run. *)
Definition runCallback (action : callback) (w : world) : world :=
  match action with
  | SearchCommit =>
      applyFiltersNow
        (updateFilters w (fun f => Filters.setSearch f (trim (toLowerCase (searchValue w)))))
  | HandlePriceChange =>
      applyFiltersNow
        (updateFilters w (fun f =>
           Filters.setPrices f (parseOrNull (minPriceValue w)) (parseOrNull (maxPriceValue w))))
  end.

(** What the user does to the filter bar.  Typing in a control sets its
    value and then dispatches [input]. *)
Inductive event : Type :=
| SearchInput (value : jsstring)
| SearchEscape
| BedroomsChange (value : jsstring)
| BathroomsChange (value : jsstring)
| PropertyTypeChange (value : jsstring)
| MinPriceInput (value : jsstring)
| MaxPriceInput (value : jsstring)
| TagClick (tag : jsstring).

(** The listeners of [attachEventListeners]. *)
Definition dispatch (e : event) (w : world) : world :=
  match e with
  | SearchInput value =>
      debounce SearchCommit (setControls w value (minPriceValue w) (maxPriceValue w))
  | SearchEscape =>
      applyFiltersNow
        (updateFilters (setControls w [] (minPriceValue w) (maxPriceValue w))
           (fun f => Filters.setSearch f []))
  | BedroomsChange value =>
      applyFiltersNow (updateFilters w (fun f => Filters.setBedrooms f (parseOrNull value)))
  | BathroomsChange value =>
      applyFiltersNow (updateFilters w (fun f => Filters.setBathrooms f (parseOrNull value)))
  | PropertyTypeChange value =>
      applyFiltersNow (updateFilters w (fun f => Filters.setPropertyType f value))
  | MinPriceInput value =>
      debounce HandlePriceChange (setControls w (searchValue w) value (maxPriceValue w))
  | MaxPriceInput value =>
      debounce HandlePriceChange (setControls w (searchValue w) (minPriceValue w) value)
  | TagClick tag =>
      applyFiltersNow
        (updateFilters w (fun f =>
           Filters.setTags f
             (if Array_includes (Filters.tags f) tag
              then spliceFirst tag (Filters.tags f)
              else Filters.tags f ++ [tag])))
  end.

(** The pending timer that fires next when the clock moves to [target]:
    the earliest one due by then, the oldest among equals. *)
Definition nextDue (target : Z) (l : list timer) : option timer :=
  fold_left
    (fun best tm =>
       if due tm <=? target then
         match best with
         | Some b => if due tm <? due b then Some tm else best
         | None => Some tm
         end
       else best)
    l None.

(** The event loop up to time [target]: each timer due by then is removed
    from the queue and run at its due time.  No callback of this page sets
    a timer, so one round per pending timer reaches the end. *)
Fixpoint fire (rounds : nat) (target : Z) (w : world) : world :=
  match rounds with
  | O => w
  | S rounds =>
      match nextDue target (timers w) with
      | None => w
      | Some tm =>
          let w := clearTimeout (Some (handle tm)) w in
          let w := setNow w (Z.max (now w) (due tm)) in
          fire rounds target (runCallback (action tm) w)
      end
  end.

Definition advanceTo (target : Z) (w : world) : world :=
  let w := fire (length (timers w)) target w in
  setNow w (Z.max (now w) target).

(** A timed sequence of user events, then idle time up to [horizon]. *)
Fixpoint run (events : list (Z * event)) (w : world) : world :=
  match events with
  | [] => w
  | (t, e) :: events => run events (dispatch e (advanceTo t w))
  end.

Definition runUntil (events : list (Z * event)) (horizon : Z) (w : world) : world :=
  advanceTo horizon (run events w).

(** The page once [init()] has run on a mounted filter, at time [0]. *)
Definition start (properties : list Property.t) : world :=
  mkWorld (new properties true) [] [] [] 0 [] 0%nat [].

End WithPlatform.

(** One timer is pending, due at [at_], and it is the one that
    [debounceTimeout] holds. *)
Definition armed (w : world) (at_ : Z) (a : callback) : Prop :=
  exists h : nat,
    timers w = [mkTimer h at_ a] /\ debounceTimeout (pf w) = Some h.

(** The three text controls hold the same values in [w] and [w']. *)
Definition sameControls (w w' : world) : Prop :=
  searchValue w' = searchValue w /\ minPriceValue w' = minPriceValue w /\
  maxPriceValue w' = maxPriceValue w.

(** Each time of the list is at or after the one before it and less than
    [delay] after it, starting from [prev]. *)
Fixpoint rapid (delay prev : Z) (times : list Z) : Prop :=
  match times with
  | [] => True
  | t :: times => prev <= t < prev + delay /\ rapid delay t times
  end.

(** A burst of inputs to the search control. *)
Definition searchInputs (inputs : list (Z * jsstring)) : list (Z * event) :=
  List.map (fun input => (fst input, SearchInput (snd input))) inputs.

End FilterEvents.

(** ** Regular expressions *)

Module Regex.

(** The fragment of the regular expression syntax that the validators
    use.  [Class p] matches one code unit that satisfies [p]. *)
Inductive t : Type :=
| Void
| Eps
| Class (p : N -> bool)
| Cat (r s : t)
| Alt (r s : t)
| Star (r : t).

(** [c], [r?], [r+], [r{n}], [r{0,n}] and [r{m,n}] *)
Definition Chr (c : N) : t := Class (N.eqb c).
Definition Opt (r : t) : t := Alt r Eps.
Definition Plus (r : t) : t := Cat r (Star r).

Fixpoint Rep (n : nat) (r : t) : t :=
  match n with
  | O => Eps
  | S n => Cat r (Rep n r)
  end.

Fixpoint UpTo (n : nat) (r : t) : t :=
  match n with
  | O => Eps
  | S n => Opt (Cat r (UpTo n r))
  end.

Definition Between (m n : nat) (r : t) : t := Cat (Rep m r) (UpTo (n - m) r).

(** The strings of the language of a regular expression. *)
Inductive Matches : t -> jsstring -> Prop :=
| MEps : Matches Eps []
| MClass p c : p c = true -> Matches (Class p) [c]
| MCat r s u v : Matches r u -> Matches s v -> Matches (Cat r s) (u ++ v)
| MAltL r s u : Matches r u -> Matches (Alt r s) u
| MAltR r s u : Matches s u -> Matches (Alt r s) u
| MStarNil r : Matches (Star r) []
| MStarCons r u v : Matches r u -> Matches (Star r) v -> Matches (Star r) (u ++ v).

(** Does the language hold the empty string? *)
Fixpoint nullable (r : t) : bool :=
  match r with
  | Void => false
  | Eps => true
  | Class _ => false
  | Cat r s => nullable r && nullable s
  | Alt r s => nullable r || nullable s
  | Star _ => true
  end.

(** The expression for what may follow the code unit [c]. *)
Fixpoint deriv (c : N) (r : t) : t :=
  match r with
  | Void => Void
  | Eps => Void
  | Class p => if p c then Eps else Void
  | Cat r s =>
      if nullable r then Alt (Cat (deriv c r) s) (deriv c s) else Cat (deriv c r) s
  | Alt r s => Alt (deriv c r) (deriv c s)
  | Star r => Cat (deriv c r) (Star r)
  end.

(** [/^r$/.test(s)]: the whole string is in the language of [r]. *)
Fixpoint test (r : t) (s : jsstring) : bool :=
  match s with
  | [] => nullable r
  | c :: s' => test (deriv c r) s'
  end.

End Regex.

(** ** The document, as the form validator reads and writes it *)

Module Dom.

(** An element as the selectors of the validator see it.  The document
    lists its elements in tree order, each with its depth: the
    descendants of an element are the deeper elements that follow it up
    to the next one that is not deeper.  [formGroup], [formError] and
    [formErrorGlobal] tell whether the element has the class
    [form-group], [form-error] or [form-error--global], [typeSubmit]
    whether it matches [[type="submit"]]. *)
Record node : Type := mkNode {
  ref : nat;
  depth : nat;
  id : jsstring;
  formGroup : bool;
  formError : bool;
  formErrorGlobal : bool;
  typeSubmit : bool
}.

(** What the validator writes on an element; [classList] holds its other
    classes, [display] is [style.display] ([None] while unset) and
    [originalText] is [dataset.originalText]. *)
Record attributes : Type := mkAttributes {
  classList : list jsstring;
  ariaDescribedBy : option jsstring;
  ariaInvalid : option jsstring;
  textContent : jsstring;
  display : option jsstring;
  disabled : bool;
  originalText : option jsstring
}.

Definition bare : attributes := mkAttributes [] None None [] None false None.

(** The document: its tree, the attributes of its elements by [ref], and
    the [ref] of the next element that [createElement] makes.  An element
    whose [textContent] the validator sets has no element below it. *)
Record t : Type := mk {
  tree : list node;
  attrs : gmap nat attributes;
  nextRef : nat
}.

(** The element above the ones of depth 0, which the tree does not list;
    the elements that it lists have other refs. *)
Definition body : nat := 0%nat.

Definition attributesOf (r : nat) (d : t) : attributes :=
  default bare (attrs d !! r).

Definition update (r : nat) (f : attributes -> attributes) (d : t) : t :=
  mk (tree d) (<[r := f (attributesOf r d)]> (attrs d)) (nextRef d).

Definition setTree (d : t) (l : list node) : t := mk l (attrs d) (nextRef d).

Definition setClassList (l : list jsstring) (a : attributes) : attributes :=
  mkAttributes l (ariaDescribedBy a) (ariaInvalid a) (textContent a) (display a)
    (disabled a) (originalText a).

(** [classList.remove(...tokens)] and [classList.add(token)] *)
Definition remove (tokens : list jsstring) (a : attributes) : attributes :=
  setClassList (List.filter (fun c => negb (bool_decide (c ∈ tokens))) (classList a)) a.

Definition add (token : jsstring) (a : attributes) : attributes :=
  setClassList
    (if bool_decide (token ∈ classList a) then classList a else classList a ++ [token]) a.

Definition setAriaDescribedBy (v : option jsstring) (a : attributes) : attributes :=
  mkAttributes (classList a) v (ariaInvalid a) (textContent a) (display a)
    (disabled a) (originalText a).

Definition setAriaInvalid (v : option jsstring) (a : attributes) : attributes :=
  mkAttributes (classList a) (ariaDescribedBy a) v (textContent a) (display a)
    (disabled a) (originalText a).

Definition setTextContent (s : jsstring) (a : attributes) : attributes :=
  mkAttributes (classList a) (ariaDescribedBy a) (ariaInvalid a) s (display a)
    (disabled a) (originalText a).

Definition setDisplay (s : jsstring) (a : attributes) : attributes :=
  mkAttributes (classList a) (ariaDescribedBy a) (ariaInvalid a) (textContent a) (Some s)
    (disabled a) (originalText a).

Definition setDisabled (b : bool) (a : attributes) : attributes :=
  mkAttributes (classList a) (ariaDescribedBy a) (ariaInvalid a) (textContent a) (display a)
    b (originalText a).

Definition setOriginalText (s : jsstring) (a : attributes) : attributes :=
  mkAttributes (classList a) (ariaDescribedBy a) (ariaInvalid a) (textContent a) (display a)
    (disabled a) (Some s).

(** The element [r] in the tree: the elements before it, nearest first,
    the element, and the elements after it. *)
Fixpoint locate (r : nat) (before l : list node) : option (list node * node * list node) :=
  match l with
  | [] => None
  | n :: l' =>
      if (ref n =? r)%nat then Some (before, n, l') else locate r (n :: before) l'
  end.

(** The ancestors of an element of depth [d], nearest first, among the
    elements before it. *)
Fixpoint ancestors (d : nat) (before : list node) : list node :=
  match before with
  | [] => []
  | n :: before' =>
      if (depth n <? d)%nat then n :: ancestors (depth n) before' else ancestors d before'
  end.

(** The elements after an element of depth [d]: its descendants, and the
    rest of the tree. *)
Fixpoint below (d : nat) (after : list node) : list node * list node :=
  match after with
  | n :: after' =>
      if (d <? depth n)%nat
      then let '(inner, rest) := below d after' in (n :: inner, rest)
      else ([], after)
  | [] => ([], [])
  end.

Definition descendants (r : nat) (l : list node) : list node :=
  if (r =? body)%nat then l
  else
    match locate r [] l with
    | Some (_, n, after) => fst (below (depth n) after)
    | None => []
    end.

(** [element.closest('.form-group') || element.parentElement] *)
Definition groupOf (r : nat) (l : list node) : nat :=
  match locate r [] l with
  | Some (before, n, _) =>
      let up := ancestors (depth n) before in
      match List.find formGroup (n :: up) with
      | Some group => ref group
      | None =>
          match up with
          | parent :: _ => ref parent
          | [] => body
          end
      end
  | None => body
  end.

(** [element.querySelector(selector)] for a selector that [test] decides *)
Definition querySelector (r : nat) (test : node -> bool) (l : list node) : option node :=
  List.find test (descendants r l).

(** [document.getElementById(elementId)]: the first element of that id;
    the empty string is the id of none. *)
Definition getElementById (elementId : jsstring) (l : list node) : option node :=
  match elementId with
  | [] => None
  | _ :: _ => List.find (fun n => bool_decide (id n = elementId)) l
  end.

(** [parent.appendChild(child)]: the child comes after the descendants
    that the parent has. *)
Definition appendChild (parent : nat) (child : nat -> node) (l : list node) : list node :=
  if (parent =? body)%nat then l ++ [child 0%nat]
  else
    match locate parent [] l with
    | Some (before, p, after) =>
        let '(inner, rest) := below (depth p) after in
        rev_append before (p :: inner ++ child (S (depth p)) :: rest)
    | None => l ++ [child 0%nat]
    end.

(** [sibling.parentNode.insertBefore(child, sibling)] *)
Definition insertBefore (sibling : nat) (child : nat -> node) (l : list node) : list node :=
  match locate sibling [] l with
  | Some (before, s, after) => rev_append before (child (depth s) :: s :: after)
  | None => l
  end.

(** The tree lists each element once, and [createElement] makes an
    element that it does not list. *)
Definition wellFormed (d : t) : Prop :=
  NoDup (ref <$> tree d) /\ Forall (fun n => (ref n < nextRef d)%nat) (tree d).

(** The element is the body or in the tree. *)
Definition attached (r : nat) (d : t) : Prop :=
  r = body \/ r ∈ ref <$> tree d.

End Dom.

(** ** FormValidator *)

Module FormValidator.

(** What [validateField] reads from a form control: [required] is
    [hasAttribute('required')], [dataValidate] is [dataset.validate]
    ([None] without the attribute), [minLength] and [maxLength] are the
    DOM properties ([-1] without the attribute).  [ref] is the element
    of the document that the control is. *)
Module Field.
Record t : Type := mk {
  ref : nat;
  id : jsstring;
  name : jsstring;
  value : jsstring;
  required : bool;
  dataValidate : option jsstring;
  minLength : Z;
  maxLength : Z;
  pattern : jsstring;
  title : jsstring
}.
End Field.

(** The object a validator returns; [valid] is its truthiness. *)
Record verdict : Type := mkVerdict {
  valid : bool;
  message : jsstring
}.

(** A validator takes the value and the parameter written after the colon
    ([None] is [undefined]); [match] also reads the controls of the form. *)
Definition validator : Type := list Field.t -> jsstring -> option jsstring -> verdict.

(** A validator whose call can throw. *)
Definition fallible : Type :=
  list Field.t -> jsstring -> option jsstring -> completion verdict.

Definition returns (validate : validator) : fallible :=
  fun form value param => Returned (validate form value param).

(** [`${param}`] *)
Definition paramText (param : option jsstring) : jsstring :=
  default (str "undefined") param.

(** The regular expression literals of the built-in validators. *)
Module patterns.
Import Regex.

Fixpoint Lit (s : jsstring) : Regex.t :=
  match s with
  | [] => Eps
  | c :: s' => Cat (Chr c) (Lit s')
  end.

(** [[^\s@]] *)
Definition notSpaceNorAt (c : N) : bool := negb (isWhiteSpace c || (c =? 64)%N).

(** [[-.\s]] *)
Definition separator (c : N) : bool := ((c =? 45) || (c =? 46))%N || isWhiteSpace c.

Definition isLower (c : N) : bool := ((97 <=? c) && (c <=? 122))%N.

(** [\w] *)
Definition isWord (c : N) : bool :=
  (isLower c || (65 <=? c) && (c <=? 90) || isDigit c || (c =? 95))%N.

(** [/^[^\s@]+@[^\s@]+\.[^\s@]+$/] *)
Definition email : Regex.t :=
  Cat (Plus (Class notSpaceNorAt))
    (Cat (Chr 64) (Cat (Plus (Class notSpaceNorAt))
       (Cat (Chr 46) (Plus (Class notSpaceNorAt))))).

(** [/^\(?([0-9]{3})\)?[-.\s]?([0-9]{3})[-.\s]?([0-9]{4})$/] *)
Definition phone : Regex.t :=
  Cat (Opt (Chr 40)) (Cat (Rep 3 (Class isDigit)) (Cat (Opt (Chr 41))
    (Cat (Opt (Class separator)) (Cat (Rep 3 (Class isDigit))
       (Cat (Opt (Class separator)) (Rep 4 (Class isDigit))))))).

(** [/^\d{5}(-\d{4})?$/] *)
Definition zip : Regex.t :=
  Cat (Rep 5 (Class isDigit)) (Opt (Cat (Chr 45) (Rep 4 (Class isDigit)))).

(** [/^\d{3}-?\d{2}-?\d{4}$/] *)
Definition ssn : Regex.t :=
  Cat (Rep 3 (Class isDigit)) (Cat (Opt (Chr 45)) (Cat (Rep 2 (Class isDigit))
    (Cat (Opt (Chr 45)) (Rep 4 (Class isDigit))))).

(** The literal of [url]: an optional [https?:\/\/], then [([\da-z.-]+)\.([a-z.]{2,6})],
    then the starred group of the starred class [[/\w .-]], then [\/?]. *)
Definition url : Regex.t :=
  Cat (Opt (Cat (Lit (str "http")) (Cat (Opt (Chr 115)) (Lit (str "://")))))
    (Cat (Plus (Class (fun c => isDigit c || isLower c || (c =? 46)%N || (c =? 45)%N)))
       (Cat (Chr 46)
          (Cat (Between 2 6 (Class (fun c => isLower c || (c =? 46)%N)))
             (Cat (Star (Star (Class (fun c =>
                      (c =? 47)%N || isWord c || (c =? 32)%N || (c =? 46)%N || (c =? 45)%N))))
                (Opt (Chr 47)))))).
End patterns.

(** The initial value of [this.validators]. *)
Module validators.
Section WithPlatform.
Context `{Platform}.

Definition required : validator := fun _ value _ =>
  mkVerdict (0 <? length (trim value))%nat (str "This field is required").

Definition email : validator := fun _ value _ =>
  mkVerdict (Regex.test patterns.email value) (str "Please enter a valid email address").

Definition phone : validator := fun _ value _ =>
  mkVerdict (Regex.test patterns.phone value)
    (str "Please enter a valid phone number (e.g., 903-555-1234)").

Definition zip : validator := fun _ value _ =>
  mkVerdict (Regex.test patterns.zip value)
    (str "Please enter a valid ZIP code (e.g., 75701 or 75701-1234)").

Definition minLength : validator := fun _ value length_ =>
  mkVerdict (js_ge (Num (Z.of_nat (length value))) (parseInt (paramText length_)))
    (str "Must be at least " ++ paramText length_ ++ str " characters").

Definition maxLength : validator := fun _ value length_ =>
  mkVerdict (js_ge (parseInt (paramText length_)) (Num (Z.of_nat (length value))))
    (str "Must be no more than " ++ paramText length_ ++ str " characters").

(** [new RegExp(pattern)] throws on a pattern that does not parse;
    [new RegExp(undefined)] is the empty pattern, which every string
    matches. *)
Definition pattern : fallible := fun _ value pattern =>
  match pattern with
  | Some source =>
      match RegExp source with
      | Some test => Returned (mkVerdict (test value) (str "Please match the requested format"))
      | None => Threw
      end
  | None => Returned (mkVerdict true (str "Please match the requested format"))
  end.

(** A name that the selector [[name='...']] takes as it is written: it
    has no quote, backslash or line break, and no code unit that the CSS
    parser replaces. *)
Definition plainName (fieldName : jsstring) : bool :=
  forallb
    (fun c => negb ((c =? 0) || (c =? 10) || (c =? 12) || (c =? 13) || (c =? 39)
                    || (c =? 92) || (55296 <=? c) && (c <=? 57343))%N)
    fieldName.

(** [this.form.querySelector(`[name='${fieldName}']`)]: the first control
    whose name the selector accepts; a selector that does not parse
    throws. *)
Definition match_ : fallible := fun form value fieldName =>
  let accepts :=
    if plainName (paramText fieldName)
    then Some (fun name => bool_decide (name = paramText fieldName))
    else nameSelector (paramText fieldName) in
  match accepts with
  | Some accepts =>
      Returned
        (mkVerdict
           (match List.find (fun f => accepts (Field.name f)) form with
            | Some matchField => bool_decide (value = Field.value matchField)
            | None => false
            end)
           (str "Must match " ++ paramText fieldName))
  | None => Threw
  end.

Definition number : validator := fun _ value _ =>
  mkVerdict (isNumeric value) (str "Please enter a valid number").

Definition url : validator := fun _ value _ =>
  mkVerdict (Regex.test patterns.url value) (str "Please enter a valid URL").

Definition date : validator := fun _ value _ =>
  mkVerdict (negb (Date_parse_isNaN value)) (str "Please enter a valid date").

Definition ssn : validator := fun _ value _ =>
  mkVerdict (Regex.test patterns.ssn value) (str "Please enter a valid SSN (XXX-XX-XXXX)").

(** The object literal, by property name. *)
Definition builtin : list (jsstring * fallible) :=
  [ (str "required", returns required); (str "email", returns email);
    (str "phone", returns phone); (str "zip", returns zip);
    (str "minLength", returns minLength); (str "maxLength", returns maxLength);
    (str "pattern", pattern); (str "match", match_); (str "number", returns number);
    (str "url", returns url); (str "date", returns date); (str "ssn", returns ssn) ].

End WithPlatform.
End validators.

(** What ends up in an [errors] array: the message of a validator, or
    what the code reads where no validator answered, [undefined] or a
    function of the page (with the text that [String] gives it). *)
Inductive errorValue : Type :=
| Message (text : jsstring)
| Undefined
| Function (source : jsstring).

(** [value || ''] on an entry of the array that may be missing *)
Definition textOf (value : option errorValue) : jsstring :=
  match value with
  | Some (Message text) => text
  | Some (Function source) => source
  | Some Undefined | None => []
  end.

(** An entry of [this.fieldStates]. *)
Record FieldState : Type := mkState {
  touched : bool;
  isValid : bool;
  errors : list errorValue
}.

(** The error and success classes that [updateFieldUI] puts on a control
    and its group. *)
Inductive mark : Type :=
| MarkError
| MarkSuccess.

(** What a control shows after validation: the text and the
    [style.display] of its error container ([None] when the control has
    no container), its [aria-invalid] attribute and its class. *)
Record FieldUI : Type := mkUI {
  errorContainer : option (jsstring * option jsstring);
  ariaInvalid : option jsstring;
  marked : option mark
}.

(** The calls of the [onFieldValid] and [onFieldInvalid] options. *)
Inductive call : Type :=
| OnFieldValid (fieldId : jsstring)
| OnFieldInvalid (fieldId : jsstring) (errors : list errorValue).

(** A validator that the page stored in [this.validators]: a function of
    the value and the parameter that returns a verdict.  [bare] is what a
    call without arguments gives and [source] is the text of the
    function. *)
Record added : Type := mkAdded {
  run : validator;
  bare : completion verdict;
  source : jsstring
}.

(** A [FormValidator] instance with the document it writes.  [form] is
    the list of the controls of the form, in document order, and
    [formElement] the form; [custom] holds the own properties of
    [this.validators] that the page stored over or beside the built-in
    ones, and the prototype of [this.validators] stays
    [Object.prototype]; [onFieldValid] and [onFieldInvalid] tell whether
    the option is a function; [drawn] counts the calls of
    [Math.random]. *)
Record t : Type := mk {
  form : list Field.t;
  formElement : nat;
  showSuccessState : bool;
  onFieldValid : bool;
  onFieldInvalid : bool;
  custom : gmap jsstring added;
  fieldStates : gmap jsstring FieldState;
  document : Dom.t;
  calls : list call;
  drawn : nat
}.

Definition setForm (fv : t) (l : list Field.t) : t :=
  mk l (formElement fv) (showSuccessState fv) (onFieldValid fv) (onFieldInvalid fv)
     (custom fv) (fieldStates fv) (document fv) (calls fv) (drawn fv).
Definition setFieldStates (fv : t) (m : gmap jsstring FieldState) : t :=
  mk (form fv) (formElement fv) (showSuccessState fv) (onFieldValid fv) (onFieldInvalid fv)
     (custom fv) m (document fv) (calls fv) (drawn fv).
Definition setDocument (fv : t) (d : Dom.t) : t :=
  mk (form fv) (formElement fv) (showSuccessState fv) (onFieldValid fv) (onFieldInvalid fv)
     (custom fv) (fieldStates fv) d (calls fv) (drawn fv).
Definition addCall (fv : t) (c : call) : t :=
  mk (form fv) (formElement fv) (showSuccessState fv) (onFieldValid fv) (onFieldInvalid fv)
     (custom fv) (fieldStates fv) (document fv) (calls fv ++ [c]) (drawn fv).
Definition setDrawn (fv : t) (n : nat) : t :=
  mk (form fv) (formElement fv) (showSuccessState fv) (onFieldValid fv) (onFieldInvalid fv)
     (custom fv) (fieldStates fv) (document fv) (calls fv) n.

(** [getErrorContainer(field)], for the element [field] *)
Definition getErrorContainer (field : nat) (d : Dom.t) : option nat :=
  let byGroup :=
    let group := Dom.groupOf field (Dom.tree d) in
    Dom.ref <$> Dom.querySelector group Dom.formError (Dom.tree d) in
  match Dom.ariaDescribedBy (Dom.attributesOf field d) with
  | Some describedBy =>
      if PropertyFilter.truthy describedBy
      then Dom.ref <$> Dom.getElementById describedBy (Dom.tree d)
      else byGroup
  | None => byGroup
  end.

(** What the control shows. *)
Definition uiOf (fv : t) (field : Field.t) : FieldUI :=
  let d := document fv in
  let own := Dom.attributesOf (Field.ref field) d in
  mkUI
    ((fun c => (Dom.textContent (Dom.attributesOf c d), Dom.display (Dom.attributesOf c d)))
       <$> getErrorContainer (Field.ref field) d)
    (Dom.ariaInvalid own)
    (if bool_decide (str "form-control--error" ∈ Dom.classList own) then Some MarkError
     else if bool_decide (str "form-control--success" ∈ Dom.classList own)
          then Some MarkSuccess
          else None).

(** [field.id = fieldId] *)
Definition assignId (field : Field.t) (fieldId : jsstring) (fv : t) : t :=
  let fv :=
    setForm fv
      (List.map
         (fun f =>
            if (Field.ref f =? Field.ref field)%nat
            then Field.mk (Field.ref f) fieldId (Field.name f) (Field.value f)
                   (Field.required f) (Field.dataValidate f) (Field.minLength f)
                   (Field.maxLength f) (Field.pattern f) (Field.title f)
            else f)
         (form fv)) in
  setDocument fv
    (Dom.setTree (document fv)
       (List.map
          (fun n =>
             if (Dom.ref n =? Field.ref field)%nat
             then Dom.mkNode (Dom.ref n) (Dom.depth n) fieldId (Dom.formGroup n)
                    (Dom.formError n) (Dom.formErrorGlobal n) (Dom.typeSubmit n)
             else n)
          (Dom.tree (document fv)))).

(** [updateFieldUI(field, state)]; the timer that takes the class
    [shake] away again is not followed. *)
Definition updateFieldUI (field : Field.t) (state : FieldState) (fv : t) : t :=
  let d := document fv in
  let group := Dom.groupOf (Field.ref field) (Dom.tree d) in
  let errorContainer := getErrorContainer (Field.ref field) d in
  let d :=
    Dom.update group (Dom.remove [str "form-group--error"; str "form-group--success"]) d in
  let d :=
    Dom.update (Field.ref field)
      (Dom.remove [str "form-control--error"; str "form-control--success"]) d in
  let d := Dom.update (Field.ref field) (Dom.setAriaInvalid None) d in
  let d :=
    if negb (isValid state) then
      let d := Dom.update group (Dom.add (str "form-group--error")) d in
      let d := Dom.update (Field.ref field) (Dom.add (str "form-control--error")) d in
      let d := Dom.update (Field.ref field) (Dom.setAriaInvalid (Some (str "true"))) d in
      let d :=
        match errorContainer with
        | Some c =>
            let d := Dom.update c (Dom.setTextContent (textOf (head (errors state)))) d in
            Dom.update c (Dom.setDisplay (str "block")) d
        | None => d
        end in
      Dom.update (Field.ref field) (Dom.add (str "shake")) d
    else if touched state && showSuccessState fv then
      let d := Dom.update group (Dom.add (str "form-group--success")) d in
      let d := Dom.update (Field.ref field) (Dom.add (str "form-control--success")) d in
      let d := Dom.update (Field.ref field) (Dom.setAriaInvalid (Some (str "false"))) d in
      match errorContainer with
      | Some c =>
          let d := Dom.update c (Dom.setTextContent []) d in
          Dom.update c (Dom.setDisplay (str "none")) d
      | None => d
      end
    else d in
  setDocument fv d.

Section WithPlatform.
Context `{Platform}.

(** [setupField(field)]: the control gets an id when it has none, an
    error container is created in its group when [getErrorContainer]
    finds none, the control is linked to the container, and the state of
    the field is initialised.  The listeners it attaches are not part of
    the state. *)
Definition setupField (field : Field.t) (fv : t) : t :=
  let '(fieldId, fv) :=
    if PropertyFilter.truthy (Field.id field) then (Field.id field, fv)
    else if PropertyFilter.truthy (Field.name field) then (Field.name field, fv)
    else (str "field-" ++ Math_random_text (drawn fv), setDrawn fv (S (drawn fv))) in
  let fv :=
    if negb (PropertyFilter.truthy (Field.id field)) then assignId field fieldId fv
    else fv in
  let d := document fv in
  let '(errorContainer, d) :=
    match getErrorContainer (Field.ref field) d with
    | Some c => (c, d)
    | None =>
        let c := Dom.nextRef d in
        let group := Dom.groupOf (Field.ref field) (Dom.tree d) in
        (c,
         Dom.mk
           (Dom.appendChild group
              (fun depth => Dom.mkNode c depth (fieldId ++ str "-error") false true false false)
              (Dom.tree d))
           (Dom.attrs d) (S (Dom.nextRef d)))
    end in
  let containerId :=
    match List.find (fun n => (Dom.ref n =? errorContainer)%nat) (Dom.tree d) with
    | Some n => Dom.id n
    | None => []
    end in
  let d := Dom.update (Field.ref field) (Dom.setAriaDescribedBy (Some containerId)) d in
  let fv := setDocument fv d in
  setFieldStates fv (<[fieldId := mkState false true []]> (fieldStates fv)).

(** What [this.validators[name](value, param)] gives to the code that
    reads [result.valid] and [result.message]. *)
Record answer : Type := mkAnswer {
  accepted : bool;
  said : errorValue
}.

Definition answerOf (result : completion verdict) : completion answer :=
  match result with
  | Returned result => Returned (mkAnswer (valid result) (Message (message result)))
  | Threw => Threw
  end.

(** The members that [this.validators] inherits from [Object.prototype],
    called with the value and the parameter.  Most return something
    without [valid] or [message]; [valueOf] returns [this.validators]
    itself, [toLocaleString] calls [this.validators.toString()], the
    accessor [__proto__] is not a function, [__defineGetter__] and
    [__defineSetter__] refuse a parameter that is not one, and
    [__lookupGetter__] and [__lookupSetter__] return [undefined] unless
    the value names the accessor. *)
Definition inherited (fv : t) (name : jsstring)
  : option (jsstring -> option jsstring -> completion answer) :=
  let nothing := Returned (mkAnswer false Undefined) in
  if bool_decide (name ∈ [str "constructor"; str "toString"; str "hasOwnProperty";
                          str "isPrototypeOf"; str "propertyIsEnumerable"])
  then Some (fun _ _ => nothing)
  else if bool_decide (name = str "toLocaleString")
  then Some (fun _ _ =>
               match custom fv !! str "toString" with
               | Some toString => answerOf (bare toString)
               | None => nothing
               end)
  else if bool_decide (name = str "valueOf")
  then Some (fun _ _ =>
               Returned
                 (mkAnswer (bool_decide (is_Some (custom fv !! str "valid")))
                    (match custom fv !! str "message" with
                     | Some f => Function (source f)
                     | None => Undefined
                     end)))
  else if bool_decide (name ∈ [str "__proto__"; str "__defineGetter__";
                               str "__defineSetter__"])
  then Some (fun _ _ => Threw)
  else if bool_decide (name ∈ [str "__lookupGetter__"; str "__lookupSetter__"])
  then Some (fun value _ =>
               if bool_decide (value = str "__proto__")
                  && bool_decide (custom fv !! str "__proto__" = None)
               then nothing else Threw)
  else None.

(** [this.validators[name]]: an own property, stored by the page or
    built in, or else a member of [Object.prototype]. *)
Definition validatorNamed (fv : t) (name : jsstring)
  : option (jsstring -> option jsstring -> completion answer) :=
  match custom fv !! name with
  | Some v => Some (fun value param => answerOf (returns (run v) (form fv) value param))
  | None =>
      match List.find (fun entry => bool_decide (fst entry = name)) validators.builtin with
      | Some (_, validate) => Some (fun value param => answerOf (validate (form fv) value param))
      | None => inherited fv name
      end
  end.

(** [this.validators.required] *)
Definition requiredValidator (fv : t) : validator :=
  default validators.required (run <$> custom fv !! str "required").

(** [errors.push(message)] *)
Definition push (errors : list errorValue) (message : errorValue) : list errorValue :=
  errors ++ [message].

(** [field.hasAttribute('required') || field.dataset.validate?.includes('required')] *)
Definition requiredApplies (field : Field.t) : bool :=
  Field.required field ||
  match Field.dataValidate field with
  | Some v => includes v (str "required")
  | None => false
  end.

(** [(field.dataset.validate || '').split(' ').filter(Boolean)] *)
Definition validateTypes (field : Field.t) : list jsstring :=
  List.filter PropertyFilter.truthy (split 32 (default [] (Field.dataValidate field))).

(** The body of [validateTypes.forEach((type) => ...)] *)
Definition runType (fv : t) (value : jsstring) (errors : list errorValue) (type : jsstring)
  : completion (list errorValue) :=
  let parts := split 58 type in
  let validatorName := default [] (head parts) in
  let param := parts !! 1%nat in
  match validatorNamed fv validatorName with
  | Some validate =>
      if negb (bool_decide (validatorName = str "required")) then
        match validate value param with
        | Returned result =>
            Returned (if negb (accepted result) then push errors (said result) else errors)
        | Threw => Threw
        end
      else Returned errors
  | None => Returned errors
  end.

(** [validateTypes.forEach(...)]: a call that throws ends the loop. *)
Fixpoint forEachType (fv : t) (value : jsstring) (types : list jsstring)
    (errors : list errorValue) : completion (list errorValue) :=
  match types with
  | [] => Returned errors
  | type :: types =>
      match runType fv value errors type with
      | Returned errors => forEachType fv value types errors
      | Threw => Threw
      end
  end.

(** The array [errors] at the end of [validateField(field)], when no
    check throws. *)
Definition collectErrors (fv : t) (field : Field.t) : completion (list errorValue) :=
  let value := Field.value field in
  let errors := [] in
  let errors :=
    if requiredApplies field then
      let result := requiredValidator fv (form fv) value None in
      if negb (valid result) then push errors (Message (message result)) else errors
    else errors in
  if (0 <? length (trim value))%nat then
    match forEachType fv value (validateTypes field) errors with
    | Returned errors =>
        let errors :=
          if (0 <? Field.minLength field)
             && (Z.of_nat (length value) <? Field.minLength field)
          then push errors
                 (Message (str "Must be at least " ++ Z_toString (Field.minLength field)
                           ++ str " characters"))
          else errors in
        let errors :=
          if (0 <? Field.maxLength field)
             && (Field.maxLength field <? Z.of_nat (length value))
          then push errors
                 (Message (str "Must be no more than " ++ Z_toString (Field.maxLength field)
                           ++ str " characters"))
          else errors in
        if PropertyFilter.truthy (Field.pattern field) then
          match RegExp (Field.pattern field) with
          | Some test =>
              Returned
                (if negb (test value)
                 then push errors
                        (Message (if PropertyFilter.truthy (Field.title field)
                                  then Field.title field
                                  else str "Please match the requested format"))
                 else errors)
          | None => Threw
          end
        else Returned errors
    | Threw => Threw
    end
  else Returned errors.

(** [state.touched = true] on the state that the map holds for the
    field, which is all that a call that throws leaves behind. *)
Definition touch (fieldId : jsstring) (fv : t) : t :=
  match fieldStates fv !! fieldId with
  | Some state =>
      setFieldStates fv
        (<[fieldId := mkState true (isValid state) (errors state)]> (fieldStates fv))
  | None => fv
  end.

(** [validateField(field)]: the boolean it returns, unless a check
    throws, and the validator after the call. *)
Definition validateField (field : Field.t) (fv : t) : completion bool * t :=
  let fieldId := Field.id field in
  match collectErrors fv field with
  | Returned errors =>
      let state := mkState true (length errors =? 0)%nat errors in
      let fv := setFieldStates fv (<[fieldId := state]> (fieldStates fv)) in
      let fv := updateFieldUI field state fv in
      let fv :=
        if isValid state && onFieldValid fv then addCall fv (OnFieldValid fieldId)
        else if negb (isValid state) && onFieldInvalid fv
        then addCall fv (OnFieldInvalid fieldId errors)
        else fv in
      (Returned (isValid state), fv)
  | Threw => (Threw, touch fieldId fv)
  end.

(** The selector [[data-validate], [required]] of [init] and
    [validateForm]. *)
Definition validatable (f : Field.t) : bool :=
  bool_decide (is_Some (Field.dataValidate f)) || Field.required f.

(** [fields.forEach((field) => ...)] in [validateForm]: [isValid] so
    far, and the validator; a call of [validateField] that throws ends
    the loop. *)
Fixpoint forEachField (fields : list Field.t) (isValid : bool) (fv : t)
  : completion bool * t :=
  match fields with
  | [] => (Returned isValid, fv)
  | field :: fields =>
      match validateField field fv with
      | (Returned fieldValid, fv) =>
          forEachField fields (if negb fieldValid && isValid then false else isValid) fv
      | (Threw, fv) => (Threw, fv)
      end
  end.

(** [validateForm()], without the scrolling: every control that has
    [data-validate] or [required] is validated, in document order. *)
Definition validateForm (fv : t) : completion bool * t :=
  forEachField (List.filter validatable (form fv)) true fv.

(** [init()] on a form that was found: every validatable control is set
    up, in document order. *)
Definition init (fv : t) : t :=
  fold_left (fun fv field => setupField field fv) (List.filter validatable (form fv)) fv.

End WithPlatform.

End FormValidator.

(** ** The strings that the specification lets each validator accept *)

(** The patterns the specification gives for [email], [zip] and [phone],
    read as descriptions of strings. *)
Module Shapes.

(** [\d{n}]: exactly [n] decimal digits. *)
Definition digits (n : nat) (s : jsstring) : Prop :=
  length s = n /\ forall c, c ∈ s -> (48 <= c <= 57)%N.

(** [[^\s@]+]: one or more code units, none of them white space or [@]. *)
Definition atom (s : jsstring) : Prop :=
  s <> [] /\ forall c, c ∈ s -> isWhiteSpace c = false /\ c <> 64%N.

(** [x?] for a class [x] of single code units. *)
Definition optional (x : N -> Prop) (s : jsstring) : Prop :=
  s = [] \/ exists c, s = [c] /\ x c.

(** [[-.\s]] *)
Definition separator (c : N) : Prop :=
  c = 45%N \/ c = 46%N \/ isWhiteSpace c = true.

(** [^[^\s@]+@[^\s@]+\.[^\s@]+$] *)
Definition email (v : jsstring) : Prop :=
  exists local domain tld,
    v = local ++ str "@" ++ domain ++ str "." ++ tld /\
    atom local /\ atom domain /\ atom tld.

(** [^\d{5}(-\d{4})?$] *)
Definition zip (v : jsstring) : Prop :=
  digits 5 v \/
  exists five four, v = five ++ str "-" ++ four /\ digits 5 five /\ digits 4 four.

(** [^\(?([0-9]{3})\)?[-.\s]?([0-9]{3})[-.\s]?([0-9]{4})$] *)
Definition phone (v : jsstring) : Prop :=
  exists lparen area rparen sep1 exchange sep2 line,
    v = lparen ++ area ++ rparen ++ sep1 ++ exchange ++ sep2 ++ line /\
    optional (eq 40%N) lparen /\ digits 3 area /\ optional (eq 41%N) rparen /\
    optional separator sep1 /\ digits 3 exchange /\
    optional separator sep2 /\ digits 4 line.

End Shapes.

(** ** Sample data *)

Module Samples.
Import PropertyFilter.

Definition oakHouse : Property.t :=
  Property.mk (Some (str "p1")) None (Some (str "Oak House")) (Some (str "12 Oak St"))
    (Some (str "Tyler")) None (Some 3) (Some 2) (Some 1200) (Some (str "Single Family"))
    (Some [str "Pet Friendly"; str "Section 8"]) true.

Definition pineFlat : Property.t :=
  Property.mk (Some (str "p2")) None (Some (str "Pine Flat")) (Some (str "3 Pine Ave"))
    (Some (str "Longview")) None (Some 2) (Some 1) (Some 800) (Some (str "Studio"))
    (Some [str "Section 8"]) false.

Definition elmLodge : Property.t :=
  Property.mk (Some (str "p3")) None (Some (str "Elm Lodge")) (Some (str "7 Elm Rd"))
    (Some (str "Tyler")) None (Some 4) (Some 3) (Some 1500) (Some (str "Historic"))
    None false.

Definition listing : list Property.t := [oakHouse; pineFlat; elmLodge].

(** A mounted filter on the listing, as [init()] leaves it. *)
Definition page : PropertyFilter.t := new listing true.

(** A contact form: an optional e-mail control in a group of its own,
    and a required name and an optional contact control that share the
    second group.  No group has an error container yet. *)
Definition emailField (value : jsstring) : FormValidator.Field.t :=
  FormValidator.Field.mk 3 (str "email") (str "email") value false (Some (str "email"))
    (-1) (-1) [] [].

(** An optional control declared [data-validate="email zip"]. *)
Definition contactField (value : jsstring) : FormValidator.Field.t :=
  FormValidator.Field.mk 6 (str "contact") (str "contact") value false
    (Some (str "email zip")) (-1) (-1) [] [].

(** The contact control with another [data-validate], value and
    [pattern]. *)
Definition contactControl (validate value pattern : jsstring) : FormValidator.Field.t :=
  FormValidator.Field.mk 6 (str "contact") (str "contact") value false (Some validate)
    (-1) (-1) pattern [].

Definition nameField (value : jsstring) : FormValidator.Field.t :=
  FormValidator.Field.mk 5 (str "name") (str "name") value true (Some (str "minLength:3"))
    (-1) 5 [] [].

(** The form (1), its two groups (2 and 4), the three controls and the
    submit button (7). *)
Definition contactForm : Dom.t :=
  Dom.mk
    [ Dom.mkNode 1 0 (str "contact-form") false false false false;
      Dom.mkNode 2 1 [] true false false false;
      Dom.mkNode 3 2 (str "email") false false false false;
      Dom.mkNode 4 1 [] true false false false;
      Dom.mkNode 5 2 (str "name") false false false false;
      Dom.mkNode 6 2 (str "contact") false false false false;
      Dom.mkNode 7 1 [] false false false true ]
    ∅ 8.

(** The validator of the form as the constructor leaves it: the three
    controls are set up. *)
Definition validator : FormValidator.t :=
  @FormValidator.init asciiPlatform
    (FormValidator.mk [emailField []; nameField []; contactField []] 1
       true false false ∅ ∅ contactForm [] 0).

End Samples.

(** * The rest of the code of the widgets *)

(** ** RateLimiter: the queries, the statistics and the identifiers *)

Module RateLimiterApi.
Import RateLimiter.

(** [getAttemptCount(key)] *)
Definition getAttemptCount (now : Z) (key : jsstring) (rl : t) : Z :=
  let userAttempts := default [] (attempts rl !! key) in
  Z.of_nat (length (validOf rl now userAttempts)).

(** [getRemainingAttempts(key)] *)
Definition getRemainingAttempts (now : Z) (key : jsstring) (rl : t) : Z :=
  let userAttempts := default [] (attempts rl !! key) in
  let validAttempts := validOf rl now userAttempts in
  Z.max 0 (maxAttempts rl - Z.of_nat (length validAttempts)).

(** [Math.min(first, ...rest)] *)
Definition Math_min (first : Z) (rest : list Z) : Z := fold_left Z.min rest first.

(** [getTimeUntilReset(key)]: the minimum is taken over every stored
    attempt, expired or not. *)
Definition getTimeUntilReset (now : Z) (key : jsstring) (rl : t) : Z :=
  match default [] (attempts rl !! key) with
  | [] => 0
  | first :: rest =>
      let oldestAttempt := Math_min first rest in
      let timeUntilReset := Math_ceil_div (oldestAttempt + windowMs rl - now) 1000 in
      Z.max 0 timeUntilReset
  end.

(** The object that [getStats()] returns. *)
Record stats : Type := mkStats {
  totalActiveUsers : Z;
  totalAttempts : Z;
  stats_maxAttempts : Z;
  stats_windowMs : Z;
  mapSize : Z
}.

(** The body of the loop of [getStats] over [this.attempts.values()]. *)
Definition countEntry (rl : t) (now : Z) (attempts : list Z) (acc : Z * Z) : Z * Z :=
  let validAttempts := validOf rl now attempts in
  if (0 <? length validAttempts)%nat
  then (fst acc + 1, snd acc + Z.of_nat (length validAttempts))
  else acc.

(** [getStats()] *)
Definition getStats (now : Z) (rl : t) : stats :=
  let counts := map_fold (fun _ => countEntry rl now) (0, 0) (attempts rl) in
  mkStats (fst counts) (snd counts) (maxAttempts rl) (windowMs rl)
    (Z.of_nat (size (attempts rl))).

(** The conversion of a number to a 32-bit integer that the bit operators
    make. *)
Definition ToInt32 (z : Z) : Z := (z + 2 ^ 31) mod 2 ^ 32 - 2 ^ 31.

(** One round of the loop of [hashString]:
    [hash = (hash << 5) - hash + char; hash = hash & hash]. *)
Definition hashRound (hash : Z) (char : N) : Z :=
  let hash := ToInt32 (Z.shiftl hash 5) - hash + Z.of_N char in
  ToInt32 hash.

(** The value of [hash] when the loop of [hashString(str)] ends. *)
Definition hashCode (str : jsstring) : Z := fold_left hashRound str 0.

(** The digits of [toString(36)]. *)
Definition digit36 (d : Z) : N :=
  if d <? 10 then Z.to_N (48 + d) else Z.to_N (87 + d).

Fixpoint toString36_from (rounds : nat) (z : Z) (acc : jsstring) : jsstring :=
  match rounds with
  | O => acc
  | S rounds =>
      let acc := digit36 (z mod 36) :: acc in
      if z / 36 =? 0 then acc else toString36_from rounds (z / 36) acc
  end.

(** [z.toString(36)] for an integer [z >= 0]; a number of [n] bits has at
    most [n] digits. *)
Definition toString36 (z : Z) : jsstring :=
  toString36_from (S (Z.to_nat (Z.log2 z))) z [].

(** What [hashString] may be given: a string, or a number, whose [length]
    is [undefined]. *)
Inductive hashInput : Type :=
| OfString (s : jsstring)
| OfNumber.

(** [hashString(str)]: for a number [i < str.length] is false at once and
    the loop does not run. *)
Definition hashString (str : hashInput) : jsstring :=
  let hash :=
    match str with
    | OfString s => hashCode s
    | OfNumber => 0
    end in
  toString36 (Z.abs hash).

(** [getFallbackIdentifier()], on the value of the [fallback_fingerprint]
    entry of the local storage: the identifier and the entry afterwards.
    The argument of [hashString] is the number [Date.now() + Math.random()]. *)
Definition getFallbackIdentifier (stored : option jsstring) : jsstring * option jsstring :=
  match stored with
  | Some fallbackId =>
      if PropertyFilter.truthy fallbackId then (fallbackId, stored)
      else (str "fallback_" ++ hashString OfNumber,
            Some (str "fallback_" ++ hashString OfNumber))
  | None =>
      (str "fallback_" ++ hashString OfNumber,
       Some (str "fallback_" ++ hashString OfNumber))
  end.

(** The polynomial that the loop of [hashString] evaluates when no
    overflow is cut off: each round multiplies by 31 and adds the code unit. *)
Definition poly31 (str : jsstring) : Z :=
  fold_left (fun hash char => 31 * hash + Z.of_N char) str 0.

(** What the identifiers read and write in the storages of the browser:
    three entries of the local storage and one of the session storage. *)
Record storages : Type := mkStorages {
  client_ip : option jsstring;
  browser_fingerprint : option jsstring;
  fallback_fingerprint : option jsstring;
  form_session_id : option jsstring
}.

(** What the identifiers read from the browser itself: the text that
    [getFingerprint] joins from the user agent, the locale, the screen,
    the time zone and the canvas ([None] when the canvas calls throw), the
    digits that [getSessionId] puts after ['session_'], and the user agent. *)
Record browser : Type := mkBrowser {
  fingerprintText : option jsstring;
  sessionStamp : jsstring;
  userAgent : jsstring
}.

(** [x || fallback] on a string that may be [null] *)
Definition orElse (x : option jsstring) (fallback : option jsstring) : option jsstring :=
  match x with
  | Some s => if PropertyFilter.truthy s then Some s else fallback
  | None => fallback
  end.

(** An identifier function returns a string or [null], with the storages
    as it leaves them, or throws ([None]). *)
Definition identifier : Type := storages -> option (option jsstring * storages).

(** [getClientIP()] *)
Definition getClientIP : identifier := fun st =>
  Some (orElse (client_ip st) None, st).

(** [getFingerprint()] *)
Definition getFingerprint (b : browser) : identifier := fun st =>
  match fingerprintText b with
  | None => None
  | Some fingerprint =>
      match orElse (browser_fingerprint st) None with
      | Some stored => Some (Some stored, st)
      | None =>
          let stored := hashString (OfString fingerprint) in
          Some (Some stored,
                mkStorages (client_ip st) (Some stored) (fallback_fingerprint st)
                  (form_session_id st))
      end
  end.

(** [getSessionId()] *)
Definition getSessionId (b : browser) : identifier := fun st =>
  match orElse (form_session_id st) None with
  | Some sessionId => Some (Some sessionId, st)
  | None =>
      let sessionId := str "session_" ++ sessionStamp b in
      Some (Some sessionId,
            mkStorages (client_ip st) (browser_fingerprint st) (fallback_fingerprint st)
              (Some sessionId))
  end.

(** [getUserAgent()] *)
Definition getUserAgent (b : browser) : identifier := fun st =>
  Some (orElse (Some (userAgent b)) (Some (str "unknown")), st).

(** The loop of [getUserIdentifier] over the identifier functions: the
    first string that is not empty is returned; [null] and an exception
    pass to the next function.  [None] when the list is exhausted. *)
Fixpoint firstIdentifier (identifiers : list identifier) (st : storages)
  : option jsstring * storages :=
  match identifiers with
  | [] => (None, st)
  | identify :: identifiers =>
      match identify st with
      | Some (Some id, st') =>
          if PropertyFilter.truthy id then (Some id, st')
          else firstIdentifier identifiers st'
      | Some (None, st') => firstIdentifier identifiers st'
      | None => firstIdentifier identifiers st
      end
  end.

(** [getUserIdentifier()] *)
Definition getUserIdentifier (b : browser) (st : storages) : jsstring * storages :=
  match firstIdentifier
          [getClientIP; getFingerprint b; getSessionId b; getUserAgent b] st with
  | (Some id, st') => (id, st')
  | (None, st') =>
      let '(id, stored) := getFallbackIdentifier (fallback_fingerprint st') in
      (id, mkStorages (client_ip st') (browser_fingerprint st') stored (form_session_id st'))
  end.

(** The states of a limiter whose clock never goes back: [reachableAt t rl]
    when [rl] is reached by calls made at times up to [t], in order. *)
Inductive reachableAt : Z -> t -> Prop :=
| at_new t maxAttempts windowMs :
    reachableAt t (new maxAttempts windowMs)
| at_isAllowed t now key rl :
    reachableAt t rl -> t <= now -> reachableAt now (snd (isAllowed now key rl))
| at_cleanup t now rl :
    reachableAt t rl -> t <= now -> reachableAt now (cleanup now rl)
| at_reset t key rl :
    reachableAt t rl -> reachableAt t (resetUserAttempts key rl)
| at_destroy t rl :
    reachableAt t rl -> reachableAt t (destroy rl)
| at_later t t' rl :
    reachableAt t rl -> t <= t' -> reachableAt t' rl.

(** Every stored array is in the order of time and holds no time after [t]. *)
Definition chronological (t : Z) (rl : RateLimiter.t) : Prop :=
  forall (key : jsstring) (l : list Z),
    attempts rl !! key = Some l ->
    StronglySorted Z.le l /\ Forall (fun timestamp => timestamp <= t) l.

End RateLimiterApi.

(** ** Accordion: the keyboard *)

Module AccordionKeys.
Import Accordion.

(** An accordion and the index of its button that has the focus, when one
    has. *)
Record t : Type := mk {
  accordion : Accordion.t;
  focused : option Z
}.

(** [this.items[i].button.focus()] *)
Definition focus (i : Z) (s : t) : t := mk (accordion s) (Some i).

(** [focusNext(currentIndex)]; [%] is the remainder of JavaScript. *)
Definition focusNext (currentIndex : Z) (s : t) : t :=
  let nextIndex := Z.rem (currentIndex + 1) (Z.of_nat (length (items (accordion s)))) in
  focus nextIndex s.

(** [focusPrevious(currentIndex)] *)
Definition focusPrevious (currentIndex : Z) (s : t) : t :=
  let prevIndex :=
    if currentIndex =? 0 then Z.of_nat (length (items (accordion s))) - 1
    else currentIndex - 1 in
  focus prevIndex s.

(** [focusFirst()] and [focusLast()] *)
Definition focusFirst (s : t) : t :=
  if (0 <? length (items (accordion s)))%nat then focus 0 s else s.

Definition focusLast (s : t) : t :=
  if (0 <? length (items (accordion s)))%nat
  then focus (Z.of_nat (length (items (accordion s))) - 1) s else s.

(** The keys that [handleKeydown] tells apart. *)
Inductive key : Type :=
| Enter
| Space
| ArrowDown
| ArrowUp
| Home
| End_
| OtherKey.

(** [handleKeydown(e, index)], for the button of index [index]. *)
Definition handleKeydown (k : key) (index : Z) (s : t) : t :=
  match k with
  | Enter | Space => mk (toggle index (accordion s)) (focused s)
  | ArrowDown => focusNext index s
  | ArrowUp => focusPrevious index s
  | Home => focusFirst s
  | End_ => focusLast s
  | OtherKey => s
  end.

(** [aria-expanded] of every button tells whether its panel is open. *)
Definition synced (a : Accordion.t) : Prop :=
  Forall (fun item => ariaExpanded item = isOpen item) (items a).

End AccordionKeys.

(** ** The theme toggle *)

Module ThemeToggle.

(** The page as the theme code sees it: the [data-theme] attribute of the
    document element, the [theme] entry of the local storage, the
    [aria-pressed] attribute of the toggle button, and the [isDarkMode]
    details of the [themeChanged] events dispatched. *)
Record t : Type := mk {
  dataTheme : option jsstring;
  savedTheme : option jsstring;
  ariaPressed : option jsstring;
  themeChanged : list bool
}.

(** [htmlElement.getAttribute('data-theme') === 'dark'] *)
Definition isDarkMode (p : t) : bool := bool_decide (dataTheme p = Some (str "dark")).

(** [savedTheme === 'dark' || (!savedTheme && prefersDark)] *)
Definition wantsDark (savedTheme : option jsstring) (prefersDark : bool) : bool :=
  bool_decide (savedTheme = Some (str "dark"))
  || negb (match savedTheme with Some s => PropertyFilter.truthy s | None => false end)
     && prefersDark.

(** The [DOMContentLoaded] listener on a page that has the toggle button:
    the saved or preferred theme is applied ([initializeTheme] then applies
    it again). *)
Definition load (prefersDark : bool) (p : t) : t :=
  let p :=
    if wantsDark (savedTheme p) prefersDark
    then mk (Some (str "dark")) (savedTheme p) (Some (str "true")) (themeChanged p)
    else p in
  if wantsDark (savedTheme p) prefersDark
  then mk (Some (str "dark")) (savedTheme p) (ariaPressed p) (themeChanged p)
  else p.

(** The [click] listener of the toggle button. *)
Definition click (p : t) : t :=
  if isDarkMode p
  then mk None (Some (str "light")) (Some (str "false")) (themeChanged p ++ [false])
  else mk (Some (str "dark")) (Some (str "dark")) (Some (str "true")) (themeChanged p ++ [true]).

(** The [change] listener of the [prefers-color-scheme] media query. *)
Definition systemChange (matches : bool) (p : t) : t :=
  if negb (match savedTheme p with Some s => PropertyFilter.truthy s | None => false end)
  then
    if matches
    then mk (Some (str "dark")) (savedTheme p) (Some (str "true")) (themeChanged p)
    else mk None (savedTheme p) (Some (str "false")) (themeChanged p)
  else p.

(** [window.themeToggle.toggleTheme()] *)
Definition toggleTheme (p : t) : t :=
  if isDarkMode p
  then mk None (Some (str "light")) (ariaPressed p) (themeChanged p)
  else mk (Some (str "dark")) (Some (str "dark")) (ariaPressed p) (themeChanged p).

(** [window.themeToggle.getCurrentTheme()] *)
Definition getCurrentTheme (p : t) : jsstring :=
  match dataTheme p with
  | Some theme => if PropertyFilter.truthy theme then theme else str "light"
  | None => str "light"
  end.

(** A page as the server sends it, without [data-theme], with the local
    storage that the browser kept. *)
Definition fresh (saved : option jsstring) (ariaPressed : option jsstring) : t :=
  mk None saved ariaPressed [].

(** What the user, the system and the scripts of the page do. *)
Inductive op : Type :=
| Click
| SystemChange (matches : bool)
| ToggleTheme.

Definition exec (o : op) (p : t) : t :=
  match o with
  | Click => click p
  | SystemChange matches => systemChange matches p
  | ToggleTheme => toggleTheme p
  end.

(** Once a theme is saved, the attribute and the storage agree. *)
Definition saved_agrees (p : t) : Prop :=
  (savedTheme p = Some (str "dark") /\ dataTheme p = Some (str "dark")) \/
  (savedTheme p = Some (str "light") /\ dataTheme p = None).

End ThemeToggle.

(** ** CSRFProtection *)

Module CSRFProtection.

(** An instance with what it reads and writes outside itself: the
    [csrf_token] entry of the session storage and, for each form of the
    page by id, the value of its hidden [csrf_token] input ([None] when the
    form has no such input). *)
Record t : Type := mk {
  token : option jsstring;
  stored : option jsstring;
  forms : gmap jsstring (option jsstring)
}.

(** [generateToken()]; [fresh] is the value that [crypto.randomUUID()] or
    the fallback expression gives. *)
Definition generateToken (fresh : jsstring) (c : t) : t :=
  mk (Some fresh) (Some fresh) (forms c).

(** [init()] *)
Definition init (fresh : jsstring) (c : t) : t :=
  let c := mk (stored c) (stored c) (forms c) in
  if negb (match token c with Some s => PropertyFilter.truthy s | None => false end)
  then generateToken fresh c
  else c.

(** [new CSRFProtection()] on a page with the given session storage and
    forms. *)
Definition new (fresh : jsstring) (stored : option jsstring)
    (forms : gmap jsstring (option jsstring)) : t :=
  init fresh (mk None stored forms).

(** [validateToken(submittedToken)] *)
Definition validateToken (submittedToken : jsstring) (c : t) : bool :=
  bool_decide (Some submittedToken = stored c).

(** [getToken()] *)
Definition getToken (c : t) : option jsstring :=
  match token c with
  | Some s => if PropertyFilter.truthy s then Some s else stored c
  | None => stored c
  end.

(** [attachToForm(formId)]; an input whose value is set to [null] holds
    the empty string. *)
Definition attachToForm (formId : jsstring) (c : t) : t :=
  match forms c !! formId with
  | None => c
  | Some _ => mk (token c) (stored c) (<[formId := Some (default [] (getToken c))]> (forms c))
  end.

(** [refreshToken()] *)
Definition refreshToken (fresh : jsstring) (c : t) : t := generateToken fresh c.

(** The [submit] listener that the page puts on each form: [true] when
    the submission goes on, [false] when it is prevented. *)
Definition submitPasses (formId : jsstring) (c : t) : bool :=
  match forms c !! formId with
  | Some (Some value) => validateToken value c
  | _ => false
  end.

End CSRFProtection.

(** ** PropertyFilter: reset, programmatic updates and the data of the page *)

Module FilterPage.
Import PropertyFilter FilterEvents.

(** [resetFilters()]; the announcement to the screen reader and the
    classes of the tag buttons are not part of the state. *)
Definition resetFilters (pf : PropertyFilter.t) : PropertyFilter.t :=
  let pf := setFilters_ pf Filters.default in
  let pf := setFiltered pf (allProperties pf) in
  updateResultsCount (render pf).

(** A click on the reset button, or on the one of the placeholder: the
    text controls are emptied and the filters reset.  A pending timer is
    left alone. *)
Definition resetClick (w : world) : world :=
  setPf (setControls w [] [] []) (resetFilters (pf w)).

(** [getFilters()] *)
Definition getFilters (pf : PropertyFilter.t) : Filters.t := filters pf.

Section WithPlatform.
Context `{Platform}.

(** [updateProperties(properties)] *)
Definition updateProperties (properties : list Property.t) (pf : PropertyFilter.t)
  : PropertyFilter.t :=
  applyFilters
    (PropertyFilter.mk properties (filteredProperties pf) (container pf) (filterBar pf)
       (filters pf) (debounceTimeout pf) (debounceDelay pf) (resultsCount pf)
       (resultsLabel pf)).

(** [setFilters(filters)] with an object that gives every field. *)
Definition setFilters (f : Filters.t) (pf : PropertyFilter.t) : PropertyFilter.t :=
  applyFilters (setFilters_ pf f).

(** What happens on the page: an event of the filter bar or a click on a
    reset button. *)
Inductive action : Type :=
| Event (e : event)
| Reset.

Definition act (a : action) (w : world) : world :=
  match a with
  | Event e => dispatch e w
  | Reset => resetClick w
  end.

(** A timed sequence of actions, the timers firing in between. *)
Fixpoint runActions (actions : list (Z * action)) (w : world) : world :=
  match actions with
  | [] => w
  | (t, a) :: actions => runActions actions (act a (advanceTo t w))
  end.

(** What the page shows is what the criteria select: the filtered list
    is the properties that pass the current filters, the container holds
    their cards (or the placeholder), and the count is their number. *)
Definition consistent (pf : PropertyFilter.t) : Prop :=
  filteredProperties pf = List.filter (passes (filters pf)) (allProperties pf) /\
  container pf =
    Some (match filteredProperties pf with
          | [] => [NoResults]
          | _ :: _ =>
              imap (fun index prop => Card (createPropertyCard prop index))
                (filteredProperties pf)
          end) /\
  filterBar pf = true /\
  resultsCount pf = length (filteredProperties pf) /\
  resultsLabel pf =
    (if (length (filteredProperties pf) =? 1)%nat
     then str "property found" else str "properties found").

(** The page shows the list that the filters select from [all]. *)
Definition showing (all : list Property.t) (w : world) : Prop :=
  consistent (pf w) /\ allProperties (pf w) = all.

End WithPlatform.

(** An entry of [propertiesData] as the script of the page reads it; an
    entry without [name], [location] or [tags] makes the script throw
    before the filter is built. *)
Record listing : Type := mkListing {
  name : jsstring;
  location : jsstring;
  bedrooms : option Z;
  bathrooms : option Z;
  tags : list jsstring
}.

(** [s.replace(/\s+/g, '-')]: each run of white space becomes one dash. *)
Fixpoint dashRuns (inRun : bool) (s : jsstring) : jsstring :=
  match s with
  | [] => []
  | c :: s' =>
      if isWhiteSpace c
      then (if inRun then dashRuns true s' else 45%N :: dashRuns true s')
      else c :: dashRuns false s'
  end.

(** The callback of [prop.tags.map]. *)
Definition normaliseTag (tag : jsstring) : jsstring :=
  if includes tag (str "Section 8") then str "Section 8"
  else if includes tag (str "HUD-VASH") then str "HUD-VASH"
  else if includes tag (str "Pet") || includes tag (str "Family") then str "Pet Friendly"
  else tag.

Section WithPlatform.
Context `{Platform}.

(** The callback of [propertiesData.map((prop, index) => ...)]; the
    object it builds has no [price_amount], [type] or [description]. *)
Definition formatProperty (prop : listing) (index : nat) : Property.t :=
  Property.mk
    (Some (str "property-" ++ Z_toString (Z.of_nat index)))
    (Some (dashRuns false (toLowerCase (name prop))))
    (Some (name prop))
    (Some (location prop))
    (Some (trim (default [] (head (split 44 (location prop))))))
    None
    (bedrooms prop) (bathrooms prop) None None
    (Some (List.map normaliseTag (tags prop)))
    (index =? 0)%nat.

(** [formattedProperties] *)
Definition formattedProperties (propertiesData : list listing) : list Property.t :=
  imap (fun index prop => formatProperty prop index) propertiesData.

End WithPlatform.

End FilterPage.

(** ** FormValidator: the form as a whole *)

Module FormSubmit.
Import FormValidator.

(** The user edits the controls: the form holds other values. *)
Definition withForm (form : list Field.t) (fv : FormValidator.t) : FormValidator.t :=
  setForm fv form.

(** What a [submit] event led to: the rate limit message was shown, or
    [validateForm()] was false, or the data of the form was read and
    given to [onSubmit] when there is one, or a check threw and the
    promise of [handleSubmit] was rejected. *)
Inductive outcome : Type :=
| RateLimited (message : jsstring)
| Rejected
| Accepted
| Raised.

(** A validator with its rate limiter ([None] when [enableRateLimit] is
    off), whether [onSubmit] is a function, and the outcomes of the
    submit events so far. *)
Record t : Type := mk {
  validator : FormValidator.t;
  rateLimiter : option RateLimiter.t;
  onSubmit : bool;
  outcomes : list outcome
}.

Definition setValidator (s : t) (fv : FormValidator.t) : t :=
  mk fv (rateLimiter s) (onSubmit s) (outcomes s).
Definition setRateLimiter (s : t) (rl : RateLimiter.t) : t :=
  mk (validator s) (Some rl) (onSubmit s) (outcomes s).
Definition addOutcome (s : t) (o : outcome) : t :=
  mk (validator s) (rateLimiter s) (onSubmit s) (outcomes s ++ [o]).

(** The limiter the constructor makes.  With [rateLimitConfig] given it
    reads [this.rateLimitConfig], which nothing sets, and the property
    access on [undefined] throws: [None]. *)
Definition initRateLimiter (enableRateLimit : bool) (rateLimitConfig : option (Z * Z))
  : option (option RateLimiter.t) :=
  if enableRateLimit then
    match rateLimitConfig with
    | Some _ => None
    | None => Some (Some RateLimiter.createFormRateLimiter)
    end
  else Some None.

(** [this.form.querySelector('.form-error--global')] *)
Definition globalContainer (fv : FormValidator.t) : option Dom.node :=
  Dom.querySelector (formElement fv) Dom.formErrorGlobal (Dom.tree (document fv)).

(** [this.form.querySelector('[type="submit"]')] *)
Definition submitButton (fv : FormValidator.t) : option Dom.node :=
  Dom.querySelector (formElement fv) Dom.typeSubmit (Dom.tree (document fv)).

(** The text and the [style.display] of the global error container
    ([None] until it is created). *)
Definition globalError (s : t) : option (jsstring * option jsstring) :=
  (fun c =>
     (Dom.textContent (Dom.attributesOf (Dom.ref c) (document (validator s))),
      Dom.display (Dom.attributesOf (Dom.ref c) (document (validator s)))))
  <$> globalContainer (validator s).

(** The class [form--rate-limited] of the form. *)
Definition rateLimitedClass (s : t) : bool :=
  bool_decide
    (str "form--rate-limited"
     ∈ Dom.classList (Dom.attributesOf (formElement (validator s)) (document (validator s)))).

(** The message of [showRateLimitError]: [retryAfter] is falsy when it
    is [0] or [NaN]. *)
Definition rateLimitMessage (rateLimitResult : RateLimiter.result) : jsstring :=
  match RateLimiter.retryAfter rateLimitResult with
  | Some (Num seconds) =>
      if seconds =? 0 then str "Too many attempts. Please try again later."
      else str "Too many attempts. Please wait " ++ Z_toString seconds
           ++ str " seconds before trying again."
  | _ => str "Too many attempts. Please try again later."
  end.

(** What [showRateLimitError] does to the document: the global error
    container is created before the submit button, or at the end of the
    form, when the form has none; it shows the message, and the form and
    the button are marked. *)
Definition showNotice (errorMessage : jsstring) (fv : FormValidator.t) : FormValidator.t :=
  let d := document fv in
  let '(formErrorContainer, d) :=
    match globalContainer fv with
    | Some c => (Dom.ref c, d)
    | None =>
        let c := Dom.nextRef d in
        let child := fun depth => Dom.mkNode c depth [] false true true false in
        (c,
         Dom.mk
           (match submitButton fv with
            | Some button => Dom.insertBefore (Dom.ref button) child (Dom.tree d)
            | None => Dom.appendChild (formElement fv) child (Dom.tree d)
            end)
           (Dom.attrs d) (S (Dom.nextRef d)))
    end in
  let d := Dom.update formErrorContainer (Dom.setTextContent errorMessage) d in
  let d := Dom.update formErrorContainer (Dom.setDisplay (str "block")) d in
  let d := Dom.update (formElement fv) (Dom.add (str "form--rate-limited")) d in
  let d :=
    match submitButton (setDocument fv d) with
    | Some button =>
        let d := Dom.update (Dom.ref button) (Dom.setDisabled true) d in
        Dom.update (Dom.ref button) (Dom.add (str "btn--rate-limited")) d
    | None => d
    end in
  setDocument fv d.

(** [showRateLimitError(rateLimitResult)], without the timer that hides
    the message again. *)
Definition showRateLimitError (rateLimitResult : RateLimiter.result) (s : t) : t :=
  mk (showNotice (rateLimitMessage rateLimitResult) (validator s)) (rateLimiter s)
     (onSubmit s) (outcomes s ++ [RateLimited (rateLimitMessage rateLimitResult)]).

(** What [resetRateLimit] does to the document. *)
Definition hideNotice (fv : FormValidator.t) : FormValidator.t :=
  let d := document fv in
  let d :=
    match globalContainer fv with
    | Some c => Dom.update (Dom.ref c) (Dom.setDisplay (str "none")) d
    | None => d
    end in
  let d := Dom.update (formElement fv) (Dom.remove [str "form--rate-limited"]) d in
  let d :=
    match submitButton fv with
    | Some button =>
        let d := Dom.update (Dom.ref button) (Dom.setDisabled false) d in
        Dom.update (Dom.ref button) (Dom.remove [str "btn--rate-limited"]) d
    | None => d
    end in
  setDocument fv d.

(** [resetRateLimit()] *)
Definition resetRateLimit (userKey : jsstring) (s : t) : t :=
  match rateLimiter s with
  | Some rl =>
      mk (hideNotice (validator s)) (Some (RateLimiter.resetUserAttempts userKey rl))
         (onSubmit s) (outcomes s)
  | None => s
  end.

(** [setLoadingState(loading)] *)
Definition setLoadingState (loading : bool) (fv : FormValidator.t) : FormValidator.t :=
  let d := document fv in
  let d :=
    if loading then
      let d := Dom.update (formElement fv) (Dom.add (str "form--loading")) d in
      match submitButton fv with
      | Some button =>
          let d := Dom.update (Dom.ref button) (Dom.setDisabled true) d in
          let d := Dom.update (Dom.ref button) (Dom.add (str "btn--loading")) d in
          let d :=
            Dom.update (Dom.ref button)
              (Dom.setOriginalText (Dom.textContent (Dom.attributesOf (Dom.ref button) d))) d in
          Dom.update (Dom.ref button) (Dom.setTextContent (str "Submitting...")) d
      | None => d
      end
    else
      let d := Dom.update (formElement fv) (Dom.remove [str "form--loading"]) d in
      match submitButton fv with
      | Some button =>
          let d := Dom.update (Dom.ref button) (Dom.setDisabled false) d in
          let d := Dom.update (Dom.ref button) (Dom.remove [str "btn--loading"]) d in
          match Dom.originalText (Dom.attributesOf (Dom.ref button) d) with
          | Some originalText =>
              if PropertyFilter.truthy originalText
              then Dom.update (Dom.ref button) (Dom.setTextContent originalText) d
              else d
          | None => d
          end
      | None => d
      end in
  setDocument fv d.

(** The body of the loop of [reset()] for one entry of [fieldStates],
    on the document: the element of that id, when there is one, loses
    the marks of validation and its error container is emptied. *)
Definition clearField (fieldId : jsstring) (d : Dom.t) : Dom.t :=
  match Dom.getElementById fieldId (Dom.tree d) with
  | Some field =>
      let group := Dom.groupOf (Dom.ref field) (Dom.tree d) in
      let d :=
        Dom.update group
          (Dom.remove [str "form-group--error"; str "form-group--success"]) d in
      let d :=
        Dom.update (Dom.ref field)
          (Dom.remove [str "form-control--error"; str "form-control--success"]) d in
      let d := Dom.update (Dom.ref field) (Dom.setAriaInvalid None) d in
      match getErrorContainer (Dom.ref field) d with
      | Some errorContainer =>
          let d := Dom.update errorContainer (Dom.setTextContent []) d in
          Dom.update errorContainer (Dom.setDisplay (str "none")) d
      | None => d
      end
  | None => d
  end.

(** [reset()]; [defaults] is the form as [form.reset()] leaves it.  What
    the loop writes for one field does not depend on what it wrote for
    another, so the order in which it meets the entries of the map does
    not matter (lemma [reset_order]). *)
Definition reset (defaults : list Field.t) (userKey : jsstring) (s : t) : t :=
  let fv := validator s in
  let fv := setForm fv defaults in
  let d :=
    map_fold (fun fieldId _ d => clearField fieldId d) (document fv) (fieldStates fv) in
  let fv :=
    setFieldStates (setDocument fv d)
      ((fun _ => mkState false true []) <$> fieldStates fv) in
  resetRateLimit userKey (setValidator s fv).

(** The limiter of the form is the one of [createFormRateLimiter] and
    holds the attempts [l] of the user. *)
Definition limiterHolds (userKey : jsstring) (l : list Z) (s : t) : Prop :=
  exists rl : RateLimiter.t,
    rateLimiter s = Some rl /\ RateLimiter.maxAttempts rl = 3 /\
    RateLimiter.windowMs rl = 60000 /\
    default [] (RateLimiter.attempts rl !! userKey) = l.

Section WithPlatform.
Context `{Platform}.

(** [new FormValidator(form, options)] on the form [formElement] of the
    document, with the controls [form]; [None] when the constructor
    throws. *)
Definition construct (form : list Field.t) (formElement : nat) (document : Dom.t)
    (drawn : nat)
    (showSuccessState onFieldValid onFieldInvalid onSubmit enableRateLimit : bool)
    (rateLimitConfig : option (Z * Z)) : option t :=
  match initRateLimiter enableRateLimit rateLimitConfig with
  | None => None
  | Some rl =>
      Some (mk (init (FormValidator.mk form formElement showSuccessState onFieldValid
                        onFieldInvalid ∅ ∅ document [] drawn))
              rl onSubmit [])
  end.

(** [handleSubmit(e)] at time [now], with [userKey] the identifier of
    the user, up to the call of [onSubmit]. *)
Definition handleSubmit (now : Z) (userKey : jsstring) (s : t) : t :=
  let validate (s : t) : t :=
    match validateForm (validator s) with
    | (Returned isValid, fv) =>
        if negb isValid then addOutcome (setValidator s fv) Rejected
        else
          let fv := if onSubmit s then setLoadingState true fv else fv in
          addOutcome (setValidator s fv) Accepted
    | (Threw, fv) => addOutcome (setValidator s fv) Raised
    end in
  match rateLimiter s with
  | Some rl =>
      let '(rateLimitResult, rl) := RateLimiter.isAllowed now userKey rl in
      let s := setRateLimiter s rl in
      if negb (RateLimiter.allowed rateLimitResult)
      then showRateLimitError rateLimitResult s
      else validate s
  | None => validate s
  end.

(** What happens to a form: the user edits it, submits it, or the
    promise that [onSubmit] returned settles. *)
Inductive step : Type :=
| Edit (form : list Field.t)
| Submit (now : Z)
| Settle.

Definition exec (userKey : jsstring) (s : t) (st : step) : t :=
  match st with
  | Edit form => setValidator s (withForm form (validator s))
  | Submit now => handleSubmit now userKey s
  | Settle => setValidator s (setLoadingState false (validator s))
  end.

Definition run (userKey : jsstring) (steps : list step) (s : t) : t :=
  fold_left (exec userKey) steps s.

End WithPlatform.

End FormSubmit.

(** The validator of the contact form as the constructor leaves it. *)
Module FormSamples.

Definition fields : list FormValidator.Field.t :=
  [Samples.emailField []; Samples.nameField []; Samples.contactField []].

Definition fresh : FormSubmit.t :=
  FormSubmit.mk
    (@FormValidator.init asciiPlatform
       (FormValidator.mk fields 1 true false false ∅ ∅ Samples.contactForm [] 0))
    (Some RateLimiter.createFormRateLimiter) false [].

End FormSamples.

(** Two entries of the kind the page carries, and the filter the script
    builds on them. *)
Module PageSamples.
Import FilterPage.

Definition propertiesData : list listing :=
  [ mkListing (str "Tyler Ranch Home") (str "Tyler, TX") (Some 3) (Some 2)
      [str "Section 8 Ready"; str "Family Friendly"];
    mkListing (str "Longview Cottage") (str "Longview, TX") (Some 2) (Some 1)
      [str "HUD-VASH Approved"; str "Pets OK"] ].

Definition page : PropertyFilter.t :=
  PropertyFilter.new (@formattedProperties asciiPlatform propertiesData) true.

End PageSamples.

(** * Properties *)

(** ** The string functions on small inputs *)

Example trim_strips_both_ends : trim (str "  a b ") = str "a b".
Proof. reflexivity. Qed.

Example trim_strips_no_break_space : trim [160; 97; 8232]%N = str "a".
Proof. reflexivity. Qed.

Example split_on_space : split 32 (str "email  zip") = [str "email"; []; str "zip"].
Proof. reflexivity. Qed.

Example split_of_empty : split 58 [] = [[]].
Proof. reflexivity. Qed.

Example split_parameter : split 58 (str "minLength:5") = [str "minLength"; str "5"].
Proof. reflexivity. Qed.

Example includes_substring : includes (str "12 oak st tyler") (str "tyler") = true.
Proof. reflexivity. Qed.

Example includes_missing : includes (str "12 oak st") (str "tyler") = false.
Proof. reflexivity. Qed.

Example parseInt_prefix : parseInt (str " 42px") = Num 42.
Proof. reflexivity. Qed.

Example parseInt_negative : parseInt (str "-7") = Num (-7).
Proof. reflexivity. Qed.

Example parseInt_undefined : parseInt (str "undefined") = NaN.
Proof. reflexivity. Qed.

Example Z_toString_example : Z_toString 120 = str "120".
Proof. reflexivity. Qed.

Example ceil_of_exact : Math_ceil_div 3000 1000 = 3.
Proof. reflexivity. Qed.

Example ceil_of_fraction : Math_ceil_div 59901 1000 = 60.
Proof. reflexivity. Qed.

Example ssn_with_dashes :
  Regex.test FormValidator.patterns.ssn (str "123-45-6789") = true.
Proof. vm_compute. reflexivity. Qed.

Example url_with_path :
  Regex.test FormValidator.patterns.url (str "https://example.com/a/b") = true.
Proof. vm_compute. reflexivity. Qed.

Example url_without_dot :
  Regex.test FormValidator.patterns.url (str "localhost") = false.
Proof. vm_compute. reflexivity. Qed.

Example phone_with_parentheses :
  Regex.test FormValidator.patterns.phone (str "(903) 555-1234") = true.
Proof. vm_compute. reflexivity. Qed.

Example phone_too_short :
  Regex.test FormValidator.patterns.phone (str "555-1234") = false.
Proof. vm_compute. reflexivity. Qed.

(** ** Arithmetic of the retry delay *)

Lemma Math_ceil_div_is_ceiling (x d : Z) :
  0 < d -> is_ceiling x d (Math_ceil_div x d).
Proof.
  intros Hd. unfold is_ceiling, Math_ceil_div.
  pose proof (Z.div_mod (- x) d) as Hdm.
  pose proof (Z.mod_pos_bound (- x) d Hd) as Hb.
  lia.
Qed.

Lemma is_ceiling_unique (x d c c' : Z) :
  0 < d -> is_ceiling x d c -> is_ceiling x d c' -> c = c'.
Proof. unfold is_ceiling. intros Hd [H1 H2] [H3 H4]. nia. Qed.

Lemma Math_ceil_div_mono (x y d : Z) :
  0 < d -> x <= y -> Math_ceil_div x d <= Math_ceil_div y d.
Proof.
  intros Hd Hxy. unfold Math_ceil_div.
  assert ((- y) / d <= (- x) / d) by (apply Z.div_le_mono; lia).
  lia.
Qed.

Lemma Math_ceil_div_pos (x d : Z) :
  0 < d -> 0 < x -> 0 < Math_ceil_div x d.
Proof.
  intros Hd Hx. destruct (Math_ceil_div_is_ceiling x d Hd) as [_ Hc]. nia.
Qed.

(** ** RateLimiter *)

Section RateLimiterFacts.
Import RateLimiter.

Lemma filter_same_length {A} (f : A -> bool) (l : list A) :
  length (List.filter f l) = length l -> List.filter f l = l.
Proof.
  induction l as [|a l IH]; simpl; [done|].
  destruct (f a) eqn:Hf; simpl; intros Hlen.
  - f_equal. apply IH. lia.
  - pose proof (filter_length_le f l). lia.
Qed.

(** The two branches of [isAllowed], as equations. *)
Lemma isAllowed_denied (now : Z) (key : jsstring) (rl : t) :
  let valid := validOf rl now (default [] (attempts rl !! key)) in
  maxAttempts rl <= Z.of_nat (length valid) ->
  isAllowed now key rl =
    (mkResult false
       (Some (Math_max 1
                (match head valid with
                 | Some oldest => Num (Math_ceil_div (oldest + windowMs rl - now) 1000)
                 | None => NaN
                 end)))
       (Z.of_nat (length valid)) (maxAttempts rl) None,
     rl).
Proof.
  intros valid Hle. unfold isAllowed. fold valid.
  destruct (Z.leb_spec (maxAttempts rl) (Z.of_nat (length valid))); [done | lia].
Qed.

Lemma isAllowed_granted (now : Z) (key : jsstring) (rl : t) :
  let valid := validOf rl now (default [] (attempts rl !! key)) in
  Z.of_nat (length valid) < maxAttempts rl ->
  isAllowed now key rl =
    (mkResult true None (Z.of_nat (length (valid ++ [now]))) (maxAttempts rl)
       (Some (maxAttempts rl - Z.of_nat (length (valid ++ [now])))),
     mk (maxAttempts rl) (windowMs rl) (<[key := valid ++ [now]]> (attempts rl))).
Proof.
  intros valid Hlt. unfold isAllowed. fold valid.
  destruct (Z.leb_spec (maxAttempts rl) (Z.of_nat (length valid))); [lia | done].
Qed.

Lemma isAllowed_allowed_iff (now : Z) (key : jsstring) (rl : t) :
  allowed (fst (isAllowed now key rl)) = true <->
  Z.of_nat (length (validOf rl now (default [] (attempts rl !! key)))) < maxAttempts rl.
Proof.
  unfold isAllowed.
  destruct (Z.leb_spec (maxAttempts rl)
              (Z.of_nat (length (validOf rl now (default [] (attempts rl !! key))))));
    simpl; split; (done || lia).
Qed.

Lemma exec_config (o : op) (rl : t) :
  maxAttempts (exec o rl) = maxAttempts rl /\ windowMs (exec o rl) = windowMs rl.
Proof.
  destruct o; simpl; try done.
  unfold isAllowed. by destruct (_ <=? _).
Qed.

Lemma reachable_bounded (rl : t) : reachable rl -> bounded rl.
Proof.
  induction 1 as [m w | o rl Hr IH]; intros key l Hl.
  - simpl in Hl. by rewrite lookup_empty in Hl.
  - destruct o as [now k | k | now | ]; simpl in *.
    + unfold isAllowed in *.
      set (valid := validOf rl now (default [] (attempts rl !! k))) in *.
      destruct (Z.leb_spec (maxAttempts rl) (Z.of_nat (length valid))); simpl in *.
      * by apply (IH key).
      * destruct (decide (k = key)) as [->|Hne].
        -- rewrite lookup_insert_eq in Hl. injection Hl as <-.
           rewrite length_app. simpl. lia.
        -- rewrite lookup_insert_ne in Hl by done. by apply (IH key).
    + destruct (decide (k = key)) as [->|Hne].
      * by rewrite lookup_delete_eq in Hl.
      * rewrite lookup_delete_ne in Hl by done. by apply (IH key).
    + rewrite lookup_omap in Hl.
      destruct (attempts rl !! key) as [l0|] eqn:Hk; simpl in Hl; [|done].
      specialize (IH key l0 Hk).
      unfold cleanupEntry in Hl.
      pose proof (filter_length_le (fun timestamp => now - timestamp <? windowMs rl) l0).
      unfold validOf in Hl.
      repeat (destruct (_ : bool) in Hl; simpl in Hl); try done;
        injection Hl as <-; lia.
    + by rewrite lookup_empty in Hl.
Qed.

(** C1.  [isAllowed(key)] prunes the attempts of the key that are
    [windowMs] old or older.  If at least [maxAttempts] valid attempts
    remain it answers [allowed: false], and [retryAfter] is the ceiling of
    (oldest valid attempt + windowMs - now) / 1000, raised to 1 if lower.
    Otherwise it stores the valid attempts followed by [now] and answers
    [allowed: true] with [remainingAttempts] equal to [maxAttempts] minus
    the new count.  With 3 attempts per 60000 ms, on a key without
    attempts: three calls are allowed, a fourth one less than 60000 ms after
    the first is denied with a positive [retryAfter], and a call 60000 ms
    or more after the first attempt is allowed again. *)
Theorem isAllowed_sliding_window :
  (forall (rl : t) (now : Z) (key : jsstring),
     let valid :=
       List.filter (fun timestamp => now - timestamp <? windowMs rl)
         (default [] (attempts rl !! key)) in
     let r := fst (isAllowed now key rl) in
     let rl' := snd (isAllowed now key rl) in
     (maxAttempts rl <= Z.of_nat (length valid) ->
      allowed r = false /\
      forall oldest : Z, head valid = Some oldest ->
        exists c : Z,
          is_ceiling (oldest + windowMs rl - now) 1000 c /\
          retryAfter r = Some (Num (Z.max 1 c)))
     /\
     (Z.of_nat (length valid) < maxAttempts rl ->
      allowed r = true /\
      attempts rl' !! key = Some (valid ++ [now]) /\
      remainingAttempts r = Some (maxAttempts rl - Z.of_nat (length (valid ++ [now])))))
  /\
  (forall (rl : t) (key : jsstring) (t1 t2 t3 t4 t5 : Z),
     maxAttempts rl = 3 -> windowMs rl = 60000 -> attempts rl !! key = None ->
     t1 <= t2 -> t2 <= t3 -> t3 <= t4 -> t4 - t1 < 60000 -> 60000 <= t5 - t1 ->
     let c1 := isAllowed t1 key rl in
     let c2 := isAllowed t2 key (snd c1) in
     let c3 := isAllowed t3 key (snd c2) in
     let c4 := isAllowed t4 key (snd c3) in
     let c5 := isAllowed t5 key (snd c4) in
     allowed (fst c1) = true /\ allowed (fst c2) = true /\ allowed (fst c3) = true /\
     (allowed (fst c4) = false /\
      exists n : Z, retryAfter (fst c4) = Some (Num n) /\ 0 < n) /\
     allowed (fst c5) = true).
Proof.
  split.
  - intros rl now key valid r rl'. split.
    + intros Hle. subst r rl'.
      rewrite (isAllowed_denied now key rl Hle). simpl. split; [done|].
      intros oldest Hold. fold (validOf rl now (default [] (attempts rl !! key))) in valid.
      fold valid. rewrite Hold. simpl.
      exists (Math_ceil_div (oldest + windowMs rl - now) 1000).
      split; [by apply Math_ceil_div_is_ceiling | done].
    + intros Hlt. subst r rl'.
      rewrite (isAllowed_granted now key rl Hlt). simpl.
      rewrite lookup_insert_eq. done.
  - intros [m w a] key t1 t2 t3 t4 t5 Hm Hw Hk H12 H23 H34 H41 H51. simpl in *. subst m w.
    assert (E21 : (t2 - t1 <? 60000) = true) by (apply Z.ltb_lt; lia).
    assert (E31 : (t3 - t1 <? 60000) = true) by (apply Z.ltb_lt; lia).
    assert (E32 : (t3 - t2 <? 60000) = true) by (apply Z.ltb_lt; lia).
    assert (E41 : (t4 - t1 <? 60000) = true) by (apply Z.ltb_lt; lia).
    assert (E42 : (t4 - t2 <? 60000) = true) by (apply Z.ltb_lt; lia).
    assert (E43 : (t4 - t3 <? 60000) = true) by (apply Z.ltb_lt; lia).
    assert (E51 : (t5 - t1 <? 60000) = false) by (apply Z.ltb_ge; lia).
    assert (C1 : isAllowed t1 key (mk 3 60000 a) =
                 (mkResult true None 1 3 (Some 2), mk 3 60000 (<[key := [t1]]> a))).
    { unfold isAllowed, validOf. simpl. rewrite Hk. done. }
    rewrite C1. simpl.
    assert (C2 : isAllowed t2 key (mk 3 60000 (<[key := [t1]]> a)) =
                 (mkResult true None 2 3 (Some 1),
                  mk 3 60000 (<[key := [t1; t2]]> (<[key := [t1]]> a)))).
    { unfold isAllowed, validOf. simpl. rewrite lookup_insert_eq. simpl. rewrite E21. done. }
    rewrite C2. simpl.
    assert (C3 : isAllowed t3 key (mk 3 60000 (<[key := [t1; t2]]> (<[key := [t1]]> a))) =
                 (mkResult true None 3 3 (Some 0),
                  mk 3 60000
                    (<[key := [t1; t2; t3]]> (<[key := [t1; t2]]> (<[key := [t1]]> a))))).
    { unfold isAllowed, validOf. simpl. rewrite lookup_insert_eq. simpl.
      rewrite E31, E32. done. }
    rewrite C3. simpl.
    set (s3 := mk 3 60000 _).
    assert (C4 : isAllowed t4 key s3 =
                 (mkResult false (Some (Num (Z.max 1 (Math_ceil_div (t1 + 60000 - t4) 1000))))
                    3 3 None, s3)).
    { unfold isAllowed, validOf, s3. simpl. rewrite lookup_insert_eq. simpl.
      rewrite E41, E42, E43. done. }
    rewrite C4. simpl.
    repeat split; try done.
    + eexists. split; [done|]. lia.
    + apply isAllowed_allowed_iff. unfold s3, validOf. simpl.
      rewrite lookup_insert_eq. simpl. rewrite E51.
      destruct (t5 - t2 <? 60000), (t5 - t3 <? 60000); simpl; lia.
Qed.

(** At a concrete run of the form limiter. *)
Lemma isAllowed_sliding_window_witness :
  allowed (fst (isAllowed 1000 (str "u") createFormRateLimiter)) = true /\
  (let c1 := isAllowed 0 (str "u") createFormRateLimiter in
   let c2 := isAllowed 10 (str "u") (snd c1) in
   let c3 := isAllowed 20 (str "u") (snd c2) in
   let c4 := isAllowed 59999 (str "u") (snd c3) in
   let c5 := isAllowed 60000 (str "u") (snd c4) in
   allowed (fst c1) = true /\ allowed (fst c2) = true /\ allowed (fst c3) = true /\
   (allowed (fst c4) = false /\
    exists n : Z, retryAfter (fst c4) = Some (Num n) /\ 0 < n) /\
   allowed (fst c5) = true).
Proof.
  split.
  - apply (proj1 isAllowed_sliding_window createFormRateLimiter 1000 (str "u")).
    vm_compute. reflexivity.
  - apply (proj2 isAllowed_sliding_window createFormRateLimiter (str "u") 0 10 20 59999 60000);
      try reflexivity; lia.
Defined.

(** A denied call on a reachable limiter found every stored attempt of
    the key valid. *)
Lemma denied_all_valid (rl : t) (now : Z) (key : jsstring) :
  reachable rl ->
  allowed (fst (isAllowed now key rl)) = false ->
  validOf rl now (default [] (attempts rl !! key)) = default [] (attempts rl !! key).
Proof.
  intros Hr Hden.
  assert (Hle : maxAttempts rl
                <= Z.of_nat (length (validOf rl now (default [] (attempts rl !! key))))).
  { destruct (Z.le_gt_cases (maxAttempts rl)
                (Z.of_nat (length (validOf rl now (default [] (attempts rl !! key))))))
      as [|Hlt]; [done|].
    apply isAllowed_allowed_iff in Hlt. congruence. }
  apply filter_same_length.
  pose proof (filter_length_le (fun timestamp => now - timestamp <? windowMs rl)
                (default [] (attempts rl !! key))) as Hf.
  unfold validOf in *.
  destruct (attempts rl !! key) as [l|] eqn:Hk; simpl in *.
  - pose proof (reachable_bounded rl Hr key l Hk). lia.
  - done.
Qed.

(** C9.  A call of [isAllowed] that answers [allowed: false] returns the
    limiter as it was: nothing is recorded and the pruned array is not
    stored.  On a limiter reached from its constructor, when a denied call
    at [now1] is followed by a denied call at [now2 >= now1] for the same
    key, the second [retryAfter] is not greater than the first; with a
    positive [maxAttempts] both are integers. *)
Theorem denied_call_changes_nothing :
  (forall (rl : t) (now : Z) (key : jsstring),
     allowed (fst (isAllowed now key rl)) = false ->
     snd (isAllowed now key rl) = rl)
  /\
  (forall (rl : t) (key : jsstring) (now1 now2 : Z),
     reachable rl -> now1 <= now2 ->
     let c1 := isAllowed now1 key rl in
     let c2 := isAllowed now2 key (snd c1) in
     allowed (fst c1) = false -> allowed (fst c2) = false ->
     snd c2 = rl /\
     exists n1 n2 : jsnum,
       retryAfter (fst c1) = Some n1 /\ retryAfter (fst c2) = Some n2 /\
       js_gt n2 n1 = false /\
       (0 < maxAttempts rl ->
        exists z1 z2 : Z, n1 = Num z1 /\ n2 = Num z2 /\ 1 <= z2 <= z1)).
Proof.
  assert (Hsame : forall (rl : t) (now : Z) (key : jsstring),
             allowed (fst (isAllowed now key rl)) = false ->
             snd (isAllowed now key rl) = rl).
  { intros rl now key. unfold isAllowed. by destruct (_ <=? _). }
  split; [exact Hsame|].
  intros rl key now1 now2 Hr Hnow c1 c2 H1 H2. subst c1 c2.
  rewrite (Hsame rl now1 key H1) in *.
  split; [by apply Hsame|].
  pose proof (denied_all_valid rl now1 key Hr H1) as V1.
  pose proof (denied_all_valid rl now2 key Hr H2) as V2.
  assert (L1 : maxAttempts rl
               <= Z.of_nat (length (validOf rl now1 (default [] (attempts rl !! key))))).
  { destruct (Z.le_gt_cases (maxAttempts rl)
                (Z.of_nat (length (validOf rl now1 (default [] (attempts rl !! key))))))
      as [|Hlt]; [done|].
    apply isAllowed_allowed_iff in Hlt. congruence. }
  assert (L2 : maxAttempts rl
               <= Z.of_nat (length (validOf rl now2 (default [] (attempts rl !! key))))).
  { rewrite V2, <- V1. exact L1. }
  rewrite (isAllowed_denied now1 key rl L1), (isAllowed_denied now2 key rl L2). simpl.
  rewrite V1, V2 in *.
  destruct (default [] (attempts rl !! key)) as [|oldest l] eqn:Hl; simpl in *.
  - exists NaN, NaN. repeat split; try done. intros Hpos. lia.
  - exists (Num (Z.max 1 (Math_ceil_div (oldest + windowMs rl - now1) 1000))),
           (Num (Z.max 1 (Math_ceil_div (oldest + windowMs rl - now2) 1000))).
    pose proof (Math_ceil_div_mono (oldest + windowMs rl - now2)
                  (oldest + windowMs rl - now1) 1000 ltac:(lia) ltac:(lia)) as Hmono.
    repeat split; try done.
    + simpl. apply Z.ltb_ge. lia.
    + intros _. eexists _, _. repeat split; [lia | lia].
Qed.

(** At the form limiter after three attempts: denied at 100 and at 30000. *)
Lemma denied_call_changes_nothing_witness :
  let rl := exec (IsAllowed 20 (str "u")) (exec (IsAllowed 10 (str "u"))
              (exec (IsAllowed 0 (str "u")) createFormRateLimiter)) in
  snd (isAllowed 100 (str "u") rl) = rl /\
  (let c1 := isAllowed 100 (str "u") rl in
   let c2 := isAllowed 30000 (str "u") (snd c1) in
   snd c2 = rl /\
   exists n1 n2 : jsnum,
     retryAfter (fst c1) = Some n1 /\ retryAfter (fst c2) = Some n2 /\
     js_gt n2 n1 = false /\
     (0 < maxAttempts rl ->
      exists z1 z2 : Z, n1 = Num z1 /\ n2 = Num z2 /\ 1 <= z2 <= z1)).
Proof.
  intros rl. split.
  - apply (proj1 denied_call_changes_nothing rl 100 (str "u")). reflexivity.
  - apply (proj2 denied_call_changes_nothing rl (str "u") 100 30000).
    + unfold rl. repeat apply reachable_exec. apply (reachable_new 3 60000).
    + lia.
    + reflexivity.
    + reflexivity.
Defined.

End RateLimiterFacts.

(** ** Accordion *)

Section AccordionFacts.
Import Accordion.

Lemma isPanelOpen_lt (j : nat) (a : t) :
  isPanelOpen j a = true -> (j < length (items a))%nat.
Proof.
  unfold isPanelOpen. destruct (items a !! j) eqn:Hj; [|done].
  intros _. by apply lookup_lt_Some in Hj.
Qed.

Lemma callback_fields (index : Z) (b : bool) (a : t) :
  allowMultiple (callback index b a) = allowMultiple a /\
  onToggle (callback index b a) = onToggle a /\
  items (callback index b a) = items a /\
  calls (callback index b a) = calls a ++ (if onToggle a then [(index, b)] else []).
Proof.
  unfold callback. destruct (onToggle a) eqn:Ho; simpl; rewrite ?Ho, ?app_nil_r; done.
Qed.

(** What [close] does: the panel [index] is closed, the others keep their
    state, and [onToggle(index, false)] is called when it was open. *)
Lemma close_spec (index : Z) (a : t) :
  allowMultiple (close index a) = allowMultiple a /\
  onToggle (close index a) = onToggle a /\
  length (items (close index a)) = length (items a) /\
  (forall j : nat,
     isPanelOpen j (close index a) = isPanelOpen j a && negb (Z.of_nat j =? index)) /\
  calls (close index a) =
    calls a ++
    (if onToggle a && (0 <=? index) && isPanelOpen (Z.to_nat index) a
     then [(index, false)] else []).
Proof.
  unfold close, outOfRange.
  destruct (Z.ltb_spec index 0) as [Hneg|Hpos]; simpl.
  { repeat split; try done.
    - intros j. destruct (Z.eqb_spec (Z.of_nat j) index); [lia|]. by rewrite andb_true_r.
    - destruct (Z.leb_spec 0 index); [lia|]. by rewrite andb_false_r, app_nil_r. }
  destruct (Z.leb_spec 0 index) as [_|]; [|lia]. rewrite andb_true_r.
  destruct (Z.leb_spec (Z.of_nat (length (items a))) index) as [Hout|Hin].
  { repeat split; try done.
    - intros j. destruct (Z.eqb_spec (Z.of_nat j) index) as [<-|]; simpl.
      + unfold isPanelOpen. rewrite lookup_ge_None_2 by lia. done.
      + by rewrite andb_true_r.
    - unfold isPanelOpen. rewrite lookup_ge_None_2 by lia.
      by rewrite andb_false_r, app_nil_r. }
  assert (Hn : (Z.to_nat index < length (items a))%nat) by lia.
  destruct (lookup_lt_is_Some_2 _ _ Hn) as [it Hit].
  unfold isPanelOpen at 3. rewrite Hit.
  destruct (isOpen it) eqn:Hopen; simpl.
  - pose proof (callback_fields index false
                  (setItems a (<[Z.to_nat index := mkItem false false]> (items a)))) as
      (Hc1 & Hc2 & Hc3 & Hc4).
    rewrite Hc1, Hc2, Hc3, Hc4. simpl.
    repeat split; try done.
    + by rewrite length_insert.
    + intros j. unfold isPanelOpen. rewrite Hc3. simpl.
      destruct (Z.eqb_spec (Z.of_nat j) index) as [<-|Hne].
      * rewrite Nat2Z.id in *. rewrite list_lookup_insert_eq by done.
        simpl. by rewrite andb_false_r.
      * rewrite list_lookup_insert_ne by lia. by rewrite andb_true_r.
    + by rewrite andb_true_r.
  - repeat split; try done.
    + intros j. destruct (Z.eqb_spec (Z.of_nat j) index) as [<-|Hne]; simpl.
      * unfold isPanelOpen. rewrite Nat2Z.id in Hit. rewrite Hit, Hopen. done.
      * by rewrite andb_true_r.
    + by rewrite andb_false_r, app_nil_r.
Qed.

Lemma closeOther_spec (index : Z) (a : t) (i : nat) :
  allowMultiple (closeOther index a i) = allowMultiple a /\
  onToggle (closeOther index a i) = onToggle a /\
  length (items (closeOther index a i)) = length (items a) /\
  (forall j : nat,
     isPanelOpen j (closeOther index a i) =
     isPanelOpen j a && negb (bool_decide (j = i) && negb (Z.of_nat i =? index))) /\
  calls (closeOther index a i) =
    calls a ++
    (if onToggle a && isPanelOpen i a && negb (Z.of_nat i =? index)
     then [(Z.of_nat i, false)] else []).
Proof.
  unfold closeOther.
  destruct (items a !! i) as [item|] eqn:Hi.
  - unfold isPanelOpen at 3. rewrite Hi.
    destruct (Z.eqb_spec (Z.of_nat i) index) as [He|Hne]; simpl.
    + repeat split; try done.
      * intros j. by rewrite andb_false_r, andb_true_r.
      * by rewrite andb_false_r, app_nil_r.
    + destruct (isOpen item) eqn:Hopen; simpl.
      * pose proof (close_spec (Z.of_nat i) a) as (H1 & H2 & H3 & H4 & H5).
        repeat split; try done.
        -- intros j. rewrite H4, andb_true_r. f_equal. f_equal.
           destruct (Z.eqb_spec (Z.of_nat j) (Z.of_nat i)); case_bool_decide; (done || lia).
        -- rewrite H5. f_equal. rewrite Nat2Z.id. unfold isPanelOpen. rewrite Hi, Hopen.
           destruct (Z.leb_spec 0 (Z.of_nat i)); [|lia].
           by rewrite !andb_true_r.
      * repeat split; try done.
        -- intros j. case_bool_decide as Hj; simpl; [|by rewrite andb_true_r].
           subst j. unfold isPanelOpen. rewrite Hi, Hopen. done.
        -- by rewrite andb_false_r, app_nil_r.
  - repeat split; try done.
    + intros j. case_bool_decide as Hj; simpl; [|by rewrite andb_true_r].
      subst j. unfold isPanelOpen. rewrite Hi. done.
    + unfold isPanelOpen. rewrite Hi. by rewrite andb_false_r, app_nil_r.
Qed.

Lemma flat_map_agree {A B} (f g : A -> list B) (l : list A) :
  (forall x, x ∈ l -> f x = g x) -> flat_map f l = flat_map g l.
Proof.
  induction l as [|x l IH]; simpl; intros Hfg; [done|].
  rewrite Hfg by apply list_elem_of_here.
  rewrite IH; [done|]. intros y Hy. apply Hfg. by apply list_elem_of_further.
Qed.

Lemma closeOthers_spec (index : Z) (l : list nat) (a : t) :
  NoDup l ->
  allowMultiple (fold_left (closeOther index) l a) = allowMultiple a /\
  onToggle (fold_left (closeOther index) l a) = onToggle a /\
  length (items (fold_left (closeOther index) l a)) = length (items a) /\
  (forall j : nat,
     isPanelOpen j (fold_left (closeOther index) l a) =
     isPanelOpen j a && negb (bool_decide (j ∈ l) && negb (Z.of_nat j =? index))) /\
  calls (fold_left (closeOther index) l a) = calls a ++ flat_map (closingCalls index a) l.
Proof.
  intros Hnd. revert a. induction Hnd as [|i l Hi Hnd IH]; intros a; simpl.
  - repeat split; try done.
    + intros j. by rewrite andb_true_r.
    + by rewrite app_nil_r.
  - destruct (IH (closeOther index a i)) as (I1 & I2 & I3 & I4 & I5).
    destruct (closeOther_spec index a i) as (S1 & S2 & S3 & S4 & S5).
    repeat split; try congruence.
    + intros j. rewrite I4, S4.
      rewrite (bool_decide_ext (j ∈ i :: l) (j = i \/ j ∈ l)) by apply elem_of_cons.
      rewrite bool_decide_or.
      destruct (decide (j = i)) as [->|Hne].
      * rewrite (bool_decide_eq_true_2 (i = i)) by done. simpl.
        by destruct (isPanelOpen i a), (Z.of_nat i =? index), (bool_decide (i ∈ l)).
      * rewrite (bool_decide_eq_false_2 (j = i)) by done. simpl. by rewrite andb_true_r.
    + rewrite I5, S5, <- app_assoc. f_equal. unfold closingCalls at 3. f_equal.
      apply flat_map_agree. intros x Hx. unfold closingCalls. rewrite S2, S4.
      case_bool_decide; [subst; done|]. simpl. by rewrite andb_true_r.
Qed.

(** [open] does nothing on an index out of range or on an open panel. *)
Lemma open_noop (index : Z) (a : t) :
  outOfRange index a = true \/ isPanelOpen (Z.to_nat index) a = true ->
  open index a = a.
Proof.
  unfold open, isPanelOpen. intros [Hout|Hopen].
  - by rewrite Hout.
  - destruct (outOfRange index a); [done|].
    destruct (items a !! Z.to_nat index) as [it|]; [|done]. by rewrite Hopen.
Qed.

(** [open] in single-open mode on a closed panel [B]: afterwards [B] is
    the open panel, and [onToggle] was called for each panel that the loop
    closed and then for [B]. *)
Lemma open_single (B : nat) (a : t) :
  allowMultiple a = false ->
  (B < length (items a))%nat ->
  isPanelOpen B a = false ->
  allowMultiple (open (Z.of_nat B) a) = false /\
  onToggle (open (Z.of_nat B) a) = onToggle a /\
  length (items (open (Z.of_nat B) a)) = length (items a) /\
  (forall j : nat, isPanelOpen j (open (Z.of_nat B) a) = bool_decide (j = B)) /\
  calls (open (Z.of_nat B) a) =
    calls a ++ flat_map (closingCalls (Z.of_nat B) a) (seq 0 (length (items a)))
    ++ (if onToggle a then [(Z.of_nat B, true)] else []).
Proof.
  intros Hsingle HB Hclosed.
  unfold open, outOfRange.
  destruct (Z.ltb_spec (Z.of_nat B) 0); [lia|].
  destruct (Z.leb_spec (Z.of_nat (length (items a))) (Z.of_nat B)); [lia|]. simpl.
  rewrite Nat2Z.id.
  destruct (lookup_lt_is_Some_2 _ _ HB) as [it Hit]. rewrite Hit.
  assert (Hit' : isOpen it = false).
  { unfold isPanelOpen in Hclosed. by rewrite Hit in Hclosed. }
  rewrite Hit', Hsingle. simpl.
  destruct (closeOthers_spec (Z.of_nat B) (seq 0 (length (items a))) a (NoDup_seq _ _))
    as (L1 & L2 & L3 & L4 & L5).
  set (a1 := fold_left (closeOther (Z.of_nat B)) (seq 0 (length (items a))) a) in *.
  pose proof (callback_fields (Z.of_nat B) true
                (setItems a1 (<[B := mkItem true true]> (items a1)))) as (C1 & C2 & C3 & C4).
  rewrite C1, C2, C3, C4. simpl.
  repeat split; try congruence.
  - rewrite length_insert. congruence.
  - intros j. unfold isPanelOpen. rewrite C3. simpl.
    case_bool_decide as Hj.
    + subst j. rewrite list_lookup_insert_eq by lia. done.
    + rewrite list_lookup_insert_ne by done.
      fold (isPanelOpen j a1). rewrite L4.
      destruct (isPanelOpen j a) eqn:Hjo; simpl; [|done].
      apply isPanelOpen_lt in Hjo.
      rewrite bool_decide_eq_true_2 by (apply elem_of_seq; lia).
      destruct (Z.eqb_spec (Z.of_nat j) (Z.of_nat B)); [lia|done].
  - rewrite L5, L2, <- app_assoc. done.
Qed.

Lemma close_single (index : Z) (a : t) : single a -> single (close index a).
Proof.
  intros [Hs Hone]. destruct (close_spec index a) as (H1 & _ & _ & H4 & _).
  split; [congruence|].
  intros i j. rewrite !H4. intros [Hi _]%andb_true_iff [Hj _]%andb_true_iff.
  by apply Hone.
Qed.

Lemma open_keeps_single (index : Z) (a : t) : single a -> single (open index a).
Proof.
  intros [Hs Hone].
  destruct (outOfRange index a) eqn:Hout.
  { rewrite open_noop by auto. by split. }
  destruct (isPanelOpen (Z.to_nat index) a) eqn:Hopen.
  { rewrite open_noop by auto. by split. }
  unfold outOfRange in Hout. apply orb_false_iff in Hout as [H0 Hn].
  apply Z.ltb_ge in H0. apply Z.leb_gt in Hn.
  replace index with (Z.of_nat (Z.to_nat index)) by lia.
  destruct (open_single (Z.to_nat index) a Hs ltac:(lia) Hopen) as (O1 & _ & _ & O4 & _).
  split; [done|].
  intros i j. rewrite !O4. intros Hi%bool_decide_eq_true Hj%bool_decide_eq_true. congruence.
Qed.

Lemma toggle_single (index : Z) (a : t) : single a -> single (toggle index a).
Proof.
  intros Hs. unfold toggle.
  destruct (outOfRange index a); [done|].
  destruct (items a !! Z.to_nat index) as [it|]; [|done].
  destruct (isOpen it); [by apply close_single | by apply open_keeps_single].
Qed.

Lemma fold_keeps_single {A} (f : t -> A -> t) (l : list A) (a : t) :
  (forall a x, single a -> single (f a x)) -> single a -> single (fold_left f l a).
Proof.
  intros Hf. revert a. induction l as [|x l IH]; simpl; intros a Ha; [done|].
  apply IH. by apply Hf.
Qed.

Lemma exec_single (o : op) (a : t) : single a -> single (exec o a).
Proof.
  intros Hs. destruct o; simpl.
  - by apply toggle_single.
  - by apply open_keeps_single.
  - by apply close_single.
  - apply fold_keeps_single; [|done]. intros. by apply open_keeps_single.
  - apply fold_keeps_single; [|done]. intros. by apply close_single.
  - destruct Hs as [Hs _]. split; [done|]. intros i j Hi. by destruct i.
Qed.

Lemma open_allowMultiple (index : Z) (a : t) :
  allowMultiple (open index a) = allowMultiple a.
Proof.
  unfold open.
  destruct (outOfRange index a); [done|].
  destruct (items a !! Z.to_nat index) as [it|]; [|done].
  destruct (isOpen it); [done|].
  match goal with
  | |- allowMultiple (callback ?x ?y ?z) = _ =>
      destruct (callback_fields x y z) as (-> & _)
  end. simpl.
  destruct (allowMultiple a) eqn:Hm; simpl; [done|].
  destruct (closeOthers_spec index (seq 0 (length (items a))) a (NoDup_seq _ _)) as (-> & _).
  done.
Qed.

Lemma fold_allowMultiple {A} (f : t -> A -> t) (l : list A) (a : t) :
  (forall a x, allowMultiple (f a x) = allowMultiple a) ->
  allowMultiple (fold_left f l a) = allowMultiple a.
Proof.
  intros Hf. revert a. induction l as [|x l IH]; simpl; intros a; [done|].
  rewrite IH. apply Hf.
Qed.

Lemma exec_allowMultiple (o : op) (a : t) :
  allowMultiple (exec o a) = allowMultiple a.
Proof.
  destruct o; simpl; try done.
  - unfold toggle. destruct (outOfRange index a); [done|].
    destruct (items a !! Z.to_nat index) as [it|]; [|done].
    destruct (isOpen it); [apply close_spec | apply open_allowMultiple].
  - apply open_allowMultiple.
  - apply close_spec.
  - apply fold_allowMultiple. intros. apply open_allowMultiple.
  - apply fold_allowMultiple. intros. apply close_spec.
Qed.

Lemma new_allowMultiple (m o : bool) (d : list Z) (n : nat) :
  allowMultiple (new m o d n) = m.
Proof.
  unfold new. rewrite fold_allowMultiple; [done|].
  intros a x. destruct (_ && _); [apply open_allowMultiple | done].
Qed.

Lemma new_single (onToggle : bool) (defaultOpen : list Z) (panels : nat) :
  single (new false onToggle defaultOpen panels).
Proof.
  unfold new. apply fold_keeps_single.
  - intros a x Ha. destruct (_ && _); [by apply open_keeps_single | done].
  - split; [done|]. intros i j Hi. unfold isPanelOpen in Hi. simpl in Hi.
    destruct (replicate panels (mkItem false false) !! i) as [it|] eqn:Hit; [|done].
    apply lookup_replicate in Hit as [-> _]. done.
Qed.

Lemma reachable_single (a : t) :
  reachable a -> allowMultiple a = false -> single a.
Proof.
  induction 1 as [m o d n | o a Hr IH]; intros Hm.
  - rewrite new_allowMultiple in Hm. subst m. apply new_single.
  - apply exec_single, IH. by rewrite exec_allowMultiple in Hm.
Qed.

(** The number of open panels that [getOpenPanels] lists. *)
Lemma getOpenPanels_length (a : t) :
  length (getOpenPanels a) = length (List.filter isOpen (items a)).
Proof.
  unfold getOpenPanels.
  assert (Hgen : forall (l : list item) (k : nat),
             length (List.filter (fun index => negb (index =? -1))
                       (imap (fun index item =>
                                if isOpen item then Z.of_nat (k + index) else -1) l))
             = length (List.filter isOpen l)).
  { induction l as [|it l IH]; intros k; [done|].
    rewrite imap_cons.
    rewrite (imap_ext _ (fun index item => if isOpen item then Z.of_nat (S k + index) else -1))
      by (intros; simpl; destruct (isOpen _); [f_equal; lia | done]).
    cbn [List.filter].
    destruct (isOpen it); simpl.
    - destruct (Z.eqb_spec (Z.of_nat (k + 0)) (-1)); [lia|]. simpl. f_equal. apply (IH (S k)).
    - apply (IH (S k)). }
  apply (Hgen (items a) 0%nat).
Qed.

Lemma atMostOne_count (a : t) :
  atMostOne a -> (length (List.filter isOpen (items a)) <= 1)%nat.
Proof.
  unfold atMostOne, isPanelOpen. generalize (items a) as l.
  induction l as [|it l IH]; intros Hone; simpl; [lia|].
  destruct (isOpen it) eqn:Hit.
  - assert (Hnil : List.filter isOpen l = []).
    { destruct (List.filter isOpen l) as [|x l'] eqn:Hf; [done|].
      assert (Hx : In x (List.filter isOpen l)) by (rewrite Hf; by left).
      apply filter_In in Hx as [Hin Hopen].
      apply list_elem_of_In, list_elem_of_lookup in Hin as [j Hj].
      specialize (Hone 0%nat (S j)). simpl in Hone. rewrite Hj, Hopen, Hit in Hone.
      by specialize (Hone eq_refl eq_refl). }
    rewrite Hnil. simpl. lia.
  - apply IH. intros i j Hi Hj. specialize (Hone (S i) (S j) Hi Hj). lia.
Qed.

Lemma flat_map_none {A B} (f : A -> list B) (l : list A) :
  (forall x, x ∈ l -> f x = []) -> flat_map f l = [].
Proof.
  induction l as [|x l IH]; simpl; intros Hf; [done|].
  rewrite Hf by apply list_elem_of_here. simpl.
  apply IH. intros y Hy. apply Hf. by apply list_elem_of_further.
Qed.

Lemma flat_map_only {B} (f : nat -> list B) (l : list nat) (k : nat) (out : list B) :
  NoDup l -> k ∈ l ->
  (forall i, i ∈ l -> f i = if bool_decide (i = k) then out else []) ->
  flat_map f l = out.
Proof.
  induction 1 as [|i l Hi Hnd IH]; intros Hk Hf.
  - by apply elem_of_nil in Hk.
  - simpl. rewrite (Hf i) by apply list_elem_of_here.
    case_bool_decide as Hik.
    + subst i. rewrite flat_map_none; [by rewrite app_nil_r|].
      intros x Hx. rewrite Hf by (by apply list_elem_of_further).
      case_bool_decide; [subst; done | done].
    + simpl. apply IH.
      * apply elem_of_cons in Hk as [->|Hk]; done.
      * intros x Hx. apply Hf. by apply list_elem_of_further.
Qed.

(** C8.  In single-open mode at most one panel is open in every state the
    accordion reaches.  When panel [A] is open and [open] is called on
    another panel [B], afterwards [A] is closed and [B] is the one open
    panel, and [onToggle] has been called exactly twice: first with
    [(A, false)], then with [(B, true)]. *)
Theorem single_open_mode :
  (forall a : t,
     reachable a -> allowMultiple a = false ->
     (forall i j : nat, isPanelOpen i a = true -> isPanelOpen j a = true -> i = j) /\
     (length (getOpenPanels a) <= 1)%nat)
  /\
  (forall (a : t) (A B : nat),
     reachable a -> allowMultiple a = false -> onToggle a = true ->
     isPanelOpen A a = true -> A <> B -> (B < length (items a))%nat ->
     let a' := open (Z.of_nat B) a in
     isPanelOpen A a' = false /\
     (forall j : nat, isPanelOpen j a' = bool_decide (j = B)) /\
     calls a' = calls a ++ [(Z.of_nat A, false); (Z.of_nat B, true)]).
Proof.
  split.
  - intros a Hr Hm. destruct (reachable_single a Hr Hm) as [_ Hone].
    split; [exact Hone|].
    rewrite getOpenPanels_length. by apply atMostOne_count.
  - intros a A B Hr Hm Hcb HA HAB HB a'.
    destruct (reachable_single a Hr Hm) as [_ Hone].
    assert (HBc : isPanelOpen B a = false).
    { destruct (isPanelOpen B a) eqn:HBo; [|done]. by specialize (Hone A B HA HBo). }
    destruct (open_single B a Hm HB HBc) as (_ & _ & _ & O4 & O5).
    subst a'. repeat split.
    + rewrite O4. by apply bool_decide_eq_false_2.
    + exact O4.
    + rewrite O5, Hcb. f_equal.
      rewrite (flat_map_only _ _ A [(Z.of_nat A, false)]); [done | apply NoDup_seq | |].
      * apply elem_of_seq. apply isPanelOpen_lt in HA. lia.
      * intros i _. unfold closingCalls. rewrite Hcb. simpl.
        case_bool_decide as HiA.
        -- subst i. rewrite HA. simpl.
           destruct (Z.eqb_spec (Z.of_nat A) (Z.of_nat B)); [lia | done].
        -- destruct (isPanelOpen i a) eqn:Hio; [|done].
           by specialize (Hone i A Hio HA).
Qed.

(** Three panels, panel 0 opened by a click, then panel 2 opened. *)
Lemma single_open_mode_witness :
  let a := exec (Toggle 0) (new false true [] 3) in
  ((forall i j : nat, isPanelOpen i a = true -> isPanelOpen j a = true -> i = j) /\
   (length (getOpenPanels a) <= 1)%nat)
  /\
  (let a' := open (Z.of_nat 2) a in
   isPanelOpen 0 a' = false /\
   (forall j : nat, isPanelOpen j a' = bool_decide (j = 2%nat)) /\
   calls a' = calls a ++ [(Z.of_nat 0, false); (Z.of_nat 2, true)]).
Proof.
  intros a.
  assert (Hr : reachable a) by (apply reachable_exec, reachable_new).
  split.
  - apply (proj1 single_open_mode a Hr). reflexivity.
  - apply (proj2 single_open_mode a 0%nat 2%nat Hr); try reflexivity.
    + lia.
    + vm_compute. lia.
Defined.

End AccordionFacts.

(** ** PropertyFilter *)

Section PropertyFilterFacts.
Import PropertyFilter.
Context `{Platform}.

Lemma updateResultsCount_filtered (pf : t) :
  filteredProperties (updateResultsCount pf) = filteredProperties pf /\
  container (updateResultsCount pf) = container pf.
Proof. unfold updateResultsCount. by destruct (filterBar pf). Qed.

Lemma render_filtered (pf : t) :
  filteredProperties (render pf) = filteredProperties pf.
Proof.
  unfold render. destruct (container pf); [|done].
  by destruct (_ =? _)%nat.
Qed.

(** [applyFilters] stores the properties that pass, in the order of
    [allProperties]. *)
Lemma applyFilters_filtered (pf : t) :
  filteredProperties (applyFilters pf) =
  List.filter (passes (filters pf)) (allProperties pf).
Proof.
  unfold applyFilters.
  rewrite (proj1 (updateResultsCount_filtered _)), render_filtered. done.
Qed.

(** The loop of [render] builds the cards of the properties in order. *)
Lemma appendCards_imap (l : list Property.t) (children : list node) (k : nat) :
  fold_left
    (fun '(children, index) prop =>
       (children ++ [Card (createPropertyCard prop index)], S index))
    l (children, k)
  = (children ++ imap (fun index prop => Card (createPropertyCard prop (k + index))) l,
     (k + length l)%nat).
Proof.
  revert children k. induction l as [|prop l IH]; intros children k; simpl.
  - by rewrite app_nil_r, Nat.add_0_r.
  - rewrite IH. rewrite <- app_assoc. simpl. rewrite Nat.add_0_r.
    f_equal; [|lia]. f_equal. f_equal.
    apply imap_ext. intros i x _. simpl. f_equal. f_equal. lia.
Qed.

Lemma render_container (pf : t) (children : list node) :
  container pf = Some children ->
  container (render pf) =
  Some (match filteredProperties pf with
        | [] => [NoResults]
        | _ :: _ =>
            imap (fun index prop => Card (createPropertyCard prop index))
              (filteredProperties pf)
        end).
Proof.
  intros Hc. unfold render. rewrite Hc.
  destruct (filteredProperties pf) as [|p l] eqn:Hf; [done|].
  cbn [length Nat.eqb setContainer container].
  rewrite appendCards_imap. done.
Qed.

(** The tag test is the last one and stands apart from the others. *)
Lemma passes_tags (f : Filters.t) (prop : Property.t) :
  passes f prop =
  passes (Filters.setTags f []) prop
  && forallb (Array_includes (default [] (Property.tags prop))) (Filters.tags f).
Proof.
  unfold passes. simpl.
  repeat match goal with
         | |- context [if ?c then false else _] =>
             lazymatch c with
             | negb (forallb _ _) => fail
             | (0 <? _)%nat => fail
             | _ => destruct c; [done|]
             end
         end.
  destruct (Filters.tags f) as [|tag tags]; [done|].
  cbn [length Nat.ltb Nat.leb]. simpl.
  by destruct (_ && _).
Qed.

Lemma filter_length_mono {A} (f g : A -> bool) (l : list A) :
  (forall x, f x = true -> g x = true) ->
  (length (List.filter f l) <= length (List.filter g l))%nat.
Proof.
  intros Hfg. induction l as [|x l IH]; simpl; [lia|].
  destruct (f x) eqn:Hf.
  - rewrite (Hfg x Hf). simpl. lia.
  - destruct (g x); simpl; lia.
Qed.

Lemma filter_keeps_order {A} (f : A -> bool) (l : list A) (i j : nat) (a b : A) :
  (i < j)%nat -> l !! i = Some a -> l !! j = Some b -> f a = true -> f b = true ->
  exists i' j' : nat,
    (i' < j')%nat /\ List.filter f l !! i' = Some a /\ List.filter f l !! j' = Some b.
Proof.
  intros Hij Hi Hj Ha Hb.
  pose proof (take_drop_middle l i a Hi) as Hl.
  assert (Hj' : drop (S i) l !! (j - S i)%nat = Some b).
  { rewrite lookup_drop. rewrite <- Hj. f_equal. lia. }
  pose proof (take_drop_middle _ _ b Hj') as Hl'.
  rewrite <- Hl' in Hl. rewrite <- Hl.
  rewrite List.filter_app. cbn [List.filter]. rewrite Ha.
  rewrite List.filter_app. cbn [List.filter]. rewrite Hb.
  set (l1 := List.filter f (take i l)).
  set (l2 := List.filter f (take (j - S i) (drop (S i) l))).
  exists (length l1), (length l1 + S (length l2))%nat.
  split; [lia|]. split.
  - rewrite lookup_app_r by lia. by rewrite Nat.sub_diag.
  - rewrite lookup_app_r by lia.
    replace (length l1 + S (length l2) - length l1)%nat with (S (length l2)) by lia.
    simpl. rewrite lookup_app_r by lia. by rewrite Nat.sub_diag.
Qed.

(** C3.  With the default criteria (no bedroom, bathroom or price bound,
    empty property type and search, no selected tag) [applyFilters] leaves
    every property of [allProperties] in [filteredProperties]. *)
Theorem empty_criteria_matches_all (pf : t) :
  filters pf = Filters.mk None None [] [] None None [] ->
  filteredProperties (applyFilters pf) = allProperties pf.
Proof.
  intros Hf. rewrite applyFilters_filtered, Hf.
  induction (allProperties pf) as [|prop l IH]; [done|].
  cbn [List.filter].
  replace (passes (Filters.mk None None [] [] None None []) prop) with true by reflexivity.
  by rewrite IH.
Qed.

(** C4.  A property passes all the tests of [applyFilters] exactly when it
    passes them with no tag selected and its tags contain every selected
    tag.  Selecting one more tag never makes the filtered list longer. *)
Theorem tag_filter_is_conjunctive :
  (forall (f : Filters.t) (prop : Property.t),
     passes f prop = true <->
     passes (Filters.setTags f []) prop = true /\
     forall tag : jsstring,
       tag ∈ Filters.tags f -> tag ∈ default [] (Property.tags prop))
  /\
  (forall (pf : t) (tag : jsstring),
     let selected := Filters.setTags (filters pf) (Filters.tags (filters pf) ++ [tag]) in
     (length (filteredProperties (applyFilters (setFilters_ pf selected)))
      <= length (filteredProperties (applyFilters pf)))%nat).
Proof.
  assert (Hiff : forall (f : Filters.t) (prop : Property.t),
             passes f prop = true <->
             passes (Filters.setTags f []) prop = true /\
             forall tag : jsstring,
               tag ∈ Filters.tags f -> tag ∈ default [] (Property.tags prop)).
  { intros f prop. rewrite passes_tags, andb_true_iff, forallb_forall.
    split; intros [Ho Ht]; (split; [done|]); intros tag Htag.
    - apply list_elem_of_In, Ht in Htag. unfold Array_includes in Htag.
      by apply bool_decide_eq_true in Htag.
    - unfold Array_includes. apply bool_decide_eq_true, Ht. by apply list_elem_of_In. }
  split; [exact Hiff|].
  intros pf tag selected. rewrite !applyFilters_filtered. simpl.
  apply filter_length_mono. intros prop.
  intros Hp. apply Hiff in Hp as [Ho Ht]. apply Hiff. subst selected. simpl in *.
  split; [done|].
  intros tag' Htag'. apply Ht. apply elem_of_app. by left.
Qed.

(** C5.  [applyFilters] keeps the order of [allProperties]: two
    properties that pass stand in [filteredProperties] in the order they
    had.  When the filter is mounted, [render] leaves in the container one
    card per filtered property, the card at each position built from the
    property at that position (or the placeholder when none passes). *)
Theorem filtering_preserves_order (pf : t) :
  (forall (i j : nat) (a b : Property.t),
     (i < j)%nat ->
     allProperties pf !! i = Some a -> allProperties pf !! j = Some b ->
     passes (filters pf) a = true -> passes (filters pf) b = true ->
     exists i' j' : nat,
       (i' < j')%nat /\
       filteredProperties (applyFilters pf) !! i' = Some a /\
       filteredProperties (applyFilters pf) !! j' = Some b)
  /\
  (forall children : list node,
     container pf = Some children ->
     container (applyFilters pf) =
     Some (match filteredProperties (applyFilters pf) with
           | [] => [NoResults]
           | _ :: _ =>
               imap (fun index prop => Card (createPropertyCard prop index))
                 (filteredProperties (applyFilters pf))
           end)).
Proof.
  split.
  - intros i j a b Hij Hi Hj Ha Hb. rewrite applyFilters_filtered.
    by apply (filter_keeps_order _ _ i j).
  - intros children Hc. rewrite applyFilters_filtered.
    unfold applyFilters. rewrite (proj2 (updateResultsCount_filtered _)).
    by rewrite (render_container _ children).
Qed.

End PropertyFilterFacts.

Lemma empty_criteria_matches_all_witness :
  PropertyFilter.filteredProperties (@PropertyFilter.applyFilters asciiPlatform Samples.page)
  = Samples.listing.
Proof.
  apply (@empty_criteria_matches_all asciiPlatform Samples.page). reflexivity.
Defined.

Lemma tag_filter_is_conjunctive_witness :
  @PropertyFilter.passes asciiPlatform
    (PropertyFilter.Filters.mk (Some (Num 3)) None [str "Pet Friendly"] [] None None [])
    Samples.oakHouse = true.
Proof.
  apply (proj1 (@tag_filter_is_conjunctive asciiPlatform)). split.
  - reflexivity.
  - intros tag Htag. simpl in *. apply list_elem_of_singleton in Htag. subst tag.
    apply list_elem_of_here.
Defined.

Lemma filtering_preserves_order_witness :
  exists i' j' : nat,
    (i' < j')%nat /\
    PropertyFilter.filteredProperties
      (@PropertyFilter.applyFilters asciiPlatform Samples.page) !! i' = Some Samples.oakHouse /\
    PropertyFilter.filteredProperties
      (@PropertyFilter.applyFilters asciiPlatform Samples.page) !! j' = Some Samples.elmLodge.
Proof.
  apply (proj1 (@filtering_preserves_order asciiPlatform Samples.page) 0%nat 2%nat);
    (reflexivity || lia).
Defined.

(** ** Regular expressions: the matcher decides the language *)

Section RegexFacts.
Import Regex.

Lemma Matches_Void (w : jsstring) : Matches Void w <-> False.
Proof. split; [inversion 1 | done]. Qed.

Lemma Matches_Eps (w : jsstring) : Matches Eps w <-> w = [].
Proof. split; [by inversion 1 | intros ->; constructor]. Qed.

Lemma Matches_Class (p : N -> bool) (w : jsstring) :
  Matches (Class p) w <-> exists c, w = [c] /\ p c = true.
Proof.
  split.
  - inversion 1; subst. eauto.
  - intros (c & -> & Hc). by constructor.
Qed.

Lemma Matches_Cat (r s : Regex.t) (w : jsstring) :
  Matches (Cat r s) w <-> exists u v, w = u ++ v /\ Matches r u /\ Matches s v.
Proof.
  split.
  - inversion 1; subst. eauto.
  - intros (u & v & -> & Hu & Hv). by constructor.
Qed.

Lemma Matches_Alt (r s : Regex.t) (w : jsstring) :
  Matches (Alt r s) w <-> Matches r w \/ Matches s w.
Proof.
  split.
  - inversion 1; subst; auto.
  - intros [Hr|Hs]; [by apply MAltL | by apply MAltR].
Qed.

Lemma nullable_Matches (r : Regex.t) : nullable r = true <-> Matches r [].
Proof.
  induction r as [| |p|r IHr s IHs|r IHr s IHs|r IHr]; simpl.
  - by rewrite Matches_Void.
  - by rewrite Matches_Eps.
  - rewrite Matches_Class. split; [done | by intros (c & ? & _)].
  - rewrite andb_true_iff, IHr, IHs, Matches_Cat. split.
    + intros [Hr Hs]. by exists [], [].
    + intros (u & v & Huv & Hu & Hv). symmetry in Huv.
      apply app_eq_nil in Huv as [-> ->]. done.
  - by rewrite orb_true_iff, IHr, IHs, Matches_Alt.
  - split; [constructor | done].
Qed.

(** A non-empty string of [Star r] starts with a non-empty string of [r]. *)
Lemma Matches_Star_cons (r : Regex.t) (c : N) (s : jsstring) :
  Matches (Star r) (c :: s) ->
  exists u v, s = u ++ v /\ Matches r (c :: u) /\ Matches (Star r) v.
Proof.
  intros Hm. remember (Star r) as e eqn:He. remember (c :: s) as w eqn:Hw.
  revert c s Hw.
  induction Hm as [| | | | | |r' u v Hu _ Hv IHv]; try done.
  injection He as ->. intros c s Hw.
  destruct u as [|c' u].
  - simpl in Hw. by apply IHv.
  - injection Hw as -> <-. by exists u, v.
Qed.

Lemma deriv_Matches (r : Regex.t) (c : N) (s : jsstring) :
  Matches (deriv c r) s <-> Matches r (c :: s).
Proof.
  revert s. induction r as [| |p|r IHr r' IHr'|r IHr r' IHr'|r IHr]; intros s; simpl.
  - by rewrite !Matches_Void.
  - rewrite Matches_Void, Matches_Eps. done.
  - rewrite Matches_Class. destruct (p c) eqn:Hp.
    + rewrite Matches_Eps. split.
      * intros ->. eauto.
      * intros (c' & Hc' & _). by injection Hc'.
    + rewrite Matches_Void. split; [done|].
      intros (c' & Hc' & Hp'). injection Hc' as -> _. congruence.
  - assert (Hcat : Matches (Cat (deriv c r) r') s <->
                   exists u v, s = u ++ v /\ Matches r (c :: u) /\ Matches r' v).
    { rewrite Matches_Cat. by setoid_rewrite IHr. }
    assert (Hgoal : Matches (Cat r r') (c :: s) <->
                    (Matches r [] /\ Matches r' (c :: s)) \/
                    exists u v, s = u ++ v /\ Matches r (c :: u) /\ Matches r' v).
    { rewrite Matches_Cat. split.
      - intros (u & v & Huv & Hu & Hv). destruct u as [|c' u]; simpl in Huv.
        + subst v. by left.
        + injection Huv as -> ->. right. by exists u, v.
      - intros [[Hr Hr']|(u & v & -> & Hu & Hv)].
        + by exists [], (c :: s).
        + by exists (c :: u), v. }
    rewrite Hgoal. destruct (nullable r) eqn:Hn.
    + rewrite Matches_Alt, Hcat, IHr'. apply nullable_Matches in Hn. tauto.
    + rewrite Hcat. split; [auto|]. intros [[Hr _]|Hex]; [|done].
      apply nullable_Matches in Hr. congruence.
  - by rewrite !Matches_Alt, IHr, IHr'.
  - rewrite Matches_Cat. setoid_rewrite IHr. split.
    + intros (u & v & -> & Hu & Hv). by apply (MStarCons r (c :: u) v).
    + apply Matches_Star_cons.
Qed.

(** [test] decides membership in the language. *)
Lemma test_Matches (r : Regex.t) (s : jsstring) : test r s = true <-> Matches r s.
Proof.
  revert r. induction s as [|c s IH]; intros r; simpl.
  - apply nullable_Matches.
  - rewrite IH. apply deriv_Matches.
Qed.

Lemma Matches_Chr (c : N) (w : jsstring) : Matches (Chr c) w <-> w = [c].
Proof.
  unfold Chr. rewrite Matches_Class. split.
  - intros (c' & -> & Hc%N.eqb_eq). by subst.
  - intros ->. exists c. by rewrite N.eqb_refl.
Qed.

Lemma Matches_Opt (r : Regex.t) (w : jsstring) :
  Matches (Opt r) w <-> w = [] \/ Matches r w.
Proof. unfold Opt. rewrite Matches_Alt, Matches_Eps. tauto. Qed.

Lemma Matches_Star_Class (p : N -> bool) (w : jsstring) :
  Matches (Star (Class p)) w <-> forallb p w = true.
Proof.
  split.
  - intros Hm. remember (Star (Class p)) as e eqn:He.
    induction Hm as [| | | | | |r u v Hu _ Hv IHv]; try done.
    injection He as ->. apply Matches_Class in Hu as (c & -> & Hc).
    simpl. rewrite Hc. by apply IHv.
  - induction w as [|c w IH]; simpl; [constructor|].
    intros [Hc Hw]%andb_true_iff.
    apply (MStarCons _ [c] w); [by constructor | by apply IH].
Qed.

Lemma Matches_Plus_Class (p : N -> bool) (w : jsstring) :
  Matches (Plus (Class p)) w <-> w <> [] /\ forallb p w = true.
Proof.
  unfold Plus. rewrite Matches_Cat. split.
  - intros (u & v & -> & (c & -> & Hc)%Matches_Class & Hv%Matches_Star_Class).
    simpl. by rewrite Hc.
  - intros [Hne Hall]. destruct w as [|c w]; [done|].
    simpl in Hall. apply andb_true_iff in Hall as [Hc Hw].
    exists [c], w. split; [done|]. split; [by constructor | by apply Matches_Star_Class].
Qed.

Lemma Matches_Rep_Class (n : nat) (p : N -> bool) (w : jsstring) :
  Matches (Rep n (Class p)) w <-> length w = n /\ forallb p w = true.
Proof.
  revert w. induction n as [|n IH]; intros w; simpl.
  - rewrite Matches_Eps. split.
    + by intros ->.
    + intros [Hl _]. by destruct w.
  - rewrite Matches_Cat. split.
    + intros (u & v & -> & (c & -> & Hc)%Matches_Class & [Hl Hv]%IH).
      simpl. by rewrite Hc, Hl.
    + intros [Hl Hall]. destruct w as [|c w]; [done|].
      simpl in *. apply andb_true_iff in Hall as [Hc Hw].
      exists [c], w. split; [done|]. split; [by constructor|]. apply IH. split; [lia | done].
Qed.

End RegexFacts.

(** ** FormValidator: the built-in validators *)

Section ValidatorFacts.
Import Regex FormValidator.

Lemma forallb_elem_of {A} (p : A -> bool) (l : list A) :
  forallb p l = true <-> forall x, x ∈ l -> p x = true.
Proof.
  rewrite forallb_forall. split; intros Hp x Hx; apply Hp; by apply list_elem_of_In.
Qed.

Lemma isDigit_range (c : N) : isDigit c = true <-> (48 <= c <= 57)%N.
Proof. unfold isDigit. rewrite andb_true_iff, !N.leb_le. done. Qed.

Lemma digits_Matches (n : nat) (s : jsstring) :
  Matches (Rep n (Class isDigit)) s <-> Shapes.digits n s.
Proof.
  rewrite Matches_Rep_Class. unfold Shapes.digits. rewrite forallb_elem_of.
  by setoid_rewrite isDigit_range.
Qed.

Lemma notSpaceNorAt_spec (c : N) :
  patterns.notSpaceNorAt c = true <-> isWhiteSpace c = false /\ c <> 64%N.
Proof.
  unfold patterns.notSpaceNorAt.
  rewrite negb_true_iff, orb_false_iff, N.eqb_neq. done.
Qed.

Lemma atom_Matches (s : jsstring) :
  Matches (Plus (Class patterns.notSpaceNorAt)) s <-> Shapes.atom s.
Proof.
  rewrite Matches_Plus_Class. unfold Shapes.atom. rewrite forallb_elem_of.
  by setoid_rewrite notSpaceNorAt_spec.
Qed.

Lemma optional_Matches (p : N -> bool) (P : N -> Prop) (s : jsstring) :
  (forall c, p c = true <-> P c) ->
  Matches (Opt (Class p)) s <-> Shapes.optional P s.
Proof.
  intros HpP. rewrite Matches_Opt, Matches_Class. unfold Shapes.optional.
  by setoid_rewrite HpP.
Qed.

Lemma optional_Chr (k : N) (s : jsstring) :
  Matches (Opt (Chr k)) s <-> Shapes.optional (eq k) s.
Proof. apply optional_Matches. intros c. apply N.eqb_eq. Qed.

Lemma optional_separator (s : jsstring) :
  Matches (Opt (Class patterns.separator)) s <-> Shapes.optional Shapes.separator s.
Proof.
  apply optional_Matches. intros c. unfold patterns.separator, Shapes.separator.
  rewrite !orb_true_iff, !N.eqb_eq. tauto.
Qed.

(** The language of each literal is the shape the specification gives. *)
Lemma email_pattern (v : jsstring) : Matches patterns.email v <-> Shapes.email v.
Proof.
  unfold patterns.email, Shapes.email. split.
  - intros (local & r1 & -> & Hl%atom_Matches & H1)%Matches_Cat.
    apply Matches_Cat in H1 as (at_ & r2 & -> & ->%Matches_Chr & H2).
    apply Matches_Cat in H2 as (domain & r3 & -> & Hd%atom_Matches & H3).
    apply Matches_Cat in H3 as (dot & tld & -> & ->%Matches_Chr & Ht%atom_Matches).
    by exists local, domain, tld.
  - intros (local & domain & tld & -> & Hl & Hd & Ht).
    apply MCat; [by apply atom_Matches|].
    apply MCat; [by apply Matches_Chr|].
    apply MCat; [by apply atom_Matches|].
    apply MCat; [by apply Matches_Chr | by apply atom_Matches].
Qed.

Lemma zip_pattern (v : jsstring) : Matches patterns.zip v <-> Shapes.zip v.
Proof.
  unfold patterns.zip, Shapes.zip. split.
  - intros (five & r1 & -> & H5%digits_Matches & H1)%Matches_Cat.
    apply Matches_Opt in H1 as [->|H1].
    + left. by rewrite app_nil_r.
    + apply Matches_Cat in H1 as (dash & four & -> & ->%Matches_Chr & H4%digits_Matches).
      right. by exists five, four.
  - intros [H5|(five & four & -> & H5 & H4)].
    + rewrite <- (app_nil_r v). apply MCat; [by apply digits_Matches|].
      apply Matches_Opt. by left.
    + apply MCat; [by apply digits_Matches|].
      apply Matches_Opt. right.
      apply MCat; [by apply Matches_Chr | by apply digits_Matches].
Qed.

Lemma phone_pattern (v : jsstring) : Matches patterns.phone v <-> Shapes.phone v.
Proof.
  unfold patterns.phone, Shapes.phone. split.
  - intros (lp & r1 & -> & Hlp%optional_Chr & H1)%Matches_Cat.
    apply Matches_Cat in H1 as (area & r2 & -> & Ha%digits_Matches & H2).
    apply Matches_Cat in H2 as (rp & r3 & -> & Hrp%optional_Chr & H3).
    apply Matches_Cat in H3 as (s1 & r4 & -> & Hs1%optional_separator & H4).
    apply Matches_Cat in H4 as (ex & r5 & -> & He%digits_Matches & H5).
    apply Matches_Cat in H5 as (s2 & line & -> & Hs2%optional_separator & Hl%digits_Matches).
    by exists lp, area, rp, s1, ex, s2, line.
  - intros (lp & area & rp & s1 & ex & s2 & line & -> & Hlp & Ha & Hrp & Hs1 & He & Hs2 & Hl).
    apply MCat; [by apply optional_Chr|].
    apply MCat; [by apply digits_Matches|].
    apply MCat; [by apply optional_Chr|].
    apply MCat; [by apply optional_separator|].
    apply MCat; [by apply digits_Matches|].
    apply MCat; [by apply optional_separator | by apply digits_Matches].
Qed.

(** [trim] leaves nothing exactly of the strings of white space. *)
Lemma trimStart_nil (s : jsstring) : trimStart s = [] <-> forallb isWhiteSpace s = true.
Proof.
  induction s as [|c s IH]; simpl; [done|].
  destruct (isWhiteSpace c); simpl; [done|]. split; done.
Qed.

Lemma trimStart_all_space (s : jsstring) :
  forallb isWhiteSpace (trimStart s) = forallb isWhiteSpace s.
Proof.
  induction s as [|c s IH]; simpl; [done|].
  destruct (isWhiteSpace c) eqn:Hc; simpl; [done|]. by rewrite Hc.
Qed.

Lemma forallb_rev {A} (p : A -> bool) (l : list A) : forallb p (rev l) = forallb p l.
Proof.
  induction l as [|x l IH]; simpl; [done|].
  rewrite forallb_app, IH. simpl. rewrite andb_true_r. apply andb_comm.
Qed.

Lemma trim_nil (s : jsstring) : trim s = [] <-> forallb isWhiteSpace s = true.
Proof.
  unfold trim, trimEnd.
  rewrite <- (trimStart_all_space s), <- (forallb_rev _ (trimStart s)), <- trimStart_nil.
  split.
  - intros Hr. apply (f_equal (@rev N)) in Hr. by rewrite rev_involutive in Hr.
  - by intros ->.
Qed.

Lemma required_accepts (form : list Field.t) (param : option jsstring) (v : jsstring) :
  valid (validators.required form v param) = true <-> trim v <> [].
Proof.
  simpl. rewrite Nat.ltb_lt. destruct (trim v); simpl; split; (done || lia).
Qed.

(** C7.  The built-in validators are functions of the value alone.
    [required] accepts exactly the strings that [trim] does not empty;
    [email], [zip] and [phone] accept exactly the strings of the shape of
    their pattern.  ["a@b.co"] is a valid e-mail address and ["bad"] is
    not, ["75701"] is a valid ZIP code and ["757"] is not, and
    ["903-555-1234"] is a valid phone number. *)
Theorem builtin_validators_semantics :
  (forall (form : list Field.t) (param : option jsstring) (v : jsstring),
     valid (validators.required form v param) = true <-> trim v <> [])
  /\
  (forall (form : list Field.t) (param : option jsstring) (v : jsstring),
     valid (validators.email form v param) = true <-> Shapes.email v)
  /\
  (forall (form : list Field.t) (param : option jsstring) (v : jsstring),
     valid (validators.zip form v param) = true <-> Shapes.zip v)
  /\
  (forall (form : list Field.t) (param : option jsstring) (v : jsstring),
     valid (validators.phone form v param) = true <-> Shapes.phone v)
  /\
  valid (validators.email [] (str "a@b.co") None) = true /\
  valid (validators.email [] (str "bad") None) = false /\
  valid (validators.zip [] (str "75701") None) = true /\
  valid (validators.zip [] (str "757") None) = false /\
  valid (validators.phone [] (str "903-555-1234") None) = true.
Proof.
  split; [exact required_accepts|].
  split; [intros form param v; simpl; by rewrite test_Matches, email_pattern|].
  split; [intros form param v; simpl; by rewrite test_Matches, zip_pattern|].
  split; [intros form param v; simpl; by rewrite test_Matches, phone_pattern|].
  repeat split; vm_compute; reflexivity.
Qed.

(** The accepted address ["a@b.co"] has the shape of an e-mail address. *)
Lemma builtin_validators_semantics_witness : Shapes.email (str "a@b.co").
Proof.
  apply (proj1 (proj2 builtin_validators_semantics) [] None (str "a@b.co")).
  vm_compute. reflexivity.
Defined.

End ValidatorFacts.

(** ** The document: what an update keeps *)

Section DomFacts.
Import Dom.

Lemma attributesOf_update (r r' : nat) (f : attributes -> attributes) (d : Dom.t) :
  attributesOf r (update r' f d) =
  if decide (r = r') then f (attributesOf r d) else attributesOf r d.
Proof.
  unfold attributesOf, update. cbn [attrs].
  destruct (decide (r = r')) as [->|Hne].
  - by rewrite lookup_insert_eq.
  - by rewrite lookup_insert_ne.
Qed.

Lemma attributesOf_update_same (r : nat) (f : attributes -> attributes) (d : Dom.t) :
  attributesOf r (update r f d) = f (attributesOf r d).
Proof. rewrite attributesOf_update. by destruct (decide (r = r)). Qed.

(** An update that keeps a part of the attributes of every element
    keeps that part of the document. *)
Lemma update_keeps {A} (part : attributes -> A) (r r' : nat)
    (f : attributes -> attributes) (d : Dom.t) :
  (forall a, part (f a) = part a) ->
  part (attributesOf r (update r' f d)) = part (attributesOf r d).
Proof.
  intros Hf. rewrite attributesOf_update. by destruct (decide (r = r')).
Qed.

Lemma elem_of_List_filter {A} (p : A -> bool) (l : list A) (x : A) :
  x ∈ List.filter p l <-> x ∈ l /\ p x = true.
Proof. rewrite !list_elem_of_In. rewrite filter_In. tauto. Qed.

Lemma remove_out (token : jsstring) (tokens : list jsstring) (a : attributes) :
  token ∉ tokens ->
  bool_decide (token ∈ classList (remove tokens a)) = bool_decide (token ∈ classList a).
Proof.
  intros Hout. apply bool_decide_ext. unfold remove, setClassList. cbn [classList].
  rewrite elem_of_List_filter, negb_true_iff, bool_decide_eq_false. tauto.
Qed.

Lemma remove_in (token : jsstring) (tokens : list jsstring) (a : attributes) :
  token ∈ tokens ->
  bool_decide (token ∈ classList (remove tokens a)) = false.
Proof.
  intros Hin. apply bool_decide_eq_false. unfold remove, setClassList. cbn [classList].
  rewrite elem_of_List_filter, negb_true_iff, bool_decide_eq_false. tauto.
Qed.

Lemma add_other (token token' : jsstring) (a : attributes) :
  token <> token' ->
  bool_decide (token ∈ classList (add token' a)) = bool_decide (token ∈ classList a).
Proof.
  intros Hne. apply bool_decide_ext. unfold add, setClassList. cbn [classList].
  case_bool_decide; [done|]. rewrite elem_of_app, list_elem_of_singleton. tauto.
Qed.

Lemma add_same (token : jsstring) (a : attributes) :
  bool_decide (token ∈ classList (add token a)) = true.
Proof.
  apply bool_decide_eq_true. unfold add, setClassList. cbn [classList].
  case_bool_decide; [done|]. rewrite elem_of_app, list_elem_of_singleton. tauto.
Qed.

End DomFacts.

(** ** FormValidator: validateField *)

Section FormValidatorFacts.
Import FormValidator.
Context `{Platform}.

(** The error container of an element depends on the tree and on the
    [aria-describedby] of the element alone. *)
Lemma getErrorContainer_update (field r : nat) (f : Dom.attributes -> Dom.attributes)
    (d : Dom.t) :
  (forall a, Dom.ariaDescribedBy (f a) = Dom.ariaDescribedBy a) ->
  getErrorContainer field (Dom.update r f d) = getErrorContainer field d.
Proof.
  intros Hf. unfold getErrorContainer.
  by rewrite (update_keeps Dom.ariaDescribedBy field r f d Hf).
Qed.

(** The errors of a field depend on the validator only through the
    controls of the form and the validators that the page stored. *)
Lemma runType_rules (fv fv' : t) (value : jsstring) (errors : list errorValue)
    (type : jsstring) :
  form fv' = form fv -> custom fv' = custom fv ->
  runType fv' value errors type = runType fv value errors type.
Proof.
  intros Hform Hcustom. unfold runType, validatorNamed, inherited.
  by rewrite Hform, Hcustom.
Qed.

Lemma forEachType_rules (fv fv' : t) (value : jsstring) (types : list jsstring)
    (errors : list errorValue) :
  form fv' = form fv -> custom fv' = custom fv ->
  forEachType fv' value types errors = forEachType fv value types errors.
Proof.
  intros Hform Hcustom. revert errors.
  induction types as [|type types IH]; intros errors; cbn [forEachType]; [done|].
  rewrite (runType_rules fv fv') by done.
  destruct (runType fv value errors type); [apply IH | done].
Qed.

Lemma collectErrors_rules (fv fv' : t) (field : Field.t) :
  form fv' = form fv -> custom fv' = custom fv ->
  collectErrors fv' field = collectErrors fv field.
Proof.
  intros Hform Hcustom. unfold collectErrors, requiredValidator.
  by rewrite (forEachType_rules fv fv') , Hform, Hcustom.
Qed.

(** What a call of [validateField] that returns leaves behind. *)
Lemma validateField_returns (fv : t) (field : Field.t) (errors : list errorValue) :
  collectErrors fv field = Returned errors ->
  let state := mkState true (length errors =? 0)%nat errors in
  fst (validateField field fv) = Returned (length errors =? 0)%nat /\
  fieldStates (snd (validateField field fv)) = <[Field.id field := state]> (fieldStates fv) /\
  document (snd (validateField field fv)) = document (updateFieldUI field state fv) /\
  form (snd (validateField field fv)) = form fv /\
  custom (snd (validateField field fv)) = custom fv /\
  showSuccessState (snd (validateField field fv)) = showSuccessState fv /\
  formElement (snd (validateField field fv)) = formElement fv.
Proof.
  intros Herr state. unfold validateField. rewrite Herr. fold state.
  cbv zeta. cbn [fst snd].
  destruct (isValid state && _); [done|].
  destruct (negb (isValid state) && _); done.
Qed.

(** A call that throws has marked the state of the field as touched, and
    nothing more. *)
Lemma validateField_throws (fv : t) (field : Field.t) :
  collectErrors fv field = Threw ->
  validateField field fv = (Threw, touch (Field.id field) fv).
Proof. intros Herr. unfold validateField. by rewrite Herr. Qed.

(** [updateFieldUI] writes attributes: the tree and the links to the
    error containers stay. *)
Lemma updateFieldUI_keeps (field : Field.t) (state : FieldState) (fv : t) :
  Dom.tree (document (updateFieldUI field state fv)) = Dom.tree (document fv) /\
  Dom.nextRef (document (updateFieldUI field state fv)) = Dom.nextRef (document fv) /\
  (forall r, getErrorContainer r (document (updateFieldUI field state fv))
             = getErrorContainer r (document fv)).
Proof.
  unfold updateFieldUI. cbv zeta. cbn [document setDocument].
  destruct (negb (isValid state)); [|destruct (touched state && showSuccessState fv)];
    destruct (getErrorContainer (Field.ref field) (document fv));
    (split; [done|split; [done|]]); intros r;
    repeat (rewrite getErrorContainer_update by done); done.
Qed.

Lemma updateFieldUI_aria (field : Field.t) (state : FieldState) (fv : t) (r : nat) :
  Dom.ariaInvalid (Dom.attributesOf r (document (updateFieldUI field state fv))) =
  if decide (r = Field.ref field) then
    if negb (isValid state) then Some (str "true")
    else if touched state && showSuccessState fv then Some (str "false") else None
  else Dom.ariaInvalid (Dom.attributesOf r (document fv)).
Proof.
  unfold updateFieldUI. cbv zeta. cbn [document setDocument].
  destruct (negb (isValid state)); [|destruct (touched state && showSuccessState fv)];
    destruct (getErrorContainer (Field.ref field) (document fv));
    repeat first
      [ rewrite (update_keeps Dom.ariaInvalid) by done
      | rewrite attributesOf_update; destruct (decide (r = Field.ref field)); [done|] ];
    try done.
Qed.


Lemma updateFieldUI_text (field : Field.t) (state : FieldState) (fv : t) (c : nat) :
  let d' := document (updateFieldUI field state fv) in
  (Dom.textContent (Dom.attributesOf c d'), Dom.display (Dom.attributesOf c d')) =
  if bool_decide (getErrorContainer (Field.ref field) (document fv) = Some c)
     && (negb (isValid state) || touched state && showSuccessState fv)
  then
    if negb (isValid state) then (textOf (head (errors state)), Some (str "block"))
    else ([], Some (str "none"))
  else (Dom.textContent (Dom.attributesOf c (document fv)),
        Dom.display (Dom.attributesOf c (document fv))).
Proof.
  unfold updateFieldUI. cbv zeta. cbn [document setDocument].
  destruct (negb (isValid state)); [|destruct (touched state && showSuccessState fv)];
    cbn [orb andb]; rewrite ?andb_true_r, ?andb_false_r;
    destruct (getErrorContainer (Field.ref field) (document fv)) as [c0|];
    try case_bool_decide; simplify_eq;
    repeat first
      [ rewrite (update_keeps Dom.textContent) by done
      | rewrite (update_keeps Dom.display) by done
      | rewrite attributesOf_update_same
      | rewrite attributesOf_update; destruct (decide (c = c0)); [congruence|] ];
    try done.
Qed.

Lemma updateFieldUI_class (field : Field.t) (state : FieldState) (fv : t) (r : nat)
    (token : jsstring) :
  token = str "form-control--error" \/ token = str "form-control--success" ->
  bool_decide
    (token ∈ Dom.classList (Dom.attributesOf r (document (updateFieldUI field state fv)))) =
  if decide (r = Field.ref field) then
    if negb (isValid state) then bool_decide (token = str "form-control--error")
    else if touched state && showSuccessState fv
         then bool_decide (token = str "form-control--success")
         else false
  else bool_decide (token ∈ Dom.classList (Dom.attributesOf r (document fv))).
Proof.
  intros Htoken.
  pose (part := fun a => bool_decide (token ∈ Dom.classList a)).
  change (part (Dom.attributesOf r (document (updateFieldUI field state fv))) =
          if decide (r = Field.ref field) then
            if negb (isValid state) then bool_decide (token = str "form-control--error")
            else if touched state && showSuccessState fv
                 then bool_decide (token = str "form-control--success")
                 else false
          else part (Dom.attributesOf r (document fv))).
  assert (Hgroup : forall a,
            part (Dom.remove [str "form-group--error"; str "form-group--success"] a) = part a).
  { intros a. apply remove_out.
    destruct Htoken as [-> | ->]; apply (bool_decide_unpack _); vm_compute; exact I. }
  assert (Hcontrol : forall a,
            part (Dom.remove [str "form-control--error"; str "form-control--success"] a)
            = false).
  { intros a. apply remove_in.
    destruct Htoken as [-> | ->]; apply (bool_decide_unpack _); vm_compute; exact I. }
  assert (Hadd : forall token' a, token <> token' -> part (Dom.add token' a) = part a).
  { intros token' a Hne. by apply add_other. }
  assert (Hsame : forall a, part (Dom.add token a) = true).
  { intros a. apply add_same. }
  unfold updateFieldUI. cbv zeta. cbn [document setDocument].
  destruct (decide (r = Field.ref field)) as [->|Hne].
  - destruct Htoken as [-> | ->];
      (destruct (negb (isValid state)); [|destruct (touched state && showSuccessState fv)]);
      destruct (getErrorContainer (Field.ref field) (document fv));
      repeat first
        [ rewrite (update_keeps part)
            by (intros a; first [apply Hgroup | apply Hadd; discriminate | reflexivity])
        | rewrite attributesOf_update_same; first [rewrite Hcontrol | rewrite Hsame] ];
      reflexivity.
  - destruct (negb (isValid state)); [|destruct (touched state && showSuccessState fv)];
      destruct (getErrorContainer (Field.ref field) (document fv));
      repeat first
        [ rewrite (update_keeps part)
            by (intros a; first [apply Hgroup | destruct Htoken as [-> | ->]; apply Hadd; discriminate | reflexivity])
        | rewrite attributesOf_update; destruct (decide (r = Field.ref field)); [done|] ];
      reflexivity.
Qed.


(** What a control shows once [updateFieldUI] has run for a control:
    its own marks when it is another control, and what was written on
    the error container when the two have the same. *)
Lemma updateFieldUI_view (field : Field.t) (state : FieldState) (fv : t) (field' : Field.t) :
  uiOf (updateFieldUI field state fv) field' =
  mkUI
    ((fun c =>
        if bool_decide (getErrorContainer (Field.ref field) (document fv) = Some c)
           && (negb (isValid state) || touched state && showSuccessState fv)
        then
          if negb (isValid state) then (textOf (head (errors state)), Some (str "block"))
          else ([], Some (str "none"))
        else (Dom.textContent (Dom.attributesOf c (document fv)),
              Dom.display (Dom.attributesOf c (document fv))))
     <$> getErrorContainer (Field.ref field') (document fv))
    (if decide (Field.ref field' = Field.ref field) then
       if negb (isValid state) then Some (str "true")
       else if touched state && showSuccessState fv then Some (str "false") else None
     else ariaInvalid (uiOf fv field'))
    (if decide (Field.ref field' = Field.ref field) then
       if negb (isValid state) then Some MarkError
       else if touched state && showSuccessState fv then Some MarkSuccess else None
     else marked (uiOf fv field')).
Proof.
  unfold uiOf. cbv zeta.
  rewrite (proj2 (proj2 (updateFieldUI_keeps field state fv))).
  rewrite updateFieldUI_aria.
  rewrite !updateFieldUI_class by auto.
  cbn [ariaInvalid marked]. f_equal.
  - destruct (getErrorContainer (Field.ref field') (document fv)) as [c|]; [|done].
    cbn [fmap option_fmap option_map]. f_equal. apply updateFieldUI_text.
  - destruct (decide (Field.ref field' = Field.ref field)); [|done].
    destruct (negb (isValid state)); [done|].
    by destruct (touched state && showSuccessState fv).
Qed.

Lemma updateFieldUI_uiOf (field : Field.t) (state : FieldState) (fv : t) :
  uiOf (updateFieldUI field state fv) field =
  if negb (isValid state) then
    mkUI
      (match getErrorContainer (Field.ref field) (document fv) with
       | Some _ => Some (textOf (head (errors state)), Some (str "block"))
       | None => None
       end)
      (Some (str "true")) (Some MarkError)
  else if touched state && showSuccessState fv then
    mkUI
      (match getErrorContainer (Field.ref field) (document fv) with
       | Some _ => Some ([], Some (str "none"))
       | None => None
       end)
      (Some (str "false")) (Some MarkSuccess)
  else mkUI (errorContainer (uiOf fv field)) None None.
Proof.
  rewrite updateFieldUI_view.
  destruct (decide (Field.ref field = Field.ref field)); [|done].
  unfold uiOf. cbn [errorContainer].
  destruct (getErrorContainer (Field.ref field) (document fv)) as [c|];
    cbn [fmap option_fmap option_map]; rewrite ?bool_decide_eq_true_2 by done;
    destruct (negb (isValid state)); try done;
    by destruct (touched state && showSuccessState fv).
Qed.

(** C10.  On a control that is not required and whose value is empty or
    white space only, [validateField] returns [true] and stores an empty
    error list, whatever [data-validate] names and whatever the minlength,
    maxlength and pattern attributes say. *)
Theorem blank_optional_field_is_valid (fv : t) (field : Field.t) :
  requiredApplies field = false ->
  trim (Field.value field) = [] ->
  fst (validateField field fv) = Returned true /\
  fieldStates (snd (validateField field fv)) !! Field.id field = Some (mkState true true []).
Proof.
  intros Hreq Hblank.
  assert (Herr : collectErrors fv field = Returned []).
  { unfold collectErrors. by rewrite Hreq, Hblank. }
  destruct (validateField_returns fv field [] Herr) as (Hok & Hst & _).
  split; [done|]. rewrite Hst. by rewrite lookup_insert_eq.
Qed.

End FormValidatorFacts.

(** C6.  [validateField] looks the names of [data-validate] up in
    [this.validators] without asking whether the name is a property of
    its own, and builds regular expressions without a guard.  On the
    contact control of the contact form, holding ["x"]: a name that
    nothing has is skipped; [toString], which [this.validators] inherits
    from [Object.prototype], is called like a validator, so [undefined]
    enters the error list, the control is marked invalid with an empty
    message on display, and the call returns [false], though no
    validator failed; with [__proto__] the call throws.  It also throws
    on a valid e-mail address when the control has a [pattern] attribute
    that [new RegExp] rejects.  A call that throws returns nothing and
    leaves the state that the constructor stored for the field, marked
    as touched. *)
Theorem validateField_calls_inherited_member :
  fst (@FormValidator.validateField asciiPlatform
         (Samples.contactControl (str "nickname") (str "x") []) Samples.validator)
  = Returned true /\
  fst (@FormValidator.validateField asciiPlatform
         (Samples.contactControl (str "toString") (str "x") []) Samples.validator)
  = Returned false /\
  FormValidator.fieldStates
    (snd (@FormValidator.validateField asciiPlatform
            (Samples.contactControl (str "toString") (str "x") []) Samples.validator))
  !! str "contact"
  = Some (FormValidator.mkState true false [FormValidator.Undefined]) /\
  FormValidator.uiOf
    (snd (@FormValidator.validateField asciiPlatform
            (Samples.contactControl (str "toString") (str "x") []) Samples.validator))
    (Samples.contactControl (str "toString") (str "x") [])
  = FormValidator.mkUI (Some ([], Some (str "block"))) (Some (str "true"))
      (Some FormValidator.MarkError) /\
  @FormValidator.validateField asciiPlatform
    (Samples.contactControl (str "__proto__") (str "x") []) Samples.validator
  = (Threw, FormValidator.touch (str "contact") Samples.validator) /\
  @FormValidator.validateField asciiPlatform
    (Samples.contactControl (str "email") (str "a@b.co") (str "(")) Samples.validator
  = (Threw, FormValidator.touch (str "contact") Samples.validator) /\
  FormValidator.fieldStates (FormValidator.touch (str "contact") Samples.validator)
  !! str "contact"
  = Some (FormValidator.mkState true true []).
Proof. repeat split; vm_compute; reflexivity. Qed.

(** A value of three spaces in an optional e-mail control is valid. *)
Lemma blank_optional_field_is_valid_witness :
  fst (@FormValidator.validateField asciiPlatform (Samples.emailField (str "   "))
         Samples.validator) = Returned true /\
  FormValidator.fieldStates
    (snd (@FormValidator.validateField asciiPlatform (Samples.emailField (str "   "))
            Samples.validator)) !! str "email"
  = Some (FormValidator.mkState true true []).
Proof.
  apply (@blank_optional_field_is_valid asciiPlatform Samples.validator
           (Samples.emailField (str "   "))); reflexivity.
Defined.

(** ** PropertyFilter: the debounced controls *)

Section FilterEventsFacts.
Import PropertyFilter FilterEvents.
Context `{Platform}.

Lemma advanceTo_quiet (w : world) (target : Z) :
  timers w = [] -> advanceTo target w = setNow w (Z.max (now w) target).
Proof. intros Ht. unfold advanceTo. by rewrite Ht. Qed.

(** A timer that is not due yet stays pending. *)
Lemma advanceTo_waits (w : world) (at_ : Z) (a : callback) (target : Z) :
  armed w at_ a -> target < at_ ->
  armed (advanceTo target w) at_ a /\
  now (advanceTo target w) = Z.max (now w) target /\
  pf (advanceTo target w) = pf w /\
  sameControls w (advanceTo target w) /\
  applied (advanceTo target w) = applied w.
Proof.
  intros (h & Ht & Hd) Hlt. unfold advanceTo. rewrite Ht.
  cbn [length fire]. unfold nextDue. rewrite Ht. cbn [fold_left due].
  destruct (Z.leb_spec at_ target); [lia|]. simpl.
  repeat split; try done. by exists h.
Qed.

(** A timer that is due runs its callback once, at its due time. *)
Lemma advanceTo_fires (w : world) (at_ : Z) (a : callback) (target : Z) :
  armed w at_ a -> at_ <= target ->
  let w' := advanceTo target w in
  timers w' = [] /\
  now w' = Z.max (Z.max (now w) at_) target /\
  filters (pf w') =
    match a with
    | SearchCommit =>
        Filters.setSearch (filters (pf w)) (trim (toLowerCase (searchValue w)))
    | HandlePriceChange =>
        Filters.setPrices (filters (pf w))
          (parseOrNull (minPriceValue w)) (parseOrNull (maxPriceValue w))
    end /\
  debounceDelay (pf w') = debounceDelay (pf w) /\
  sameControls w w' /\
  applied w' = applied w ++ [(Z.max (now w) at_, filters (pf w'))].
Proof.
  intros (h & Ht & Hd) Hle w'. subst w'. unfold advanceTo. rewrite Ht.
  cbn [length fire]. unfold nextDue. rewrite Ht. cbn [fold_left due].
  destruct (Z.leb_spec at_ target); [|lia].
  cbn [clearTimeout handle action due]. rewrite Ht.
  cbn [List.filter handle]. rewrite Nat.eqb_refl. cbn [negb].
  destruct a; simpl; unfold applyFilters, updateResultsCount, render; simpl.
  all: destruct (container (pf w)); simpl;
    repeat (match goal with |- context [if ?c then _ else _] => destruct c end; simpl);
    repeat split; done.
Qed.

(** [debounce] replaces whatever timer is pending by its own. *)
Lemma debounce_arms (w : world) (a' : callback) :
  timers w = [] \/ (exists at_ a, armed w at_ a) ->
  let w' := debounce a' w in
  armed w' (now w + debounceDelay (pf w)) a' /\
  now w' = now w /\
  filters (pf w') = filters (pf w) /\
  debounceDelay (pf w') = debounceDelay (pf w) /\
  sameControls w w' /\
  applied w' = applied w.
Proof.
  intros Hq w'. subst w'. unfold debounce.
  assert (Hclear : timers (clearTimeout (debounceTimeout (pf w)) w) = [] /\
                   clearTimeout (debounceTimeout (pf w)) w
                   = setTimers w (timers (clearTimeout (debounceTimeout (pf w)) w))).
  { destruct Hq as [Hq|(at_ & a & h & Ht & Hd)].
    - unfold clearTimeout. destruct (debounceTimeout (pf w)); simpl.
      + rewrite Hq. done.
      + rewrite Hq. destruct w; simpl in *; subst; done.
    - rewrite Hd. simpl. rewrite Ht. simpl. rewrite Nat.eqb_refl. done. }
  destruct Hclear as [Hnil Hw]. rewrite Hw, Hnil. simpl.
  repeat split; try done. by eexists.
Qed.

(** An input to the search control at time [t], while no timer is due:
    the value is in the control and one [SearchCommit] is pending. *)
Lemma searchInput_arms (w : world) (t : Z) (v : jsstring) :
  timers w = [] \/ (exists at_ a, armed w at_ a /\ t < at_) ->
  let w' := dispatch (SearchInput v) (advanceTo t w) in
  armed w' (Z.max (now w) t + debounceDelay (pf w)) SearchCommit /\
  now w' = Z.max (now w) t /\
  filters (pf w') = filters (pf w) /\
  debounceDelay (pf w') = debounceDelay (pf w) /\
  searchValue w' = v /\
  minPriceValue w' = minPriceValue w /\ maxPriceValue w' = maxPriceValue w /\
  applied w' = applied w.
Proof.
  intros Hq w'. subst w'. cbn [dispatch].
  set (w0 := advanceTo t w).
  assert (H0 : (timers w0 = [] \/ (exists at_ a, armed w0 at_ a)) /\
               now w0 = Z.max (now w) t /\ pf w0 = pf w /\ sameControls w w0 /\
               applied w0 = applied w).
  { destruct Hq as [Hq|(at_ & a & Ha & Hlt)].
    - unfold w0. rewrite advanceTo_quiet by done. simpl.
      repeat split; try done. by left.
    - destruct (advanceTo_waits w at_ a t Ha Hlt) as (A1 & A2 & A3 & A4 & A5).
      repeat split; try done; try apply A4. right. by exists at_, a. }
  destruct H0 as (Hq0 & Hn0 & Hp0 & (Hs0 & Hlo0 & Hhi0) & Ha0).
  set (w1 := setControls w0 v (minPriceValue w0) (maxPriceValue w0)).
  assert (Hq1 : timers w1 = [] \/ (exists at_ a, armed w1 at_ a)).
  { destruct Hq0 as [Hq0|(at_ & a & h & Ht & Hd)]; [by left|].
    right. exists at_, a, h. done. }
  destruct (debounce_arms w1 SearchCommit Hq1) as (D1 & D2 & D3 & D4 & (D5 & D6 & D7) & D8).
  simpl in *. rewrite Hn0, Hp0 in D1. rewrite Hp0 in D3, D4.
  repeat split; try congruence.
Qed.

Lemma priceInput_arms (w : world) (t : Z) (e : event) :
  (exists p, e = MinPriceInput p \/ e = MaxPriceInput p) ->
  timers w = [] \/ (exists at_ a, armed w at_ a /\ t < at_) ->
  let w' := dispatch e (advanceTo t w) in
  armed w' (Z.max (now w) t + debounceDelay (pf w)) HandlePriceChange /\
  now w' = Z.max (now w) t /\
  filters (pf w') = filters (pf w) /\
  debounceDelay (pf w') = debounceDelay (pf w) /\
  searchValue w' = searchValue w /\
  minPriceValue w' = match e with MinPriceInput p => p | _ => minPriceValue w end /\
  maxPriceValue w' = match e with MaxPriceInput p => p | _ => maxPriceValue w end /\
  applied w' = applied w.
Proof.
  intros (p & He) Hq w'. subst w'.
  set (w0 := advanceTo t w).
  assert (H0 : (timers w0 = [] \/ (exists at_ a, armed w0 at_ a)) /\
               now w0 = Z.max (now w) t /\ pf w0 = pf w /\ sameControls w w0 /\
               applied w0 = applied w).
  { destruct Hq as [Hq|(at_ & a & Ha & Hlt)].
    - unfold w0. rewrite advanceTo_quiet by done. simpl.
      repeat split; try done. by left.
    - destruct (advanceTo_waits w at_ a t Ha Hlt) as (A1 & A2 & A3 & A4 & A5).
      repeat split; try done; try apply A4. right. by exists at_, a. }
  destruct H0 as (Hq0 & Hn0 & Hp0 & (Hs0 & Hlo0 & Hhi0) & Ha0).
  destruct He as [->| ->]; cbn [dispatch].
  - set (w1 := setControls w0 (searchValue w0) p (maxPriceValue w0)).
    assert (Hq1 : timers w1 = [] \/ (exists at_ a, armed w1 at_ a)).
    { destruct Hq0 as [Hq0|(at_ & a & h & Ht & Hd)]; [by left|].
      right. exists at_, a, h. done. }
    destruct (debounce_arms w1 HandlePriceChange Hq1)
      as (D1 & D2 & D3 & D4 & (D5 & D6 & D7) & D8).
    simpl in *. rewrite Hn0, Hp0 in D1. rewrite Hp0 in D3, D4.
    repeat split; try congruence.
  - set (w1 := setControls w0 (searchValue w0) (minPriceValue w0) p).
    assert (Hq1 : timers w1 = [] \/ (exists at_ a, armed w1 at_ a)).
    { destruct Hq0 as [Hq0|(at_ & a & h & Ht & Hd)]; [by left|].
      right. exists at_, a, h. done. }
    destruct (debounce_arms w1 HandlePriceChange Hq1)
      as (D1 & D2 & D3 & D4 & (D5 & D6 & D7) & D8).
    simpl in *. rewrite Hn0, Hp0 in D1. rewrite Hp0 in D3, D4.
    repeat split; try congruence.
Qed.

Lemma last_cons {A} (x d : A) (l : list A) : List.last (x :: l) d = List.last l x.
Proof.
  revert x d. induction l as [|y l IH]; intros x d; [done|].
  change (List.last (x :: y :: l) d) with (List.last (y :: l) d).
  by rewrite !IH.
Qed.

(** Inputs to the search control that follow each other by less than the
    delay keep one [SearchCommit] pending and commit nothing. *)
Lemma run_search_burst (more : list (Z * jsstring)) (w : world) (D : Z) :
  debounceDelay (pf w) = D ->
  armed w (now w + D) SearchCommit ->
  rapid D (now w) (List.map fst more) ->
  let w' := run (searchInputs more) w in
  let final := List.last more (now w, searchValue w) in
  armed w' (now w' + D) SearchCommit /\
  now w' = fst final /\ searchValue w' = snd final /\
  filters (pf w') = filters (pf w) /\
  debounceDelay (pf w') = D /\
  applied w' = applied w.
Proof.
  revert w. induction more as [|[t v] more IH]; intros w HD Harm Hrapid; cbv zeta.
  - done.
  - rewrite last_cons. cbn [searchInputs List.map run fst snd].
    fold (searchInputs more).
    destruct Hrapid as [Ht Hrapid]. simpl in Ht.
    destruct (searchInput_arms w t v) as (S1 & S2 & S3 & S4 & S5 & _ & _ & S8).
    { right. exists (now w + D), SearchCommit. split; [done | lia]. }
    set (w1 := dispatch (SearchInput v) (advanceTo t w)) in *.
    assert (Hn1 : now w1 = t) by lia.
    rewrite HD in S1, S4. rewrite Z.max_r in S1 by lia. rewrite <- Hn1 in S1 at 1.
    rewrite <- Hn1 in Hrapid.
    destruct (IH w1 S4 S1 Hrapid) as (I1 & I2 & I3 & I4 & I5 & I6).
    rewrite Hn1, S5 in I2, I3.
    repeat split; try done; congruence.
Qed.

(** A burst of inputs to the search control, with no other input: nothing
    is applied before 300 ms have passed since the last input, and then
    the filters are applied exactly once, with the last value. *)
Lemma search_burst_commits_once (w : world) (first : Z * jsstring)
    (more : list (Z * jsstring)) :
  timers w = [] -> debounceDelay (pf w) = 300 -> now w <= fst first ->
  rapid 300 (fst first) (List.map fst more) ->
  let final := List.last more first in
  (forall T : Z, T < fst final + 300 ->
     applied (runUntil (searchInputs (first :: more)) T w) = applied w) /\
  (forall T : Z, fst final + 300 <= T ->
     applied (runUntil (searchInputs (first :: more)) T w) =
     applied w ++
     [(fst final + 300,
       Filters.setSearch (filters (pf w)) (trim (toLowerCase (snd final))))]).
Proof.
  intros Hq HD Hnow Hrapid final.
  destruct first as [t0 v0]. simpl in Hnow, Hrapid.
  unfold runUntil. cbn [searchInputs List.map run fst snd].
  destruct (searchInput_arms w t0 v0 (or_introl Hq)) as (S1 & S2 & S3 & S4 & S5 & _ & _ & S8).
  set (w1 := dispatch (SearchInput v0) (advanceTo t0 w)) in *.
  assert (Hn1 : now w1 = t0) by lia.
  rewrite HD in S1, S4. rewrite Z.max_r in S1 by lia. rewrite <- Hn1 in S1 at 1.
  rewrite <- Hn1 in Hrapid.
  destruct (run_search_burst more w1 300 S4 S1 Hrapid) as (B1 & B2 & B3 & B4 & B5 & B6).
  fold (searchInputs more).
  set (w2 := run (searchInputs more) w1) in *.
  rewrite Hn1, S5 in B2, B3. fold final in B2, B3.
  split; intros T HT.
  - destruct (advanceTo_waits w2 (now w2 + 300) SearchCommit T B1 ltac:(lia))
      as (_ & _ & _ & _ & A5).
    congruence.
  - destruct (advanceTo_fires w2 (now w2 + 300) SearchCommit T B1 ltac:(lia))
      as (_ & _ & F3 & _ & _ & F6).
    rewrite F6, F3, B6, S8, B4, S3, B3, B2. do 3 f_equal. lia.
Qed.

(** A price input while a search commit is pending replaces the one
    timer of the filter: when it runs, only the prices are committed, and
    the search text stays in its control without reaching the criteria. *)
Lemma price_input_replaces_search_timer (w : world) (v p : jsstring) (t1 t2 T : Z) :
  timers w = [] -> now w <= t1 -> t1 <= t2 -> t2 < t1 + debounceDelay (pf w) ->
  t2 + debounceDelay (pf w) <= T ->
  let w' := runUntil [(t1, SearchInput v); (t2, MinPriceInput p)] T w in
  searchValue w' = v /\
  filters (pf w') =
    Filters.setPrices (filters (pf w)) (parseOrNull p) (parseOrNull (maxPriceValue w)) /\
  applied w' = applied w ++ [(t2 + debounceDelay (pf w), filters (pf w'))].
Proof.
  intros Hq Hnow H12 Hlt HT w'. subst w'. unfold runUntil. cbn [run].
  destruct (searchInput_arms w t1 v (or_introl Hq)) as (S1 & S2 & S3 & S4 & S5 & S6 & S7 & S8).
  set (w1 := dispatch (SearchInput v) (advanceTo t1 w)) in *.
  rewrite Z.max_r in S1, S2 by lia.
  destruct (priceInput_arms w1 t2 (MinPriceInput p)) as (P1 & P2 & P3 & P4 & P5 & P6 & P7 & P8).
  { exists p. by left. }
  { right. exists (t1 + debounceDelay (pf w)), SearchCommit. split; [done | lia]. }
  set (w2 := dispatch (MinPriceInput p) (advanceTo t2 w1)) in *.
  rewrite S2, Z.max_r in P1, P2 by lia. rewrite S4 in P1.
  destruct (advanceTo_fires w2 (t2 + debounceDelay (pf w)) HandlePriceChange T P1 HT)
    as (_ & _ & F3 & _ & (F5 & _ & _) & F6).
  repeat split.
  - congruence.
  - rewrite F3, P3, S3, P6, P7, S7. done.
  - rewrite F6, P8, S8, P2. do 3 f_equal. lia.
Qed.

End FilterEventsFacts.

(** C2.  The search control and the price controls share the one timer
    handle [debounceTimeout].  A search input "Tyler" at 0 ms followed by a
    minimum price input at 100 ms: the price input clears the pending
    search commit, the filters are applied once, at 400 ms, with the price
    alone, and the search text never reaches the criteria although it
    stays in the control; without the price input it is committed at
    300 ms.  Likewise a search input clears a pending price commit. *)
Theorem shared_timer_drops_search_commit :
  let typed :=
    @FilterEvents.runUntil asciiPlatform
      [(0, FilterEvents.SearchInput (str "Tyler"));
       (100, FilterEvents.MinPriceInput (str "500"))]
      1000 (FilterEvents.start Samples.listing) in
  let alone :=
    @FilterEvents.runUntil asciiPlatform
      [(0, FilterEvents.SearchInput (str "Tyler"))]
      1000 (FilterEvents.start Samples.listing) in
  let reversed :=
    @FilterEvents.runUntil asciiPlatform
      [(0, FilterEvents.MinPriceInput (str "500"));
       (100, FilterEvents.SearchInput (str "Tyler"))]
      1000 (FilterEvents.start Samples.listing) in
  (FilterEvents.searchValue typed = str "Tyler" /\
   FilterEvents.applied typed =
     [(400, PropertyFilter.Filters.mk None None [] [] (Some (Num 500)) None [])] /\
   PropertyFilter.filteredProperties (FilterEvents.pf typed)
     = [Samples.oakHouse; Samples.pineFlat; Samples.elmLodge]) /\
  (FilterEvents.applied alone =
     [(300, PropertyFilter.Filters.mk None None [] (str "tyler") None None [])] /\
   PropertyFilter.filteredProperties (FilterEvents.pf alone)
     = [Samples.oakHouse; Samples.elmLodge]) /\
  (FilterEvents.minPriceValue reversed = str "500" /\
   FilterEvents.applied reversed =
     [(400, PropertyFilter.Filters.mk None None [] (str "tyler") None None [])]).
Proof. vm_compute. repeat split; reflexivity. Qed.

(** * The rest of the code of the widgets: properties *)

(** ** RateLimiter: queries *)

Section RateLimiterApiFacts.
Import RateLimiter RateLimiterApi.

Lemma validOf_idem (rl : t) (now : Z) (l : list Z) :
  validOf rl now (validOf rl now l) = validOf rl now l.
Proof.
  unfold validOf. induction l as [|x l IH]; simpl; [done|].
  destruct (now - x <? windowMs rl) eqn:Hx; simpl; [|done].
  by rewrite Hx, IH.
Qed.

(** What was valid at a time is all that can be valid later. *)
Lemma validOf_later (rl : t) (now now' : Z) (l : list Z) :
  now <= now' -> validOf rl now' (validOf rl now l) = validOf rl now' l.
Proof.
  intros Hle. unfold validOf. induction l as [|x l IH]; simpl; [done|].
  destruct (now - x <? windowMs rl) eqn:Hx; simpl.
  - by rewrite IH.
  - rewrite IH. destruct (Z.ltb_spec (now' - x) (windowMs rl)); [|done].
    apply Z.ltb_ge in Hx. lia.
Qed.

(** X1.  [getRemainingAttempts] tells what [isAllowed] will answer at the
    same time: the call is allowed exactly when attempts remain, it then
    reports one attempt fewer, and with a positive window that is also
    what [getRemainingAttempts] says afterwards. *)
Theorem remaining_attempts_predict_isAllowed (rl : t) (now : Z) (key : jsstring) :
  (allowed (fst (isAllowed now key rl)) = true <->
   0 < getRemainingAttempts now key rl) /\
  (allowed (fst (isAllowed now key rl)) = true ->
   remainingAttempts (fst (isAllowed now key rl))
     = Some (getRemainingAttempts now key rl - 1) /\
   (0 < windowMs rl ->
    getRemainingAttempts now key (snd (isAllowed now key rl))
      = getRemainingAttempts now key rl - 1)).
Proof.
  assert (Hiff : allowed (fst (isAllowed now key rl)) = true <->
                 0 < getRemainingAttempts now key rl).
  { rewrite isAllowed_allowed_iff. unfold getRemainingAttempts. lia. }
  split; [exact Hiff|].
  intros Hal. apply isAllowed_allowed_iff in Hal as Hlt.
  rewrite (isAllowed_granted now key rl Hlt). simpl.
  unfold getRemainingAttempts.
  set (valid := validOf rl now (default [] (attempts rl !! key))) in *.
  rewrite length_app. simpl. split; [f_equal; lia|].
  intros Hw. rewrite lookup_insert_eq. simpl.
  assert (Hv : validOf rl now (valid ++ [now]) = valid ++ [now]).
  { unfold validOf. rewrite List.filter_app.
    fold (validOf rl now valid). unfold valid. rewrite validOf_idem. simpl.
    destruct (Z.ltb_spec (now - now) (windowMs rl)); [done | lia]. }
  unfold validOf in *. cbn [windowMs]. rewrite Hv, length_app. simpl. lia.
Qed.

Lemma remaining_attempts_predict_isAllowed_witness :
  remainingAttempts (fst (isAllowed 5 (str "u") createFormRateLimiter)) = Some (3 - 1) /\
  (0 < 60000 ->
   getRemainingAttempts 5 (str "u") (snd (isAllowed 5 (str "u") createFormRateLimiter))
   = 3 - 1).
Proof.
  apply (proj2 (remaining_attempts_predict_isAllowed createFormRateLimiter 5 (str "u"))).
  reflexivity.
Defined.

(** X2.  A limiter reached from its constructor never counts more than
    [maxAttempts] attempts of a key within the window, at whatever time
    the count is asked, and none when [maxAttempts] is zero or
    negative. *)
Theorem attempt_count_bounded (rl : t) (now : Z) (key : jsstring) :
  reachable rl ->
  0 <= getAttemptCount now key rl <= Z.max 0 (maxAttempts rl).
Proof.
  intros Hr. unfold getAttemptCount.
  pose proof (filter_length_le (fun timestamp => now - timestamp <? windowMs rl)
                (default [] (attempts rl !! key))) as Hf.
  unfold validOf.
  destruct (attempts rl !! key) as [l|] eqn:Hk; simpl in *.
  - pose proof (reachable_bounded rl Hr key l Hk). lia.
  - lia.
Qed.

Lemma attempt_count_bounded_witness :
  let rl := exec (IsAllowed 30 (str "u")) (exec (IsAllowed 20 (str "u"))
              (exec (IsAllowed 10 (str "u")) (exec (IsAllowed 0 (str "u"))
                 createFormRateLimiter))) in
  0 <= getAttemptCount 40 (str "u") rl <= Z.max 0 (maxAttempts rl).
Proof.
  intros rl. apply (attempt_count_bounded rl 40 (str "u")).
  unfold rl. repeat apply reachable_exec. apply (reachable_new 3 60000).
Defined.

Lemma cleanup_lookup_valid (rl : t) (now now' : Z) (key : jsstring) :
  now <= now' ->
  validOf rl now' (default [] (attempts (cleanup now rl) !! key)) =
  validOf rl now' (default [] (attempts rl !! key)).
Proof.
  intros Hle. simpl. rewrite lookup_omap.
  destruct (attempts rl !! key) as [l|]; simpl; [|done].
  unfold cleanupEntry.
  destruct (length (validOf rl now l) =? 0)%nat eqn:Hl; simpl.
  - apply Nat.eqb_eq in Hl. rewrite <- (validOf_later rl now now' l Hle).
    destruct (validOf rl now l); [done | simpl in Hl; lia].
  - destruct (negb _); simpl; [by apply validOf_later | done].
Qed.

(** X3.  The background sweep is invisible to later checks: after
    [cleanup()] at some time, [isAllowed] at that time or later returns
    the very object it would have returned without the sweep, and
    [getAttemptCount] and [getRemainingAttempts] are unchanged. *)
Theorem cleanup_is_transparent (rl : t) (now now' : Z) (key : jsstring) :
  now <= now' ->
  fst (isAllowed now' key (cleanup now rl)) = fst (isAllowed now' key rl) /\
  getAttemptCount now' key (cleanup now rl) = getAttemptCount now' key rl /\
  getRemainingAttempts now' key (cleanup now rl) = getRemainingAttempts now' key rl.
Proof.
  intros Hle.
  pose proof (cleanup_lookup_valid rl now now' key Hle) as Hv.
  assert (Hv' : validOf (cleanup now rl) now' (default [] (attempts (cleanup now rl) !! key))
                = validOf rl now' (default [] (attempts rl !! key))) by exact Hv.
  split; [|split].
  - unfold isAllowed. rewrite Hv'. cbn [maxAttempts windowMs cleanup].
    by destruct (_ <=? _).
  - unfold getAttemptCount. by rewrite Hv'.
  - unfold getRemainingAttempts. by rewrite Hv'.
Qed.

Lemma cleanup_is_transparent_witness :
  let rl := exec (IsAllowed 10 (str "u")) (exec (IsAllowed 0 (str "u"))
              createFormRateLimiter) in
  fst (isAllowed 60005 (str "u") (cleanup 60003 rl)) = fst (isAllowed 60005 (str "u") rl) /\
  getAttemptCount 60005 (str "u") (cleanup 60003 rl) = getAttemptCount 60005 (str "u") rl /\
  getRemainingAttempts 60005 (str "u") (cleanup 60003 rl)
  = getRemainingAttempts 60005 (str "u") rl.
Proof.
  intros rl. apply (cleanup_is_transparent rl 60003 60005 (str "u")). lia.
Defined.

Lemma cleanup_post (rl : t) (now : Z) (key : jsstring) (l : list Z) :
  attempts (cleanup now rl) !! key = Some l ->
  l <> [] /\ validOf rl now l = l.
Proof.
  simpl. rewrite lookup_omap.
  destruct (attempts rl !! key) as [l0|]; simpl; [|done].
  unfold cleanupEntry.
  destruct (length (validOf rl now l0) =? 0)%nat eqn:Hl; [done|].
  apply Nat.eqb_neq in Hl.
  destruct (length (validOf rl now l0) =? length l0)%nat eqn:Hl'; simpl;
    intros [= <-].
  - apply Nat.eqb_eq in Hl'. split.
    + intros ->. simpl in Hl. done.
    + by apply filter_same_length.
  - split; [by destruct (validOf rl now l0) | apply validOf_idem].
Qed.

(** X4.  After [cleanup()] every key still tracked has at least one
    attempt and only attempts inside the window; a second sweep at the
    same time changes nothing. *)
Theorem cleanup_keeps_only_live_keys (rl : t) (now : Z) :
  (forall (key : jsstring) (l : list Z),
     attempts (cleanup now rl) !! key = Some l ->
     l <> [] /\ forall timestamp, timestamp ∈ l -> now - timestamp < windowMs rl)
  /\ cleanup now (cleanup now rl) = cleanup now rl.
Proof.
  pose proof (cleanup_post rl now) as Hpost.
  split.
  - intros key l Hl. destruct (Hpost key l Hl) as [Hne Hv]. split; [done|].
    intros timestamp Hin. rewrite <- Hv in Hin.
    apply list_elem_of_In, filter_In in Hin as [_ Hin]. by apply Z.ltb_lt in Hin.
  - assert (Hmap : omap (cleanupEntry (cleanup now rl) now) (attempts (cleanup now rl))
                   = attempts (cleanup now rl)); [|unfold cleanup at 1; by rewrite Hmap].
    apply map_eq. intros key. rewrite lookup_omap.
    destruct (attempts (cleanup now rl) !! key) as [l|] eqn:Hl; simpl; [|done].
    destruct (Hpost key l Hl) as [Hne Hv].
    unfold cleanupEntry.
    assert (Hv' : validOf (cleanup now rl) now l = l) by exact Hv.
    rewrite Hv', Nat.eqb_refl. simpl.
    destruct l; [done|]. done.
Qed.

Lemma cleanup_keeps_only_live_keys_witness :
  let rl := exec (IsAllowed 50000 (str "v")) (exec (IsAllowed 0 (str "u"))
              createFormRateLimiter) in
  [50000] <> [] /\ forall timestamp, timestamp ∈ [50000] -> 70000 - timestamp < windowMs rl.
Proof.
  intros rl.
  apply (proj1 (cleanup_keeps_only_live_keys rl 70000) (str "v") [50000]).
  vm_compute. reflexivity.
Defined.

(** X5.  [resetUserAttempts(key)] frees the key: with [maxAttempts] at
    least 1 the next [isAllowed(key)] is allowed, with all but one attempt
    remaining, and the answers for every other key are what they were. *)
Theorem reset_frees_the_key (rl : t) (now : Z) (key : jsstring) :
  1 <= maxAttempts rl ->
  allowed (fst (isAllowed now key (resetUserAttempts key rl))) = true /\
  remainingAttempts (fst (isAllowed now key (resetUserAttempts key rl)))
    = Some (maxAttempts rl - 1) /\
  (forall other : jsstring,
     other <> key ->
     fst (isAllowed now other (resetUserAttempts key rl)) = fst (isAllowed now other rl)).
Proof.
  intros Hm. unfold isAllowed, resetUserAttempts. simpl.
  rewrite lookup_delete_eq. simpl.
  change (Z.of_nat 0) with 0. change (Z.of_nat 1) with 1.
  destruct (Z.leb_spec (maxAttempts rl) 0); [lia|]. simpl.
  split; [done|]. split; [done|].
  intros other Hne. rewrite lookup_delete_ne by done.
  by destruct (_ <=? _).
Qed.

Lemma reset_frees_the_key_witness :
  let rl := exec (IsAllowed 20 (str "u")) (exec (IsAllowed 10 (str "u"))
              (exec (IsAllowed 0 (str "u")) createFormRateLimiter)) in
  allowed (fst (isAllowed 30 (str "u") (resetUserAttempts (str "u") rl))) = true /\
  remainingAttempts (fst (isAllowed 30 (str "u") (resetUserAttempts (str "u") rl)))
    = Some (maxAttempts rl - 1) /\
  (forall other : jsstring,
     other <> str "u" ->
     fst (isAllowed 30 other (resetUserAttempts (str "u") rl)) = fst (isAllowed 30 other rl)).
Proof.
  intros rl. apply (reset_frees_the_key rl 30 (str "u")). vm_compute. discriminate.
Defined.

Lemma StronglySorted_filter_le (f : Z -> bool) (l : list Z) :
  StronglySorted Z.le l -> StronglySorted Z.le (List.filter f l).
Proof.
  induction 1 as [|x l Hs IH Hx]; simpl; [constructor|].
  destruct (f x); [|done].
  constructor; [done|].
  apply List.Forall_forall. intros y [Hy _]%filter_In.
  by apply (proj1 (List.Forall_forall _ _) Hx).
Qed.

Lemma Forall_filter_le (P : Z -> Prop) (f : Z -> bool) (l : list Z) :
  List.Forall P l -> List.Forall P (List.filter f l).
Proof.
  intros Hl. apply List.Forall_forall. intros y [Hy _]%filter_In.
  by apply (proj1 (List.Forall_forall _ _) Hl).
Qed.

Lemma StronglySorted_snoc (l : list Z) (x : Z) :
  StronglySorted Z.le l -> List.Forall (fun y => y <= x) l ->
  StronglySorted Z.le (l ++ [x]).
Proof.
  induction 1 as [|y l Hs IH Hy]; simpl; intros Hx.
  - repeat constructor.
  - inversion Hx as [|? ? Hyx Hlx]; subst. constructor; [by apply IH|].
    apply List.Forall_app. split; [done|]. by constructor.
Qed.

Lemma reachableAt_chronological (t0 : Z) (rl : t) :
  reachableAt t0 rl -> chronological t0 rl.
Proof.
  induction 1 as [t0 m w | t0 now k rl Hr IH Hle | t0 now rl Hr IH Hle
                 | t0 k rl Hr IH | t0 rl Hr IH | t0 t1 rl Hr IH Hle];
    intros key l Hl.
  - simpl in Hl. by rewrite lookup_empty in Hl.
  - unfold isAllowed in Hl.
    set (valid := validOf rl now (default [] (attempts rl !! k))) in *.
    assert (Hvalid : StronglySorted Z.le valid /\
                     List.Forall (fun timestamp => timestamp <= t0) valid).
    { unfold valid, validOf.
      destruct (attempts rl !! k) as [l0|] eqn:Hk; simpl.
      - destruct (IH k l0 Hk) as [Hs Hf].
        split; [by apply StronglySorted_filter_le | by apply Forall_filter_le].
      - split; constructor. }
    destruct (Z.leb_spec (maxAttempts rl) (Z.of_nat (length valid))); simpl in Hl.
    + destruct (IH key l Hl) as [Hs Hf]. split; [done|].
      eapply List.Forall_impl; [|exact Hf]. simpl. intros; lia.
    + destruct (decide (k = key)) as [->|Hne].
      * rewrite lookup_insert_eq in Hl. injection Hl as <-.
        destruct Hvalid as [Hs Hf]. split.
        -- apply StronglySorted_snoc; [done|].
           eapply List.Forall_impl; [|exact Hf]. simpl. intros; lia.
        -- apply List.Forall_app. split.
           ++ eapply List.Forall_impl; [|exact Hf]. simpl. intros; lia.
           ++ constructor; [lia | constructor].
      * rewrite lookup_insert_ne in Hl by done.
        destruct (IH key l Hl) as [Hs Hf]. split; [done|].
        eapply List.Forall_impl; [|exact Hf]. simpl. intros; lia.
  - simpl in Hl. rewrite lookup_omap in Hl.
    destruct (attempts rl !! key) as [l0|] eqn:Hk; simpl in Hl; [|done].
    destruct (IH key l0 Hk) as [Hs Hf].
    assert (Hf' : List.Forall (fun timestamp => timestamp <= now) l0).
    { eapply List.Forall_impl; [|exact Hf]. simpl. intros; lia. }
    unfold cleanupEntry, validOf in Hl.
    destruct (_ =? 0)%nat; [done|].
    destruct (negb _); injection Hl as <-; split; try done.
    + by apply StronglySorted_filter_le.
    + by apply Forall_filter_le.
  - simpl in Hl. destruct (decide (k = key)) as [->|Hne].
    + by rewrite lookup_delete_eq in Hl.
    + rewrite lookup_delete_ne in Hl by done. by apply (IH key).
  - simpl in Hl. by rewrite lookup_empty in Hl.
  - destruct (IH key l Hl) as [Hs Hf]. split; [done|].
    eapply List.Forall_impl; [|exact Hf]. simpl. intros; lia.
Qed.

Lemma reachableAt_reachable (t0 : Z) (rl : t) : reachableAt t0 rl -> reachable rl.
Proof.
  induction 1 as [t0 m w | t0 now k rl Hr IH Hle | t0 now rl Hr IH Hle
                 | t0 k rl Hr IH | t0 rl Hr IH | t0 t1 rl Hr IH Hle].
  - apply reachable_new.
  - by apply (reachable_exec (IsAllowed now k)).
  - by apply (reachable_exec (Cleanup now)).
  - by apply (reachable_exec (ResetUserAttempts k)).
  - by apply (reachable_exec Destroy).
  - done.
Qed.

Lemma Math_min_of_sorted (first : Z) (rest : list Z) :
  List.Forall (Z.le first) rest -> Math_min first rest = first.
Proof.
  unfold Math_min. induction 1 as [|x rest Hx Hrest IH]; simpl; [done|].
  by rewrite Z.min_l.
Qed.

(** X6.  On a limiter whose calls were made in the order of the clock,
    when [isAllowed] denies a key and [maxAttempts] is positive,
    [getTimeUntilReset] gives the same number of seconds as the
    [retryAfter] of the denial, and it is at least 1.  When [maxAttempts]
    is zero or negative the two differ: the [retryAfter] of the denial
    is [NaN] and [getTimeUntilReset] gives 0. *)
Theorem time_until_reset_is_retryAfter (rl : t) (t0 now : Z) (key : jsstring) :
  reachableAt t0 rl ->
  allowed (fst (isAllowed now key rl)) = false ->
  if 0 <? maxAttempts rl
  then retryAfter (fst (isAllowed now key rl)) = Some (Num (getTimeUntilReset now key rl)) /\
       1 <= getTimeUntilReset now key rl
  else retryAfter (fst (isAllowed now key rl)) = Some NaN /\
       getTimeUntilReset now key rl = 0.
Proof.
  intros Hr Hden.
  pose proof (denied_all_valid rl now key (reachableAt_reachable _ _ Hr) Hden) as Hall.
  assert (Hle : maxAttempts rl
                <= Z.of_nat (length (validOf rl now (default [] (attempts rl !! key))))).
  { destruct (Z.le_gt_cases (maxAttempts rl)
                (Z.of_nat (length (validOf rl now (default [] (attempts rl !! key))))))
      as [|Hlt]; [done|].
    apply isAllowed_allowed_iff in Hlt. congruence. }
  rewrite (isAllowed_denied now key rl Hle). simpl.
  rewrite Hall in *. unfold getTimeUntilReset.
  destruct (Z.ltb_spec 0 (maxAttempts rl)) as [Hm|Hm].
  - destruct (attempts rl !! key) as [l|] eqn:Hk; simpl in *; [|lia].
    destruct l as [|first rest]; simpl in *; [lia|].
    destruct (reachableAt_chronological _ _ Hr key _ Hk) as [Hs _].
    inversion Hs as [|? ? _ Hfirst]; subst.
    rewrite (Math_min_of_sorted first rest Hfirst).
    assert (Hvalid : now - first < windowMs rl).
    { unfold validOf in Hall. simpl in Hall.
      destruct (Z.ltb_spec (now - first) (windowMs rl)); [done|].
      pose proof (filter_length_le (fun timestamp => now - timestamp <? windowMs rl) rest).
      apply (f_equal (@length Z)) in Hall. simpl in Hall. lia. }
    pose proof (Math_ceil_div_pos (first + windowMs rl - now) 1000 ltac:(lia) ltac:(lia)).
    split; [do 2 f_equal; lia | lia].
  - destruct (attempts rl !! key) as [l|] eqn:Hk; simpl in *; [|done].
    pose proof (reachable_bounded rl (reachableAt_reachable _ _ Hr) key l Hk) as Hb.
    destruct l as [|first rest]; simpl in *; [done|lia].
Qed.

Lemma time_until_reset_is_retryAfter_witness :
  let rl := snd (isAllowed 20 (str "u") (snd (isAllowed 10 (str "u")
              (snd (isAllowed 0 (str "u") createFormRateLimiter))))) in
  retryAfter (fst (isAllowed 1500 (str "u") rl))
    = Some (Num (getTimeUntilReset 1500 (str "u") rl)) /\
  1 <= getTimeUntilReset 1500 (str "u") rl.
Proof.
  intros rl. apply (time_until_reset_is_retryAfter rl 20 1500 (str "u")).
  - unfold rl.
    apply (at_isAllowed 10 20); [|lia].
    apply (at_isAllowed 0 10); [|lia].
    apply (at_isAllowed 0 0); [|lia].
    apply (at_new 0 3 60000).
  - reflexivity.
Defined.

Lemma getStats_counts (rl : t) (now : Z) (m : gmap jsstring (list Z)) :
  let counts := map_fold (fun _ => countEntry rl now) (0, 0) m in
  (0 <= fst counts <= Z.of_nat (size m)) /\
  fst counts <= snd counts /\
  ((forall key l, m !! key = Some l -> validOf rl now l <> []) ->
   fst counts = Z.of_nat (size m)) /\
  (forall bound : Z,
     0 <= bound ->
     (forall key l, m !! key = Some l -> Z.of_nat (length l) <= bound) ->
     snd counts <= bound * fst counts).
Proof.
  cbv zeta.
  apply (map_fold_weak_ind
           (fun (counts : Z * Z) (m : gmap jsstring (list Z)) =>
              (0 <= fst counts <= Z.of_nat (size m)) /\
              fst counts <= snd counts /\
              ((forall key l, m !! key = Some l -> validOf rl now l <> []) ->
               fst counts = Z.of_nat (size m)) /\
              (forall bound : Z,
                 0 <= bound ->
                 (forall key l, m !! key = Some l -> Z.of_nat (length l) <= bound) ->
                 snd counts <= bound * fst counts))).
  - rewrite map_size_empty. simpl. repeat split; intros; lia.
  - intros key l m' counts Hfresh (H1 & H2 & H3 & H4).
    rewrite map_size_insert_None by done.
    assert (Hold : forall (Q : list Z -> Prop),
               (forall key0 l0, <[key:=l]> m' !! key0 = Some l0 -> Q l0) ->
               Q l /\ forall key0 l0, m' !! key0 = Some l0 -> Q l0).
    { intros Q HQ. split.
      - apply (HQ key). by rewrite lookup_insert_eq.
      - intros key0 l0 Hk0. apply (HQ key0).
        rewrite lookup_insert_ne; [done|]. intros ->. congruence. }
    unfold countEntry.
    pose proof (filter_length_le (fun timestamp => now - timestamp <? windowMs rl) l) as Hfl.
    fold (validOf rl now l) in Hfl.
    destruct (Nat.ltb_spec 0 (length (validOf rl now l))) as [Hpos|Hzero]; simpl.
    + split; [lia|]. split; [lia|]. split.
      * intros Hall. apply (Hold (fun l0 => validOf rl now l0 <> [])) in Hall as [_ Hall].
        specialize (H3 Hall). lia.
      * intros bound Hb Hall.
        apply (Hold (fun l0 => Z.of_nat (length l0) <= bound)) in Hall as [Hl Hall].
        specialize (H4 bound Hb Hall). nia.
    + split; [lia|]. split; [lia|]. split.
      * intros Hall. apply (Hold (fun l0 => validOf rl now l0 <> [])) in Hall as [Hl _].
        destruct (validOf rl now l); [done | simpl in Hzero; lia].
      * intros bound Hb Hall.
        apply (Hold (fun l0 => Z.of_nat (length l0) <= bound)) in Hall as [_ Hall].
        by apply H4.
Qed.

(** X7.  [getStats()] never reports more active users than tracked keys,
    nor more active users than attempts; on a limiter reached from its
    constructor the attempts are at most [maxAttempts] per active user; and
    right after [cleanup()] every tracked key is an active user. *)
Theorem getStats_consistent (rl : t) (now : Z) :
  (0 <= totalActiveUsers (getStats now rl) <= mapSize (getStats now rl)) /\
  totalActiveUsers (getStats now rl) <= totalAttempts (getStats now rl) /\
  (reachable rl -> 0 <= maxAttempts rl ->
   totalAttempts (getStats now rl) <= maxAttempts rl * totalActiveUsers (getStats now rl)) /\
  totalActiveUsers (getStats now (cleanup now rl)) = mapSize (getStats now (cleanup now rl)).
Proof.
  unfold getStats. cbn [totalActiveUsers totalAttempts mapSize].
  destruct (getStats_counts rl now (attempts rl)) as (H1 & H2 & _ & H4).
  split; [done|]. split; [done|]. split.
  - intros Hr Hm. apply (H4 (maxAttempts rl) Hm). apply (reachable_bounded rl Hr).
  - destruct (getStats_counts (cleanup now rl) now (attempts (cleanup now rl)))
      as (_ & _ & H3 & _).
    apply H3. intros key l Hl.
    destruct (cleanup_post rl now key l Hl) as [Hne Hv].
    assert (Hall : validOf (cleanup now rl) now l = l) by exact Hv.
    by rewrite Hall.
Qed.

Lemma getStats_consistent_witness :
  let rl := exec (IsAllowed 50000 (str "v")) (exec (IsAllowed 0 (str "u"))
              createFormRateLimiter) in
  totalAttempts (getStats 50001 rl) <= maxAttempts rl * totalActiveUsers (getStats 50001 rl).
Proof.
  intros rl. apply (proj1 (proj2 (proj2 (getStats_consistent rl 50001)))).
  - unfold rl. repeat apply reachable_exec. apply (reachable_new 3 60000).
  - vm_compute. discriminate.
Defined.

Lemma ToInt32_range (z : Z) : - 2 ^ 31 <= ToInt32 z < 2 ^ 31.
Proof.
  unfold ToInt32.
  pose proof (Z.mod_pos_bound (z + 2 ^ 31) (2 ^ 32) ltac:(lia)). lia.
Qed.

Lemma ToInt32_congruent (a b : Z) :
  a mod 2 ^ 32 = b mod 2 ^ 32 -> ToInt32 a = ToInt32 b.
Proof.
  intros Hab. unfold ToInt32. f_equal.
  rewrite (Z.add_mod a), (Z.add_mod b) by lia. by rewrite Hab.
Qed.

Lemma ToInt32_mod (z : Z) : ToInt32 z mod 2 ^ 32 = z mod 2 ^ 32.
Proof.
  unfold ToInt32.
  rewrite (Z.mod_eq (z + 2 ^ 31) (2 ^ 32)) by lia.
  replace (z + 2 ^ 31 - 2 ^ 32 * ((z + 2 ^ 31) / 2 ^ 32) - 2 ^ 31)
    with (z + (- ((z + 2 ^ 31) / 2 ^ 32)) * 2 ^ 32) by lia.
  apply Z_mod_plus_full.
Qed.

(** One round multiplies by 31 and adds the code unit, modulo 2^32. *)
Lemma hashRound_31 (hash : Z) (char : N) :
  hashRound hash char = ToInt32 (31 * hash + Z.of_N char).
Proof.
  unfold hashRound. apply ToInt32_congruent.
  rewrite Z.shiftl_mul_pow2 by lia.
  rewrite <- Z.add_sub_swap, <- Z.add_sub_assoc.
  rewrite Z.add_mod, ToInt32_mod, <- Z.add_mod by lia.
  f_equal. lia.
Qed.

Lemma hashRounds_31 (str : jsstring) (a : Z) :
  fold_left hashRound str (ToInt32 a)
  = ToInt32 (fold_left (fun hash char => 31 * hash + Z.of_N char) str a).
Proof.
  revert a. induction str as [|char str IH]; intros a; simpl; [done|].
  rewrite <- IH. f_equal. rewrite hashRound_31. apply ToInt32_congruent.
  rewrite Z.add_mod, Z.mul_mod, ToInt32_mod, <- Z.mul_mod, <- Z.add_mod by lia.
  done.
Qed.

Lemma toString36_from_digits (rounds : nat) (z : Z) (acc : jsstring) :
  0 <= z ->
  (forall c, c ∈ acc -> (48 <= c <= 57 \/ 97 <= c <= 122)%N) ->
  forall c, c ∈ toString36_from rounds z acc -> (48 <= c <= 57 \/ 97 <= c <= 122)%N.
Proof.
  revert z acc. induction rounds as [|rounds IH]; intros z acc Hz Hacc; simpl; [done|].
  assert (Hd : (48 <= digit36 (z mod 36) <= 57 \/ 97 <= digit36 (z mod 36) <= 122)%N).
  { pose proof (Z.mod_pos_bound z 36 ltac:(lia)). unfold digit36.
    destruct (Z.ltb_spec (z mod 36) 10); lia. }
  assert (Hacc' : forall c, c ∈ digit36 (z mod 36) :: acc ->
                            (48 <= c <= 57 \/ 97 <= c <= 122)%N).
  { intros c [->|Hc]%elem_of_cons; [done | by apply Hacc]. }
  destruct (z / 36 =? 0); [done|].
  apply IH; [|done]. apply Z.div_pos; lia.
Qed.

Lemma toString36_from_nonempty (rounds : nat) (z : Z) (acc : jsstring) :
  acc <> [] -> toString36_from rounds z acc <> [].
Proof.
  revert z acc. induction rounds as [|rounds IH]; intros z acc Hacc; simpl; [done|].
  destruct (z / 36 =? 0); [done|]. by apply IH.
Qed.

Lemma hashString_truthy (input : hashInput) :
  PropertyFilter.truthy (hashString input) = true.
Proof.
  unfold hashString, toString36. cbn [toString36_from].
  set (z := Z.abs _).
  assert (Hne : (if z / 36 =? 0 then [digit36 (z mod 36)]
                 else toString36_from (Z.to_nat (Z.log2 z)) (z / 36) [digit36 (z mod 36)])
                <> []).
  { destruct (z / 36 =? 0); [done|]. by apply toString36_from_nonempty. }
  unfold PropertyFilter.truthy.
  destruct (if z / 36 =? 0 then _ else _); [done | done].
Qed.

(** X8.  The loop of [hashString] computes the polynomial hash of the
    string with multiplier 31, reduced to a signed 32-bit integer: cutting
    the overflow at each round gives the same as cutting it once at the
    end.  The string returned is never empty and is made of the digits
    [0-9a-z]. *)
Theorem hashString_is_polynomial_hash (s : jsstring) :
  hashCode s = ToInt32 (poly31 s) /\
  - 2 ^ 31 <= hashCode s < 2 ^ 31 /\
  hashString (OfString s) <> [] /\
  (forall c, c ∈ hashString (OfString s) -> (48 <= c <= 57 \/ 97 <= c <= 122)%N).
Proof.
  assert (Hc : hashCode s = ToInt32 (poly31 s)).
  { unfold hashCode, poly31. change 0 with (ToInt32 0) at 1. apply hashRounds_31. }
  split; [done|]. split; [rewrite Hc; apply ToInt32_range|]. split.
  - pose proof (hashString_truthy (OfString s)) as Ht.
    intros Hnil. rewrite Hnil in Ht. done.
  - unfold hashString, toString36. apply toString36_from_digits; [lia|].
    intros c Hcin. by apply elem_of_nil in Hcin.
Qed.

Example hashString_of_text :
  hashString (OfString (str "Properties 4 Creations")) = str "ehpbtn".
Proof. vm_compute. reflexivity. Qed.

Lemma orElse_truthy (x : option jsstring) (s : jsstring) :
  orElse x None = Some s -> PropertyFilter.truthy s = true /\ x = Some s.
Proof.
  unfold orElse. destruct x as [s'|]; [|done].
  destruct (PropertyFilter.truthy s') eqn:Ht; [|done]. by intros [= <-].
Qed.

Lemma orElse_same (s : jsstring) :
  PropertyFilter.truthy s = true -> orElse (Some s) None = Some s.
Proof. intros Ht. unfold orElse. by rewrite Ht. Qed.

(** The four ways [getUserIdentifier] ends when the user agent is not
    needed. *)
Lemma identifier_from_ip (b : browser) (st : storages) (id : jsstring) :
  orElse (client_ip st) None = Some id ->
  getUserIdentifier b st = (id, st).
Proof.
  intros Hip. unfold getUserIdentifier. cbn [firstIdentifier getClientIP].
  rewrite Hip. apply orElse_truthy in Hip as [-> _]. done.
Qed.

Lemma identifier_from_stored_fingerprint (b : browser) (st : storages)
    (text stored : jsstring) :
  orElse (client_ip st) None = None ->
  fingerprintText b = Some text ->
  orElse (browser_fingerprint st) None = Some stored ->
  getUserIdentifier b st = (stored, st).
Proof.
  intros Hip Hft Hfp. unfold getUserIdentifier. cbn [firstIdentifier getClientIP].
  rewrite Hip. unfold getFingerprint. rewrite Hft, Hfp.
  apply orElse_truthy in Hfp as [-> _]. done.
Qed.

Lemma identifier_from_new_fingerprint (b : browser) (st : storages) (text : jsstring) :
  orElse (client_ip st) None = None ->
  fingerprintText b = Some text ->
  orElse (browser_fingerprint st) None = None ->
  getUserIdentifier b st =
  (hashString (OfString text),
   mkStorages (client_ip st) (Some (hashString (OfString text)))
     (fallback_fingerprint st) (form_session_id st)).
Proof.
  intros Hip Hft Hfp. unfold getUserIdentifier. cbn [firstIdentifier getClientIP].
  rewrite Hip. unfold getFingerprint. rewrite Hft, Hfp.
  by rewrite hashString_truthy.
Qed.

Lemma identifier_from_stored_session (b : browser) (st : storages) (sessionId : jsstring) :
  orElse (client_ip st) None = None ->
  fingerprintText b = None ->
  orElse (form_session_id st) None = Some sessionId ->
  getUserIdentifier b st = (sessionId, st).
Proof.
  intros Hip Hft Hsid. unfold getUserIdentifier. cbn [firstIdentifier getClientIP].
  rewrite Hip. unfold getFingerprint. rewrite Hft.
  unfold getSessionId. rewrite Hsid.
  apply orElse_truthy in Hsid as [-> _]. done.
Qed.

Lemma identifier_from_new_session (b : browser) (st : storages) :
  orElse (client_ip st) None = None ->
  fingerprintText b = None ->
  orElse (form_session_id st) None = None ->
  getUserIdentifier b st =
  (str "session_" ++ sessionStamp b,
   mkStorages (client_ip st) (browser_fingerprint st) (fallback_fingerprint st)
     (Some (str "session_" ++ sessionStamp b))).
Proof.
  intros Hip Hft Hsid. unfold getUserIdentifier. cbn [firstIdentifier getClientIP].
  rewrite Hip. unfold getFingerprint. rewrite Hft.
  unfold getSessionId. rewrite Hsid. done.
Qed.

(** X9.  [getUserIdentifier()] never returns an empty string, and it is
    stable: a second call, on the storages that the first call left,
    returns the same identifier and writes nothing, whatever fingerprint
    text and session stamp the browser then gives, as long as the canvas
    works in both calls or in neither. *)
Theorem user_identifier_is_stable (b b' : browser) (st : storages) :
  (fingerprintText b = None <-> fingerprintText b' = None) ->
  fst (getUserIdentifier b st) <> [] /\
  getUserIdentifier b' (snd (getUserIdentifier b st)) = getUserIdentifier b st.
Proof.
  intros Hcanvas.
  assert (Hne : forall id : jsstring, PropertyFilter.truthy id = true -> id <> []).
  { intros id Ht ->. done. }
  destruct (orElse (client_ip st) None) as [id|] eqn:Hip.
  { rewrite (identifier_from_ip b st id Hip). cbn [fst snd].
    split; [apply Hne; by apply orElse_truthy in Hip as [? _]|].
    by apply identifier_from_ip. }
  destruct (fingerprintText b) as [text|] eqn:Hft.
  - destruct (fingerprintText b') as [text'|] eqn:Hft';
      [|pose proof (proj2 Hcanvas eq_refl); done].
    destruct (orElse (browser_fingerprint st) None) as [stored|] eqn:Hfp.
    + rewrite (identifier_from_stored_fingerprint b st text stored Hip Hft Hfp).
      cbn [fst snd].
      split; [apply Hne; by apply orElse_truthy in Hfp as [? _]|].
      by apply (identifier_from_stored_fingerprint b' st text' stored).
    + rewrite (identifier_from_new_fingerprint b st text Hip Hft Hfp). cbn [fst snd].
      split; [apply Hne, hashString_truthy|].
      apply (identifier_from_stored_fingerprint b' _ text'); [done | done |].
      apply orElse_same, hashString_truthy.
  - destruct (fingerprintText b') as [text'|] eqn:Hft';
      [pose proof (proj1 Hcanvas eq_refl); done|].
    destruct (orElse (form_session_id st) None) as [sessionId|] eqn:Hsid.
    + rewrite (identifier_from_stored_session b st sessionId Hip Hft Hsid). cbn [fst snd].
      split; [apply Hne; by apply orElse_truthy in Hsid as [? _]|].
      by apply identifier_from_stored_session.
    + rewrite (identifier_from_new_session b st Hip Hft Hsid). cbn [fst snd].
      split; [done|].
      apply identifier_from_stored_session; done.
Qed.

(** A browser without canvas and with empty storages: the session
    identifier is made at the first call and found again at the second. *)
Lemma user_identifier_is_stable_witness :
  let b := mkBrowser None (str "17_abc") (str "Mozilla") in
  let b' := mkBrowser None (str "99_xyz") (str "Mozilla") in
  let st := mkStorages None None None None in
  fst (getUserIdentifier b st) <> [] /\
  getUserIdentifier b' (snd (getUserIdentifier b st)) = getUserIdentifier b st.
Proof.
  intros b b' st. apply (user_identifier_is_stable b b' st); reflexivity.
Defined.

End RateLimiterApiFacts.

(** ** Accordion: all panels, the ARIA state and the keyboard *)

Section AccordionMoreFacts.
Import Accordion AccordionKeys.

Lemma close_synced (index : Z) (a : Accordion.t) : synced a -> synced (close index a).
Proof.
  unfold synced, close. intros Hs.
  destruct (outOfRange index a); [done|].
  destruct (items a !! Z.to_nat index) as [it|]; [|done].
  destruct (isOpen it); simpl; [|done].
  destruct (callback_fields index false
              (setItems a (<[Z.to_nat index := mkItem false false]> (items a))))
    as (_ & _ & -> & _).
  simpl. by apply Forall_insert.
Qed.

Lemma fold_synced {A} (f : Accordion.t -> A -> Accordion.t) (l : list A)
    (a : Accordion.t) :
  (forall a x, synced a -> synced (f a x)) -> synced a -> synced (fold_left f l a).
Proof.
  intros Hf. revert a. induction l as [|x l IH]; simpl; intros a Ha; [done|].
  apply IH. by apply Hf.
Qed.

Lemma closeOther_synced (index : Z) (a : Accordion.t) (i : nat) :
  synced a -> synced (closeOther index a i).
Proof.
  intros Hs. unfold closeOther.
  destruct (items a !! i) as [item|]; [|done].
  destruct (_ && _); [by apply close_synced | done].
Qed.

Lemma open_synced (index : Z) (a : Accordion.t) : synced a -> synced (open index a).
Proof.
  intros Hs. unfold open.
  destruct (outOfRange index a); [done|].
  destruct (items a !! Z.to_nat index) as [it|]; [|done].
  destruct (isOpen it); [done|].
  match goal with
  | |- synced (callback ?x ?y ?z) =>
      unfold synced; destruct (callback_fields x y z) as (_ & _ & -> & _)
  end.
  simpl. apply Forall_insert; [|done].
  destruct (negb (allowMultiple a)); [|done].
  apply fold_synced; [|done]. intros. by apply closeOther_synced.
Qed.

Lemma exec_synced (o : op) (a : Accordion.t) : synced a -> synced (exec o a).
Proof.
  intros Hs. destruct o; simpl.
  - unfold toggle. destruct (outOfRange index a); [done|].
    destruct (items a !! Z.to_nat index) as [it|]; [|done].
    destruct (isOpen it); [by apply close_synced | by apply open_synced].
  - by apply open_synced.
  - by apply close_synced.
  - apply fold_synced; [|done]. intros. by apply open_synced.
  - apply fold_synced; [|done]. intros. by apply close_synced.
  - constructor.
Qed.

Lemma reachable_synced (a : Accordion.t) : reachable a -> synced a.
Proof.
  induction 1 as [m o d n | o a Hr IH].
  - unfold new. apply fold_synced.
    + intros a x Ha. destruct (_ && _); [by apply open_synced | done].
    + unfold synced. simpl. apply Forall_forall. intros x Hx.
      apply elem_of_replicate in Hx as [-> _]. done.
  - by apply exec_synced.
Qed.

(** X10.  In every state that an accordion reaches, in either mode, the
    [aria-expanded] attribute of each button equals the open state of its
    panel. *)
Theorem aria_expanded_follows_open_state (a : Accordion.t) :
  reachable a ->
  forall (index : nat) (item : Accordion.item),
    items a !! index = Some item -> ariaExpanded item = isOpen item.
Proof.
  intros Hr index item Hitem.
  pose proof (reachable_synced a Hr) as Hs.
  by apply (proj1 (Forall_lookup _ _) Hs index item).
Qed.

Lemma aria_expanded_follows_open_state_witness :
  ariaExpanded (mkItem true true) = isOpen (mkItem true true).
Proof.
  apply (aria_expanded_follows_open_state
           (exec (Toggle 1) (new true false [0] 3))
           (reachable_exec _ _ (reachable_new true false [0] 3)) 1%nat).
  reflexivity.
Defined.

Lemma open_length (index : Z) (a : Accordion.t) :
  length (items (open index a)) = length (items a).
Proof.
  unfold open.
  destruct (outOfRange index a); [done|].
  destruct (items a !! Z.to_nat index) as [it|]; [|done].
  destruct (isOpen it); [done|].
  match goal with
  | |- context [callback ?x ?y ?z] => destruct (callback_fields x y z) as (_ & _ & -> & _)
  end.
  simpl. rewrite length_insert.
  destruct (negb (allowMultiple a)); [|done].
  apply (closeOthers_spec index (seq 0 (length (items a))) a (NoDup_seq _ _)).
Qed.

(** In multi-open mode [open] touches the panel of the index alone. *)
Lemma open_multi (index : Z) (a : Accordion.t) :
  allowMultiple a = true ->
  forall j : nat,
    isPanelOpen j (open index a) =
    isPanelOpen j a || (Z.of_nat j =? index) && (j <? length (items a))%nat.
Proof.
  intros Hm j. unfold open, outOfRange.
  destruct (Z.ltb_spec index 0) as [Hneg|Hpos]; simpl.
  { destruct (Z.eqb_spec (Z.of_nat j) index); [lia|]. by rewrite orb_false_r. }
  destruct (Z.leb_spec (Z.of_nat (length (items a))) index) as [Hout|Hin].
  { destruct (Z.eqb_spec (Z.of_nat j) index) as [<-|]; simpl; [|by rewrite orb_false_r].
    destruct (Nat.ltb_spec j (length (items a))); [lia|]. by rewrite orb_false_r. }
  assert (Hn : (Z.to_nat index < length (items a))%nat) by lia.
  destruct (lookup_lt_is_Some_2 _ _ Hn) as [it Hit]. rewrite Hit.
  destruct (isOpen it) eqn:Hopen.
  - destruct (Z.eqb_spec (Z.of_nat j) index) as [<-|]; simpl; [|by rewrite orb_false_r].
    rewrite Nat2Z.id in Hit. unfold isPanelOpen. by rewrite Hit, Hopen.
  - rewrite Hm. simpl.
    match goal with
    | |- context [callback ?x ?y ?z] =>
        unfold isPanelOpen at 1; destruct (callback_fields x y z) as (_ & _ & -> & _)
    end.
    simpl. destruct (Z.eqb_spec (Z.of_nat j) index) as [<-|Hne]; simpl.
    + rewrite Nat2Z.id in *. rewrite list_lookup_insert_eq by done. simpl.
      destruct (Nat.ltb_spec j (length (items a))); [|lia]. by rewrite orb_true_r.
    + rewrite list_lookup_insert_ne by lia. by rewrite orb_false_r.
Qed.

Lemma openAll_multi_fold (l : list nat) (a : Accordion.t) :
  allowMultiple a = true ->
  forall j : nat,
    isPanelOpen j (fold_left (fun a index => open (Z.of_nat index) a) l a) =
    isPanelOpen j a || bool_decide (j ∈ l) && (j <? length (items a))%nat.
Proof.
  revert a. induction l as [|i l IH]; intros a Hm j; cbn [fold_left].
  - rewrite bool_decide_eq_false_2 by apply not_elem_of_nil. by rewrite orb_false_r.
  - rewrite IH by (by rewrite open_allowMultiple).
    rewrite open_multi by done. rewrite open_length.
    rewrite (bool_decide_ext (j ∈ i :: l) (j = i \/ j ∈ l)) by apply elem_of_cons.
    rewrite bool_decide_or.
    destruct (Z.eqb_spec (Z.of_nat j) (Z.of_nat i)) as [Heq|Hne].
    + rewrite (bool_decide_eq_true_2 (j = i)) by lia. simpl.
      by destruct (isPanelOpen j a), (j <? length (items a))%nat, (bool_decide (j ∈ l)).
    + rewrite (bool_decide_eq_false_2 (j = i)) by lia. simpl. by rewrite orb_false_r.
Qed.

(** In single-open mode [open] on an index in range leaves that panel the
    one open, whether it was open or not. *)
Lemma open_single_any (k : nat) (a : Accordion.t) :
  single a -> (k < length (items a))%nat ->
  forall j : nat, isPanelOpen j (open (Z.of_nat k) a) = bool_decide (j = k).
Proof.
  intros [Hm Hone] Hk j.
  destruct (isPanelOpen k a) eqn:Hopen.
  - rewrite open_noop by (right; by rewrite Nat2Z.id).
    case_bool_decide as Hj; [by subst|].
    destruct (isPanelOpen j a) eqn:Hjo; [|done]. by specialize (Hone j k Hjo Hopen).
  - by apply open_single.
Qed.

Lemma fold_open_length (l : list nat) (a : Accordion.t) :
  length (items (fold_left (fun a index => open (Z.of_nat index) a) l a))
  = length (items a).
Proof.
  revert a. induction l as [|i l IH]; intros a; simpl; [done|].
  by rewrite IH, open_length.
Qed.

(** X11.  [openAll()] opens every panel in multi-open mode.  In
    single-open mode it cannot: each panel it opens closes the one before,
    and the accordion is left with its last panel alone open. *)
Theorem openAll_by_mode (a : Accordion.t) :
  (allowMultiple a = true ->
   forall j : nat, (j < length (items a))%nat -> isPanelOpen j (openAll a) = true)
  /\
  (reachable a -> allowMultiple a = false -> (0 < length (items a))%nat ->
   forall j : nat,
     isPanelOpen j (openAll a) = bool_decide (j = (length (items a) - 1)%nat)).
Proof.
  split.
  - intros Hm j Hj. unfold openAll. rewrite openAll_multi_fold by done.
    rewrite bool_decide_eq_true_2 by (apply elem_of_seq; lia).
    destruct (Nat.ltb_spec j (length (items a))); [|lia]. by rewrite orb_true_r.
  - intros Hr Hm Hn j. unfold openAll.
    destruct (length (items a)) as [|m] eqn:Hlen; [lia|].
    rewrite seq_S, fold_left_app. simpl. rewrite Nat.sub_0_r.
    apply open_single_any.
    + apply fold_keeps_single; [intros; by apply open_keeps_single|].
      by apply reachable_single.
    + rewrite fold_open_length. lia.
Qed.

Lemma openAll_by_mode_witness :
  (forall j : nat,
     (j < length (items (new true false [] 3)))%nat ->
     isPanelOpen j (openAll (new true false [] 3)) = true)
  /\
  (forall j : nat,
     isPanelOpen j (openAll (new false false [] 3))
     = bool_decide (j = (length (items (new false false [] 3)) - 1)%nat)).
Proof.
  split.
  - apply (proj1 (openAll_by_mode (new true false [] 3))). reflexivity.
  - apply (proj2 (openAll_by_mode (new false false [] 3))).
    + apply reachable_new.
    + reflexivity.
    + vm_compute. lia.
Defined.

Lemma close_is_closeOther (a : Accordion.t) (i : nat) :
  close (Z.of_nat i) a = closeOther (-1) a i.
Proof.
  unfold closeOther.
  destruct (Z.eqb_spec (Z.of_nat i) (-1)); [lia|]. simpl.
  destruct (items a !! i) as [item|] eqn:Hi.
  - destruct (isOpen item) eqn:Ho; [done|].
    unfold close. destruct (outOfRange (Z.of_nat i) a); [done|].
    by rewrite Nat2Z.id, Hi, Ho.
  - unfold close. destruct (outOfRange (Z.of_nat i) a); [done|].
    by rewrite Nat2Z.id, Hi.
Qed.

Lemma closeAll_is_closeOthers (a : Accordion.t) :
  closeAll a = fold_left (closeOther (-1)) (seq 0 (length (items a))) a.
Proof.
  unfold closeAll. generalize (seq 0 (length (items a))) as l. intros l.
  revert a. induction l as [|i l IH]; intros a; simpl; [done|].
  by rewrite IH, close_is_closeOther.
Qed.

(** The panels that [getOpenPanels] lists are the open ones, in order. *)
Lemma flat_map_open_panels (l : list Accordion.item) (k : nat) :
  flat_map
    (fun i => match l !! (i - k)%nat with
              | Some item => if isOpen item then [(Z.of_nat i, false)] else []
              | None => []
              end)
    (seq k (length l))
  = List.map (fun index => (index, false))
      (List.filter (fun index => negb (index =? -1))
         (imap (fun index item => if isOpen item then Z.of_nat (k + index) else -1) l)).
Proof.
  revert k. induction l as [|it l IH]; intros k; [done|].
  rewrite imap_cons. cbn [length seq flat_map].
  rewrite Nat.sub_diag. cbn [lookup list_lookup].
  rewrite (flat_map_agree _
             (fun i => match l !! (i - S k)%nat with
                       | Some item => if isOpen item then [(Z.of_nat i, false)] else []
                       | None => []
                       end)).
  2:{ intros i Hi%elem_of_seq. replace (i - k)%nat with (S (i - S k)) by lia. done. }
  rewrite IH.
  rewrite (imap_ext (fun index item => if isOpen item then Z.of_nat (S k + index) else -1)
             ((fun index item => if isOpen item then Z.of_nat (k + index) else -1) ∘ S))
    by (intros; simpl; destruct (isOpen _); [f_equal; lia | done]).
  cbn [List.filter]. rewrite Nat.add_0_r.
  destruct (isOpen it); simpl; [|done].
  destruct (Z.eqb_spec (Z.of_nat k) (-1)); [lia|]. done.
Qed.

(** X12.  [closeAll()] leaves every panel closed, in either mode, and
    calls [onToggle(index, false)] once for each panel that
    [getOpenPanels()] listed, in that order, and for no other. *)
Theorem closeAll_closes_every_panel (a : Accordion.t) :
  (forall j : nat, isPanelOpen j (closeAll a) = false) /\
  getOpenPanels (closeAll a) = [] /\
  calls (closeAll a) =
    calls a ++
    (if onToggle a then List.map (fun index => (index, false)) (getOpenPanels a) else []).
Proof.
  rewrite closeAll_is_closeOthers.
  destruct (closeOthers_spec (-1) (seq 0 (length (items a))) a (NoDup_seq _ _))
    as (_ & _ & Hlen & Hopen & Hcalls).
  assert (Hall : forall j : nat,
             isPanelOpen j (fold_left (closeOther (-1)) (seq 0 (length (items a))) a)
             = false).
  { intros j. rewrite Hopen.
    destruct (isPanelOpen j a) eqn:Hj; [|done].
    apply isPanelOpen_lt in Hj.
    rewrite bool_decide_eq_true_2 by (apply elem_of_seq; lia).
    destruct (Z.eqb_spec (Z.of_nat j) (-1)); [lia | done]. }
  split; [exact Hall|]. split.
  - destruct (getOpenPanels _) as [|z l] eqn:Hg; [done|].
    pose proof (getOpenPanels_length
                  (fold_left (closeOther (-1)) (seq 0 (length (items a))) a)) as Hl.
    rewrite Hg in Hl. simpl in Hl.
    destruct (List.filter isOpen _) as [|it l'] eqn:Hf; [done|].
    assert (Hin : In it (List.filter isOpen
                           (items (fold_left (closeOther (-1))
                                     (seq 0 (length (items a))) a))))
      by (rewrite Hf; by left).
    apply filter_In in Hin as [Hin Hit].
    apply list_elem_of_In, list_elem_of_lookup in Hin as [j Hj].
    specialize (Hall j). unfold isPanelOpen in Hall. rewrite Hj in Hall. congruence.
  - rewrite Hcalls. f_equal.
    destruct (onToggle a) eqn:Hcb.
    + change (getOpenPanels a)
        with (List.filter (fun index => negb (index =? -1))
                (imap (fun index item => if isOpen item then Z.of_nat (0 + index) else -1)
                   (items a))).
      rewrite <- (flat_map_open_panels (items a) 0).
      apply flat_map_agree. intros i _. unfold closingCalls, isPanelOpen.
      rewrite Hcb, Nat.sub_0_r. simpl.
      destruct (items a !! i) as [item|]; [|done].
      destruct (Z.eqb_spec (Z.of_nat i) (-1)); [lia|].
      by rewrite andb_true_r.
    + apply flat_map_none. intros i _. unfold closingCalls. by rewrite Hcb.
Qed.

(** X13.  The arrow keys move the focus round the buttons and never open
    or close a panel: from the button [i], ArrowDown focuses the next
    button, or the first one after the last, ArrowUp focuses the previous
    one, or the last one before the first, and each undoes the other. *)
Theorem arrow_keys_rove_focus (s : AccordionKeys.t) (i : Z) :
  0 <= i < Z.of_nat (length (items (accordion s))) ->
  let n := Z.of_nat (length (items (accordion s))) in
  let down := handleKeydown ArrowDown i s in
  let up := handleKeydown ArrowUp i s in
  focused down = Some (if i =? n - 1 then 0 else i + 1) /\
  focused up = Some (if i =? 0 then n - 1 else i - 1) /\
  accordion down = accordion s /\ accordion up = accordion s /\
  (forall i', focused down = Some i' ->
     0 <= i' < n /\ focused (handleKeydown ArrowUp i' down) = Some i) /\
  (forall i', focused up = Some i' ->
     0 <= i' < n /\ focused (handleKeydown ArrowDown i' up) = Some i).
Proof.
  intros Hi n down up. subst down up. fold n in Hi.
  cbn [handleKeydown focusNext focusPrevious focus focused accordion]. fold n.
  assert (Hnext : Z.rem (i + 1) n = if i =? n - 1 then 0 else i + 1).
  { destruct (Z.eqb_spec i (n - 1)) as [->|Hne].
    - replace (n - 1 + 1) with n by lia. apply Z.rem_same. lia.
    - apply Z.rem_small. lia. }
  rewrite Hnext.
  split; [done|]. split; [done|]. split; [done|]. split; [done|]. split.
  - intros i' [= <-]. split; [destruct (Z.eqb_spec i (n - 1)); lia|]. f_equal.
    destruct (Z.eqb_spec i (n - 1)) as [->|Hne]; simpl; [done|].
    destruct (Z.eqb_spec (i + 1) 0); lia.
  - intros i' [= <-]. split; [destruct (Z.eqb_spec i 0); lia|]. f_equal.
    destruct (Z.eqb_spec i 0) as [->|Hne].
    + replace (n - 1 + 1) with n by lia. apply Z.rem_same. lia.
    + replace (i - 1 + 1) with i by lia. apply Z.rem_small. lia.
Qed.

Lemma arrow_keys_rove_focus_witness :
  let s := AccordionKeys.mk (new false false [] 3) None in
  focused (handleKeydown ArrowDown 2 s) = Some 0 /\
  focused (handleKeydown ArrowUp 2 s) = Some 1 /\
  accordion (handleKeydown ArrowDown 2 s) = accordion s /\
  accordion (handleKeydown ArrowUp 2 s) = accordion s /\
  (forall i', focused (handleKeydown ArrowDown 2 s) = Some i' ->
     0 <= i' < 3 /\
     focused (handleKeydown ArrowUp i' (handleKeydown ArrowDown 2 s)) = Some 2) /\
  (forall i', focused (handleKeydown ArrowUp 2 s) = Some i' ->
     0 <= i' < 3 /\
     focused (handleKeydown ArrowDown i' (handleKeydown ArrowUp 2 s)) = Some 2).
Proof.
  intros s. apply (arrow_keys_rove_focus s 2). simpl. lia.
Defined.

(** X14.  In multi-open mode a panel is opened and closed on its own:
    [toggle] changes no other panel, and toggling the same panel twice
    gives back the items as they were. *)
Theorem toggle_twice_restores (a : Accordion.t) (index : Z) :
  reachable a -> allowMultiple a = true ->
  (forall j : nat, Z.of_nat j <> index ->
     isPanelOpen j (toggle index a) = isPanelOpen j a) /\
  items (toggle index (toggle index a)) = items a.
Proof.
  intros Hr Hm.
  assert (Hsync : forall (i : nat) (item : Accordion.item),
             items a !! i = Some item -> ariaExpanded item = isOpen item)
    by (intros i item Hitem;
        by apply (proj1 (Forall_lookup _ _) (reachable_synced a Hr) i item)).
  unfold toggle at 1 3. unfold outOfRange.
  destruct (Z.ltb_spec index 0) as [Hneg|Hpos]; simpl.
  { split; [done|]. unfold toggle, outOfRange.
    destruct (Z.ltb_spec index 0); [done | lia]. }
  destruct (Z.leb_spec (Z.of_nat (length (items a))) index) as [Hout|Hin].
  { split; [done|]. unfold toggle, outOfRange.
    destruct (Z.ltb_spec index 0); [lia|]. simpl.
    destruct (Z.leb_spec (Z.of_nat (length (items a))) index); [done | lia]. }
  assert (Hn : (Z.to_nat index < length (items a))%nat) by lia.
  destruct (lookup_lt_is_Some_2 _ _ Hn) as [it Hit]. rewrite Hit.
  pose proof (Hsync _ _ Hit) as Hsit.
  destruct (isOpen it) eqn:Hopen.
  - destruct (close_spec index a) as (C1 & _ & C3 & C4 & _). split.
    + intros j Hj. rewrite C4. destruct (Z.eqb_spec (Z.of_nat j) index); [lia|].
      by rewrite andb_true_r.
    + assert (Hitems : items (close index a) = <[Z.to_nat index := mkItem false false]> (items a)).
      { unfold close, outOfRange.
        destruct (Z.ltb_spec index 0); [lia|]. simpl.
        destruct (Z.leb_spec (Z.of_nat (length (items a))) index); [lia|].
        rewrite Hit, Hopen. simpl.
        match goal with
        | |- context [callback ?x ?y ?z] =>
            by destruct (callback_fields x y z) as (_ & _ & -> & _)
        end. }
      unfold toggle, outOfRange. rewrite C3.
      destruct (Z.ltb_spec index 0); [lia|]. simpl.
      destruct (Z.leb_spec (Z.of_nat (length (items a))) index); [lia|].
      rewrite Hitems at 1. rewrite list_lookup_insert_eq by done. simpl.
      unfold open, outOfRange. rewrite C3.
      destruct (Z.ltb_spec index 0); [lia|]. simpl.
      destruct (Z.leb_spec (Z.of_nat (length (items a))) index); [lia|].
      rewrite Hitems at 1. rewrite list_lookup_insert_eq by done. simpl.
      rewrite C1, Hm. simpl.
      match goal with
      | |- context [callback ?x ?y ?z] =>
          destruct (callback_fields x y z) as (_ & _ & -> & _)
      end.
      simpl. rewrite Hitems, list_insert_insert_eq.
      apply list_insert_id. rewrite Hit. f_equal. destruct it; simpl in *. congruence.
  - split.
    + intros j Hj. rewrite open_multi by done.
      destruct (Z.eqb_spec (Z.of_nat j) index); [lia|]. by rewrite orb_false_r.
    + assert (Hitems : items (open index a) = <[Z.to_nat index := mkItem true true]> (items a)).
      { unfold open, outOfRange.
        destruct (Z.ltb_spec index 0); [lia|]. simpl.
        destruct (Z.leb_spec (Z.of_nat (length (items a))) index); [lia|].
        rewrite Hit, Hopen, Hm. simpl.
        match goal with
        | |- context [callback ?x ?y ?z] =>
            by destruct (callback_fields x y z) as (_ & _ & -> & _)
        end. }
      unfold toggle, outOfRange. rewrite open_length.
      destruct (Z.ltb_spec index 0); [lia|]. simpl.
      destruct (Z.leb_spec (Z.of_nat (length (items a))) index); [lia|].
      rewrite Hitems at 1. rewrite list_lookup_insert_eq by done. simpl.
      unfold close, outOfRange. rewrite open_length.
      destruct (Z.ltb_spec index 0); [lia|]. simpl.
      destruct (Z.leb_spec (Z.of_nat (length (items a))) index); [lia|].
      rewrite Hitems at 1. rewrite list_lookup_insert_eq by done. simpl.
      match goal with
      | |- context [callback ?x ?y ?z] =>
          destruct (callback_fields x y z) as (_ & _ & -> & _)
      end.
      simpl. rewrite Hitems, list_insert_insert_eq.
      apply list_insert_id. rewrite Hit. f_equal. destruct it; simpl in *. congruence.
Qed.

Lemma toggle_twice_restores_witness :
  let a := exec (Toggle 0) (new true false [] 3) in
  (forall j : nat, Z.of_nat j <> 1 -> isPanelOpen j (toggle 1 a) = isPanelOpen j a) /\
  items (toggle 1 (toggle 1 a)) = items a.
Proof.
  intros a. apply (toggle_twice_restores a 1).
  - apply reachable_exec, reachable_new.
  - reflexivity.
Defined.

End AccordionMoreFacts.

(** ** The theme toggle *)

Section ThemeToggleFacts.
Import ThemeToggle.

Lemma click_saved_agrees (p : t) : saved_agrees (click p).
Proof. unfold click. destruct (isDarkMode p); [by right | by left]. Qed.

Lemma exec_saved_agrees (o : op) (p : t) : saved_agrees p -> saved_agrees (exec o p).
Proof.
  intros Hp. destruct o as [|matches|]; simpl.
  - apply click_saved_agrees.
  - destruct Hp as [[Hs Hd]|[Hs Hd]]; unfold systemChange; rewrite Hs; simpl;
      [left | right]; done.
  - unfold toggleTheme. destruct (isDarkMode p); [by right | by left].
Qed.

(** X15.  A click on the theme button saves the theme it sets.  From
    then on, whatever clicks, system preference changes and calls of
    [toggleTheme()] follow, a reload of the page shows the theme that was
    showing, whatever the system prefers; and the system preference no
    longer changes the theme.  Without a saved theme the page follows the
    system preference. *)
Theorem theme_survives_reload :
  (forall (p : t) (ops : list op) (prefersDark : bool) (aria : option jsstring),
     let q := fold_left (fun p o => exec o p) ops (click p) in
     getCurrentTheme (load prefersDark (fresh (savedTheme q) aria)) = getCurrentTheme q /\
     forall matches : bool, systemChange matches q = q)
  /\
  (forall (prefersDark matches : bool) (aria : option jsstring),
     getCurrentTheme (load prefersDark (fresh None aria))
       = (if prefersDark then str "dark" else str "light") /\
     getCurrentTheme (systemChange matches (load prefersDark (fresh None aria)))
       = (if matches then str "dark" else str "light")).
Proof.
  split.
  - intros p ops prefersDark aria q.
    assert (Hq : saved_agrees q).
    { subst q. generalize (click_saved_agrees p). generalize (click p).
      induction ops as [|o ops IH]; simpl; intros p0 Hp0; [done|].
      apply IH. by apply exec_saved_agrees. }
    destruct Hq as [[Hs Hd]|[Hs Hd]].
    + split.
      * unfold load, fresh, getCurrentTheme. rewrite Hs, Hd. by destruct prefersDark.
      * intros matches. unfold systemChange. by rewrite Hs.
    + split.
      * unfold load, fresh, getCurrentTheme. rewrite Hs, Hd. by destruct prefersDark.
      * intros matches. unfold systemChange. by rewrite Hs.
  - intros prefersDark matches aria.
    by destruct prefersDark, matches.
Qed.

End ThemeToggleFacts.

(** ** CSRFProtection *)

Section CSRFProtectionFacts.
Import CSRFProtection.

Lemma attached_form_passes (c : t) (formId : jsstring) (v : option jsstring) :
  forms c !! formId = Some v ->
  (token c = stored c \/ token c = None) ->
  is_Some (stored c) ->
  submitPasses formId (attachToForm formId c) = true.
Proof.
  intros Hform Htok [s Hs]. unfold attachToForm, submitPasses. rewrite Hform. simpl.
  rewrite lookup_insert_eq. unfold validateToken, getToken. simpl.
  apply bool_decide_eq_true. rewrite Hs.
  destruct Htok as [-> | ->]; rewrite ?Hs; simpl; [|done].
  by destruct (PropertyFilter.truthy s).
Qed.

(** X16.  The token round trip: after [new CSRFProtection()], whatever
    the session storage held, a form that [attachToForm] has been called
    on passes the check of the submit listener. *)
Theorem attached_token_validates (fresh : jsstring) (stored0 : option jsstring)
    (forms0 : gmap jsstring (option jsstring)) (formId : jsstring) (v : option jsstring) :
  forms0 !! formId = Some v ->
  submitPasses formId (attachToForm formId (new fresh stored0 forms0)) = true.
Proof.
  intros Hform. unfold new, init. simpl.
  destruct (negb _) eqn:Hneg.
  - apply (attached_form_passes _ formId v); simpl; [done | by left | by eexists].
  - apply (attached_form_passes _ formId v); simpl; [done | by left |].
    destruct stored0; [by eexists | done].
Qed.

Lemma attached_token_validates_witness :
  submitPasses (str "contact-form")
    (attachToForm (str "contact-form")
       (new (str "uuid-1") None {[ str "contact-form" := None ]})) = true.
Proof.
  apply (attached_token_validates (str "uuid-1") None _ (str "contact-form") None).
  reflexivity.
Defined.

(** X17.  [refreshToken()] leaves the forms as they are: a form that
    passed the check is refused after the token is refreshed to a
    different value, until [attachToForm] is called on it again. *)
Theorem refreshed_token_needs_reattaching (c : t) (formId fresh : jsstring) :
  submitPasses formId c = true ->
  Some fresh <> stored c ->
  submitPasses formId (refreshToken fresh c) = false /\
  submitPasses formId (attachToForm formId (refreshToken fresh c)) = true.
Proof.
  intros Hpass Hnew. unfold submitPasses in Hpass.
  destruct (forms c !! formId) as [[value|]|] eqn:Hform; try done.
  apply bool_decide_eq_true in Hpass. split.
  - unfold submitPasses, refreshToken, generateToken, validateToken. simpl.
    rewrite Hform. apply bool_decide_eq_false. intros [= ->]. congruence.
  - apply (attached_form_passes _ formId (Some value)); simpl; [done | by left | by eexists].
Qed.

Lemma refreshed_token_needs_reattaching_witness :
  let c := attachToForm (str "f") (new (str "uuid-1") None {[ str "f" := None ]}) in
  submitPasses (str "f") (refreshToken (str "uuid-2") c) = false /\
  submitPasses (str "f") (attachToForm (str "f") (refreshToken (str "uuid-2") c)) = true.
Proof.
  intros c. apply (refreshed_token_needs_reattaching c (str "f") (str "uuid-2")).
  - reflexivity.
  - vm_compute. discriminate.
Defined.

End CSRFProtectionFacts.

(** ** PropertyFilter on the data of the page *)

Section FilterPageFacts.
Import PropertyFilter FilterEvents FilterPage.
Context `{Platform}.

Lemma formatted_property (propertiesData : list listing) (p : Property.t) :
  p ∈ formattedProperties propertiesData ->
  Property.price_amount p = None /\ Property.type p = None /\
  exists tags0, Property.tags p = Some (List.map normaliseTag tags0).
Proof.
  unfold formattedProperties.
  intros (index & Hp)%list_elem_of_lookup.
  rewrite list_lookup_imap in Hp.
  destruct (propertiesData !! index) as [prop|]; [|done].
  injection Hp as <-. simpl. eauto.
Qed.

Lemma passes_without_price (f : Filters.t) (lo hi : option jsnum) (p : Property.t) :
  Property.price_amount p = None ->
  passes (Filters.setPrices f lo hi) p = passes (Filters.setPrices f None None) p.
Proof.
  intros Hp. unfold passes. cbn [Filters.setPrices Filters.search Filters.bedrooms
    Filters.bathrooms Filters.propertyType Filters.minPrice Filters.maxPrice Filters.tags].
  rewrite Hp.
  destruct lo as [[z|]|], hi as [[z'|]|]; reflexivity.
Qed.

Lemma passes_without_type (f : Filters.t) (p : Property.t) :
  Property.type p = None ->
  truthy (Filters.propertyType f) = true ->
  passes f p = false.
Proof.
  intros Hp Ht. unfold passes. rewrite Hp, Ht.
  rewrite bool_decide_eq_false_2 by done. cbn [andb negb].
  repeat match goal with
         | |- (if ?c then false else _) = false => destruct c; [done|]
         end.
  done.
Qed.

Lemma filter_agree {A} (f g : A -> bool) (l : list A) :
  (forall x, x ∈ l -> f x = g x) -> List.filter f l = List.filter g l.
Proof.
  intros Hfg. apply List.filter_ext_in. intros x Hx. apply Hfg. by apply list_elem_of_In.
Qed.

Lemma filter_none {A} (f : A -> bool) (l : list A) :
  (forall x, x ∈ l -> f x = false) -> List.filter f l = [].
Proof.
  induction l as [|x l IH]; simpl; intros Hf; [done|].
  rewrite Hf by apply list_elem_of_here. apply IH.
  intros y Hy. apply Hf. by apply list_elem_of_further.
Qed.

(** X18.  The script of the page builds the properties of the filter
    without [price_amount] and without [type].  On these properties the
    price bounds select nothing: the filtered list is the same with any
    bounds as with none; and every choice of a property type leaves the
    filtered list empty. *)
Theorem page_data_defeats_price_and_type (propertiesData : list listing)
    (pf : PropertyFilter.t) :
  allProperties pf = formattedProperties propertiesData ->
  (forall lo hi : option jsnum,
     filteredProperties (applyFilters (setFilters_ pf (Filters.setPrices (filters pf) lo hi)))
     = filteredProperties
         (applyFilters (setFilters_ pf (Filters.setPrices (filters pf) None None))))
  /\
  (forall type : jsstring,
     truthy type = true ->
     filteredProperties
       (applyFilters (setFilters_ pf (Filters.setPropertyType (filters pf) type))) = []).
Proof.
  intros Hall. split.
  - intros lo hi. rewrite !applyFilters_filtered. simpl. rewrite Hall.
    apply filter_agree. intros p Hp.
    apply passes_without_price. by apply (formatted_property propertiesData).
  - intros type Ht. rewrite applyFilters_filtered. simpl. rewrite Hall.
    apply filter_none. intros p Hp.
    apply passes_without_type; [|done]. by apply (formatted_property propertiesData).
Qed.

Lemma normaliseTag_never_family (tag : jsstring) :
  normaliseTag tag <> str "Family Friendly".
Proof.
  unfold normaliseTag.
  destruct (includes tag (str "Section 8")); [done|].
  destruct (includes tag (str "HUD-VASH")); [done|].
  destruct (includes tag (str "Pet")); simpl; [done|].
  destruct (includes tag (str "Family")) eqn:Hf; [done|].
  intros ->. vm_compute in Hf. done.
Qed.

(** X19.  The script renames every tag that contains "Pet" or "Family"
    to "Pet Friendly", so no property of the page carries the tag
    "Family Friendly" that the filter bar offers: with that tag selected
    the filtered list is empty. *)
Theorem family_friendly_tag_matches_nothing (propertiesData : list listing)
    (pf : PropertyFilter.t) :
  allProperties pf = formattedProperties propertiesData ->
  str "Family Friendly" ∈ Filters.tags (filters pf) ->
  filteredProperties (applyFilters pf) = [].
Proof.
  intros Hall Hsel. rewrite applyFilters_filtered, Hall.
  apply filter_none. intros p Hp.
  destruct (formatted_property propertiesData p Hp) as (_ & _ & tags0 & Htags).
  rewrite passes_tags. apply andb_false_iff. right.
  apply not_true_is_false. intros Hall'.
  rewrite forallb_forall in Hall'.
  specialize (Hall' (str "Family Friendly") (proj1 (list_elem_of_In _ _) Hsel)).
  unfold Array_includes in Hall'. apply bool_decide_eq_true in Hall'.
  rewrite Htags in Hall'. simpl in Hall'.
  apply list_elem_of_In, in_map_iff in Hall' as (tag & Htag & _).
  by apply (normaliseTag_never_family tag).
Qed.


Lemma render_keeps (pf : PropertyFilter.t) :
  allProperties (render pf) = allProperties pf /\
  filterBar (render pf) = filterBar pf /\
  filters (render pf) = filters pf /\
  debounceTimeout (render pf) = debounceTimeout pf /\
  debounceDelay (render pf) = debounceDelay pf.
Proof.
  unfold render. destruct (container pf); [|done].
  by destruct (_ =? _)%nat.
Qed.

Lemma updateResultsCount_keeps (pf : PropertyFilter.t) :
  allProperties (updateResultsCount pf) = allProperties pf /\
  filterBar (updateResultsCount pf) = filterBar pf /\
  filters (updateResultsCount pf) = filters pf /\
  debounceTimeout (updateResultsCount pf) = debounceTimeout pf /\
  debounceDelay (updateResultsCount pf) = debounceDelay pf.
Proof. unfold updateResultsCount. by destruct (filterBar pf) eqn:Hb. Qed.

(** Once the container and the filter bar exist, [render()] followed by
    [updateResultsCount()] shows the filtered list. *)
Lemma shown_consistent (pf : PropertyFilter.t) (children : list node) :
  container pf = Some children ->
  filterBar pf = true ->
  filteredProperties pf = List.filter (passes (filters pf)) (allProperties pf) ->
  consistent (updateResultsCount (render pf)).
Proof.
  intros Hc Hbar Hf.
  pose proof (render_container pf children Hc) as Hrc.
  pose proof (render_filtered pf) as Hrf.
  destruct (render_keeps pf) as (Hall & Hb & Hfl & _).
  unfold consistent, updateResultsCount. rewrite Hb, Hbar.
  cbn [setResults filteredProperties allProperties filters container filterBar
       resultsCount resultsLabel].
  rewrite Hrf, Hall, Hfl, Hrc, Hb. done.
Qed.

Lemma consistent_mounted (pf : PropertyFilter.t) :
  consistent pf -> (exists children, container pf = Some children) /\ filterBar pf = true.
Proof. intros (_ & Hc & Hb & _). eauto. Qed.

Lemma applyFilters_consistent (pf : PropertyFilter.t) (children : list node) :
  container pf = Some children -> filterBar pf = true ->
  consistent (applyFilters pf) /\ allProperties (applyFilters pf) = allProperties pf.
Proof.
  intros Hc Hb. split.
  - unfold applyFilters. by apply (shown_consistent _ children).
  - unfold applyFilters.
    rewrite (proj1 (updateResultsCount_keeps _)), (proj1 (render_keeps _)). done.
Qed.

Lemma passes_default (prop : Property.t) : passes Filters.default prop = true.
Proof. reflexivity. Qed.

Lemma filter_all {A} (f : A -> bool) (l : list A) :
  (forall x, f x = true) -> List.filter f l = l.
Proof.
  intros Hf. induction l as [|x l IH]; [done|].
  cbn [List.filter]. by rewrite Hf, IH.
Qed.

Lemma resetFilters_consistent (pf : PropertyFilter.t) (children : list node) :
  container pf = Some children -> filterBar pf = true ->
  consistent (resetFilters pf) /\ allProperties (resetFilters pf) = allProperties pf /\
  filters (resetFilters pf) = Filters.default /\
  debounceTimeout (resetFilters pf) = debounceTimeout pf /\
  debounceDelay (resetFilters pf) = debounceDelay pf.
Proof.
  intros Hc Hb. unfold resetFilters. cbv zeta. split.
  - apply (shown_consistent _ children); [done..|].
    cbn [setFiltered setFilters_ filteredProperties filters allProperties].
    symmetry. apply filter_all, passes_default.
  - destruct (updateResultsCount_keeps
                (render (setFiltered (setFilters_ pf Filters.default)
                           (allProperties (setFilters_ pf Filters.default)))))
      as (-> & _ & -> & -> & ->).
    destruct (render_keeps
                (setFiltered (setFilters_ pf Filters.default)
                   (allProperties (setFilters_ pf Filters.default))))
      as (-> & _ & -> & -> & ->).
    done.
Qed.

Lemma applyFiltersNow_showing (all : list Property.t) (w : world) (f : Filters.t -> Filters.t) :
  showing all w -> showing all (applyFiltersNow (updateFilters w f)).
Proof.
  intros [Hc Hall].
  destruct (consistent_mounted _ Hc) as [[children Hch] Hb].
  unfold showing. cbn [applyFiltersNow pf updateFilters setPf].
  destruct (applyFilters_consistent (setFilters_ (pf w) (f (filters (pf w)))) children)
    as [Hc' Hall']; [done..|].
  split; [done|]. by rewrite Hall'.
Qed.

Lemma setDebounceTimeout_consistent (p : PropertyFilter.t) (h : option nat) :
  consistent p -> consistent (setDebounceTimeout p h).
Proof. done. Qed.

Lemma debounce_pf (a : callback) (w : world) :
  pf (debounce a w) = setDebounceTimeout (pf w) (Some (nextHandle w)).
Proof. unfold debounce. by destruct (debounceTimeout (pf w)). Qed.

Lemma dispatch_showing (all : list Property.t) (e : event) (w : world) :
  showing all w -> showing all (dispatch e w).
Proof.
  intros Hw.
  assert (Hd : forall a s lo hi, showing all (debounce a (setControls w s lo hi))).
  { intros a s lo hi. unfold showing. rewrite debounce_pf. apply Hw. }
  destruct e; cbn [dispatch]; try apply Hd.
  - by apply (applyFiltersNow_showing all (setControls w [] (minPriceValue w) (maxPriceValue w))).
  - by apply applyFiltersNow_showing.
  - by apply applyFiltersNow_showing.
  - by apply applyFiltersNow_showing.
  - by apply applyFiltersNow_showing.
Qed.

Lemma runCallback_showing (all : list Property.t) (a : callback) (w : world) :
  showing all w -> showing all (runCallback a w).
Proof. intros Hw. destruct a; cbn [runCallback]; by apply applyFiltersNow_showing. Qed.

Lemma fire_showing (all : list Property.t) (rounds : nat) (target : Z) (w : world) :
  showing all w -> showing all (fire rounds target w).
Proof.
  revert w. induction rounds as [|rounds IH]; intros w Hw; cbn [fire]; [done|].
  destruct (nextDue target (timers w)) as [tm|]; [|done].
  cbv zeta. apply IH, runCallback_showing. apply Hw.
Qed.

Lemma advanceTo_showing (all : list Property.t) (target : Z) (w : world) :
  showing all w -> showing all (advanceTo target w).
Proof. intros Hw. unfold advanceTo. cbv zeta. by apply (fire_showing all _ target w). Qed.

Lemma resetClick_showing (all : list Property.t) (w : world) :
  showing all w -> showing all (resetClick w).
Proof.
  intros [Hc Hall].
  destruct (consistent_mounted _ Hc) as [[children Hch] Hb].
  destruct (resetFilters_consistent (pf w) children) as (Hc' & Hall' & _); [done..|].
  unfold showing, resetClick. cbn [pf setPf setControls].
  split; [done|]. by rewrite Hall'.
Qed.

Lemma start_showing (properties : list Property.t) :
  showing properties (start properties).
Proof.
  unfold showing, start. cbn [pf]. unfold new, init, construct.
  cbn [container]. split.
  - apply (shown_consistent _ []); [done..|].
    cbn [createFilterUI filteredProperties filters allProperties].
    symmetry. apply filter_all, passes_default.
  - rewrite (proj1 (updateResultsCount_keeps _)), (proj1 (render_keeps _)). done.
Qed.

Lemma runActions_showing (all : list Property.t) (actions : list (Z * FilterPage.action))
    (w : world) :
  showing all w -> showing all (runActions actions w).
Proof.
  revert w. induction actions as [|[t a] actions IH]; intros w Hw; cbn [runActions]; [done|].
  apply IH. destruct a; cbn [act].
  - by apply dispatch_showing, advanceTo_showing.
  - by apply resetClick_showing, advanceTo_showing.
Qed.

(** X20.  Whatever the user does to the filter bar (typing, selecting,
    clicking tags or a reset button, at any times) and whichever timers
    have fired in between, the page shows what the current filters
    select: the filtered list is the properties that pass them, in the
    container are their cards in order or else the placeholder, and the
    count and its label give their number. *)
Theorem page_shows_what_filters_select (properties : list Property.t)
    (actions : list (Z * FilterPage.action)) (horizon : Z) :
  let w := advanceTo horizon (runActions actions (start properties)) in
  allProperties (pf w) = properties /\
  filteredProperties (pf w) = List.filter (passes (filters (pf w))) properties /\
  container (pf w) =
    Some (match filteredProperties (pf w) with
          | [] => [NoResults]
          | _ :: _ =>
              imap (fun index prop => Card (createPropertyCard prop index))
                (filteredProperties (pf w))
          end) /\
  resultsCount (pf w) = length (filteredProperties (pf w)) /\
  resultsLabel (pf w) =
    (if (length (filteredProperties (pf w)) =? 1)%nat
     then str "property found" else str "properties found").
Proof.
  intros w.
  assert (Hw : showing properties w).
  { apply advanceTo_showing, runActions_showing, start_showing. }
  destruct Hw as [(Hf & Hc & _ & Hn & Hl) Hall].
  rewrite Hall in Hf. done.
Qed.


Lemma applyFiltersNow_filters (w : world) (f : Filters.t -> Filters.t) :
  filters (pf (applyFiltersNow (updateFilters w f))) = f (filters (pf w)).
Proof.
  cbn [applyFiltersNow pf updateFilters setPf]. unfold applyFilters.
  destruct (updateResultsCount_keeps
              (render (setFiltered (setFilters_ (pf w) (f (filters (pf w))))
                 (List.filter (passes (filters (setFilters_ (pf w) (f (filters (pf w))))))
                    (allProperties (setFilters_ (pf w) (f (filters (pf w)))))))))
    as (_ & _ & -> & _).
  destruct (render_keeps
              (setFiltered (setFilters_ (pf w) (f (filters (pf w))))
                 (List.filter (passes (filters (setFilters_ (pf w) (f (filters (pf w))))))
                    (allProperties (setFilters_ (pf w) (f (filters (pf w))))))))
    as (_ & _ & -> & _).
  done.
Qed.

(** X21.  [resetFilters()] leaves a pending debounce timer in place.
    The timer still fires, but its callback reads the controls that the
    reset has emptied: after a reset the filters are the default ones and
    every property is listed, before and after the timer has run, and the
    timer's run of [applyFilters()] is one with the default filters. *)
Theorem reset_outlasts_pending_timer (w : world) (at_ : Z) (a : callback) (horizon : Z) :
  toLowerCase [] = [] ->
  consistent (pf w) ->
  armed w at_ a ->
  let w' := advanceTo horizon (resetClick w) in
  filters (pf w') = Filters.default /\
  filteredProperties (pf w') = allProperties (pf w) /\
  (horizon < at_ -> armed w' at_ a) /\
  (at_ <= horizon ->
   timers w' = [] /\ applied w' = applied w ++ [(Z.max (now w) at_, Filters.default)]).
Proof.
  intros Hlower Hc (h & Ht & Hd) w'.
  destruct (consistent_mounted _ Hc) as [[children Hch] Hb].
  destruct (resetFilters_consistent (pf w) children) as (Hc' & Hall' & Hf' & Hd' & _);
    [done..|].
  assert (Harmed : armed (resetClick w) at_ a).
  { exists h. unfold resetClick. cbn [timers pf setPf setControls]. by rewrite Hd'. }
  assert (Hshow : showing (allProperties (pf w)) (resetClick w)).
  { by apply resetClick_showing. }
  apply (advanceTo_showing _ horizon) in Hshow. fold w' in Hshow.
  destruct Hshow as [(Hfilt & _) Hall].
  assert (Hfilters : filters (pf w') = Filters.default).
  { destruct (Z.lt_ge_cases horizon at_) as [Hlt|Hge].
    - destruct (advanceTo_waits _ _ _ horizon Harmed Hlt) as (_ & _ & Hpf & _).
      subst w'. rewrite Hpf. unfold resetClick. by cbn [pf setPf].
    - destruct (advanceTo_fires _ _ _ horizon Harmed Hge) as (_ & _ & Hfl & _).
      subst w'. rewrite Hfl. unfold resetClick.
      cbn [pf setPf setControls searchValue minPriceValue maxPriceValue].
      rewrite Hf'. destruct a.
      + rewrite Hlower. done.
      + done. }
  split; [done|]. split.
  { rewrite Hfilt, Hfilters, Hall. apply filter_all, passes_default. }
  split.
  - intros Hlt. by destruct (advanceTo_waits _ _ _ horizon Harmed Hlt) as (? & _).
  - intros Hge.
    destruct (advanceTo_fires _ _ _ horizon Harmed Hge) as (Htm & _ & _ & _ & _ & Happ).
    split; [done|]. fold w' in Happ. rewrite Happ, Hfilters. done.
Qed.

Lemma spliceFirst_pushed (tag : jsstring) (array : list jsstring) :
  tag ∉ array -> spliceFirst tag (array ++ [tag]) = array.
Proof.
  induction array as [|x array IH]; intros Hn; cbn [spliceFirst app].
  - by rewrite bool_decide_eq_true_2.
  - apply not_elem_of_cons in Hn as [Hx Hn].
    rewrite bool_decide_eq_false_2 by done. by rewrite IH.
Qed.

Lemma spliceFirst_push_back (tag : jsstring) (array : list jsstring) :
  tag ∈ array -> spliceFirst tag array ++ [tag] ≡ₚ array.
Proof.
  induction array as [|x array IH]; intros Hin; [by apply elem_of_nil in Hin|].
  cbn [spliceFirst]. case_bool_decide as Hx.
  - subst x. symmetry. apply Permutation_cons_append.
  - apply elem_of_cons in Hin as [->|Hin]; [done|].
    cbn [app]. by rewrite IH.
Qed.

Lemma spliceFirst_sub (tag x : jsstring) (array : list jsstring) :
  x ∈ spliceFirst tag array -> x ∈ array.
Proof.
  induction array as [|y array IH]; cbn [spliceFirst]; [done|].
  case_bool_decide.
  - apply list_elem_of_further.
  - intros [->|Hx]%elem_of_cons; [apply list_elem_of_here|].
    apply list_elem_of_further. by apply IH.
Qed.

Lemma spliceFirst_NoDup (tag : jsstring) (array : list jsstring) :
  NoDup array -> NoDup (spliceFirst tag array) /\ tag ∉ spliceFirst tag array.
Proof.
  induction 1 as [|x array Hx Hnd IH]; cbn [spliceFirst].
  - split; [constructor|apply not_elem_of_nil].
  - case_bool_decide as Heq.
    + subst x. done.
    + destruct IH as [IH1 IH2]. split.
      * constructor; [|done]. intros Hin. by apply Hx, (spliceFirst_sub tag).
      * apply not_elem_of_cons. split; [congruence|done].
Qed.

(** What a click on a tag button does to the selected tags. *)
Lemma tagClick_filters (tag : jsstring) (w : world) :
  filters (pf (dispatch (TagClick tag) w)) =
  Filters.setTags (filters (pf w))
    (if Array_includes (Filters.tags (filters (pf w))) tag
     then spliceFirst tag (Filters.tags (filters (pf w)))
     else Filters.tags (filters (pf w)) ++ [tag]).
Proof. cbn [dispatch]. by rewrite applyFiltersNow_filters. Qed.

(** No tag is selected twice. *)
Lemma dispatch_tags_NoDup (e : event) (w : world) :
  NoDup (Filters.tags (filters (pf w))) ->
  NoDup (Filters.tags (filters (pf (dispatch e w)))).
Proof.
  intros Hnd.
  assert (Hd : forall a s lo hi,
             NoDup (Filters.tags (filters (pf (debounce a (setControls w s lo hi)))))).
  { intros a s lo hi. by rewrite debounce_pf. }
  destruct e; try apply Hd.
  1-4: cbn [dispatch]; rewrite applyFiltersNow_filters; apply Hnd.
  rewrite tagClick_filters. cbn [Filters.setTags Filters.tags].
  unfold Array_includes. case_bool_decide as Hin.
  - by apply spliceFirst_NoDup.
  - apply NoDup_app. split; [done|]. split; [|apply NoDup_singleton].
    intros x Hx ->%list_elem_of_singleton. done.
Qed.

Lemma fire_tags (rounds : nat) (target : Z) (w : world) :
  Filters.tags (filters (pf (fire rounds target w))) = Filters.tags (filters (pf w)).
Proof.
  revert w. induction rounds as [|rounds IH]; intros w; cbn [fire]; [done|].
  destruct (nextDue target (timers w)) as [tm|]; [|done].
  cbv zeta. rewrite IH.
  destruct (FilterEvents.action tm); cbn [runCallback];
    rewrite applyFiltersNow_filters; done.
Qed.

Lemma runActions_tags_NoDup (all : list Property.t)
    (actions : list (Z * FilterPage.action)) (w : world) :
  showing all w ->
  NoDup (Filters.tags (filters (pf w))) ->
  NoDup (Filters.tags (filters (pf (runActions actions w)))).
Proof.
  revert w. induction actions as [|[t a] actions IH]; intros w Hw Hnd;
    cbn [runActions]; [done|].
  assert (Hadv : NoDup (Filters.tags (filters (pf (advanceTo t w))))).
  { unfold advanceTo. cbv zeta. cbn [pf setNow]. by rewrite fire_tags. }
  pose proof (advanceTo_showing all t w Hw) as Hw'.
  destruct a; cbn [act].
  - apply IH; [by apply dispatch_showing|by apply dispatch_tags_NoDup].
  - apply IH; [by apply resetClick_showing|].
    destruct Hw' as [Hc' _].
    destruct (consistent_mounted _ Hc') as [[children Hch] Hb].
    destruct (resetFilters_consistent (pf (advanceTo t w)) children) as (_ & _ & Hf & _);
      [done..|].
    unfold resetClick. cbn [pf setPf]. rewrite Hf. constructor.
Qed.

Lemma start_filters (properties : list Property.t) :
  filters (pf (start properties)) = Filters.default.
Proof.
  unfold start. cbn [pf]. unfold new, init, construct. cbn [container].
  rewrite (proj1 (proj2 (proj2 (updateResultsCount_keeps _)))).
  rewrite (proj1 (proj2 (proj2 (render_keeps _)))). done.
Qed.

Lemma passes_tags_perm (f : Filters.t) (tags' : list jsstring) (prop : Property.t) :
  tags' ≡ₚ Filters.tags f ->
  passes (Filters.setTags f tags') prop = passes f prop.
Proof.
  intros Hp. rewrite (passes_tags f), (passes_tags (Filters.setTags f tags')).
  cbn [Filters.setTags Filters.tags]. f_equal.
  apply eq_true_iff_eq. rewrite !forallb_forall.
  split; intros Hall x Hx; apply Hall;
    apply list_elem_of_In; apply list_elem_of_In in Hx.
  - by rewrite Hp.
  - by rewrite <- Hp.
Qed.

(** X22.  At any point of a session, clicking the same tag button twice
    gives back the list that was shown: the second click undoes the first.
    The selected tags are the same up to their order (a tag that was
    selected moves to the end), and all the other criteria are as they
    were. *)
Theorem tag_click_twice_restores (properties : list Property.t)
    (actions : list (Z * FilterPage.action)) (tag : jsstring) :
  let w := runActions actions (start properties) in
  let w2 := dispatch (TagClick tag) (dispatch (TagClick tag) w) in
  filteredProperties (pf w2) = filteredProperties (pf w) /\
  exists tags' : list jsstring,
    filters (pf w2) = Filters.setTags (filters (pf w)) tags' /\
    tags' ≡ₚ Filters.tags (filters (pf w)) /\
    (tag ∉ Filters.tags (filters (pf w)) -> tags' = Filters.tags (filters (pf w))).
Proof.
  intros w w2.
  assert (Hw : showing properties w) by apply runActions_showing, start_showing.
  assert (Hnd : NoDup (Filters.tags (filters (pf w)))).
  { apply (runActions_tags_NoDup properties); [apply start_showing|].
    rewrite start_filters. constructor. }
  assert (Hw2 : showing properties w2) by by do 2 apply dispatch_showing.
  assert (Hex : exists tags' : list jsstring,
             filters (pf w2) = Filters.setTags (filters (pf w)) tags' /\
             tags' ≡ₚ Filters.tags (filters (pf w)) /\
             (tag ∉ Filters.tags (filters (pf w)) -> tags' = Filters.tags (filters (pf w)))).
  { subst w2. rewrite tagClick_filters, tagClick_filters.
    cbn [Filters.setTags Filters.tags Filters.bedrooms Filters.bathrooms Filters.search
         Filters.minPrice Filters.maxPrice Filters.propertyType].
    unfold Array_includes.
    destruct (decide (tag ∈ Filters.tags (filters (pf w)))) as [Hin|Hin].
    - rewrite (bool_decide_eq_true_2 _ Hin).
      destruct (spliceFirst_NoDup tag _ Hnd) as [_ Hout].
      rewrite (bool_decide_eq_false_2 _ Hout).
      eexists. split; [reflexivity|]. split; [by apply spliceFirst_push_back|done].
    - rewrite (bool_decide_eq_false_2 _ Hin).
      rewrite bool_decide_eq_true_2 by (apply elem_of_app; right; apply list_elem_of_here).
      rewrite spliceFirst_pushed by done.
      eexists. split; [reflexivity|]. split; done. }
  split; [|done].
  destruct Hex as (tags' & Hf2 & Hperm & _).
  destruct Hw as [(Hf & _) Hall], Hw2 as [(Hf' & _) Hall'].
  rewrite Hf, Hf', Hall, Hall', Hf2.
  apply filter_agree. intros p _. by apply passes_tags_perm.
Qed.

End FilterPageFacts.

Lemma page_data_defeats_price_and_type_witness :
  (forall lo hi : option jsnum,
     PropertyFilter.filteredProperties
       (@PropertyFilter.applyFilters asciiPlatform
          (PropertyFilter.setFilters_ PageSamples.page
             (PropertyFilter.Filters.setPrices
                (PropertyFilter.filters PageSamples.page) lo hi)))
     = PropertyFilter.filteredProperties
         (@PropertyFilter.applyFilters asciiPlatform
            (PropertyFilter.setFilters_ PageSamples.page
               (PropertyFilter.Filters.setPrices
                  (PropertyFilter.filters PageSamples.page) None None))))
  /\
  (forall type : jsstring,
     PropertyFilter.truthy type = true ->
     PropertyFilter.filteredProperties
       (@PropertyFilter.applyFilters asciiPlatform
          (PropertyFilter.setFilters_ PageSamples.page
             (PropertyFilter.Filters.setPropertyType
                (PropertyFilter.filters PageSamples.page) type))) = []).
Proof.
  apply (@page_data_defeats_price_and_type asciiPlatform PageSamples.propertiesData
           PageSamples.page).
  reflexivity.
Defined.

Lemma family_friendly_tag_matches_nothing_witness :
  PropertyFilter.filteredProperties
    (@PropertyFilter.applyFilters asciiPlatform
       (PropertyFilter.setFilters_ PageSamples.page
          (PropertyFilter.Filters.setTags (PropertyFilter.filters PageSamples.page)
             [str "Family Friendly"]))) = [].
Proof.
  apply (@family_friendly_tag_matches_nothing asciiPlatform PageSamples.propertiesData).
  - reflexivity.
  - apply list_elem_of_here.
Defined.

Lemma reset_outlasts_pending_timer_witness :
  let w := @FilterEvents.dispatch asciiPlatform (FilterEvents.SearchInput (str "oak"))
             (FilterEvents.start Samples.listing) in
  let w' := @FilterEvents.advanceTo asciiPlatform 1000 (FilterPage.resetClick w) in
  PropertyFilter.filters (FilterEvents.pf w') = PropertyFilter.Filters.default /\
  PropertyFilter.filteredProperties (FilterEvents.pf w') = Samples.listing /\
  FilterEvents.timers w' = [] /\
  FilterEvents.applied w' = [(300, PropertyFilter.Filters.default)].
Proof.
  intros w w'.
  destruct (@reset_outlasts_pending_timer asciiPlatform w 300 FilterEvents.SearchCommit 1000)
    as (Hf & Hl & _ & Ht).
  - reflexivity.
  - repeat split; reflexivity.
  - exists 0%nat. split; reflexivity.
  - destruct Ht as [Ht Ha]; [lia|]. repeat split; assumption.
Defined.

(** ** The document as a tree *)

Section DomTreeFacts.
Import Dom.

Lemma locate_spec (r : nat) (before l bf af : list node) (n : node) :
  locate r before l = Some (bf, n, af) ->
  exists pre, l = pre ++ n :: af /\ bf = rev pre ++ before /\ ref n = r /\
              Forall (fun m => ref m <> r) pre.
Proof.
  revert before. induction l as [|m l IH]; intros before; cbn [locate]; [done|].
  destruct (Nat.eqb_spec (ref m) r) as [Heq|Hne].
  - intros [= <- <- <-]. exists []. done.
  - intros Hl. destruct (IH _ Hl) as (pre & -> & -> & Hr & Hpre).
    exists (m :: pre). cbn [rev app]. rewrite <- app_assoc. cbn [app].
    repeat split; try done. by constructor.
Qed.

Lemma locate_app (r : nat) (before pre af : list node) (n : node) :
  Forall (fun m => ref m <> r) pre -> ref n = r ->
  locate r before (pre ++ n :: af) = Some (rev pre ++ before, n, af).
Proof.
  intros Hpre Hn. revert before.
  induction Hpre as [|m pre Hm Hpre IH]; intros before; cbn [locate app rev].
  - by rewrite (proj2 (Nat.eqb_eq _ _) Hn).
  - rewrite (proj2 (Nat.eqb_neq _ _) Hm), IH. by rewrite <- app_assoc.
Qed.

Lemma locate_found (r : nat) (before l : list node) :
  r ∈ ref <$> l -> is_Some (locate r before l).
Proof.
  revert before. induction l as [|m l IH]; intros before; cbn [locate fmap list_fmap].
  - by intros ?%elem_of_nil.
  - destruct (Nat.eqb_spec (ref m) r) as [Heq|Hne]; [eauto|].
    intros [?|Hin]%elem_of_cons; [done|]. by apply IH.
Qed.

Lemma below_spec (d : nat) (after inner rest : list node) :
  below d after = (inner, rest) ->
  after = inner ++ rest /\ Forall (fun n => (d < depth n)%nat) inner /\
  (forall m rest', rest = m :: rest' -> (depth m <= d)%nat).
Proof.
  revert inner rest. induction after as [|n after IH]; intros inner rest; cbn [below].
  - intros [= <- <-]. done.
  - destruct (Nat.ltb_spec d (depth n)) as [Hlt|Hge].
    + destruct (below d after) as [inner' rest'].
      intros [= <- <-]. destruct (IH _ _ eq_refl) as (-> & Hin & Hrest).
      repeat split; try done. by constructor.
    + intros [= <- <-]. repeat split; try done.
      intros m rest' [= <- <-]. done.
Qed.

Lemma below_app (d : nat) (inner rest : list node) :
  Forall (fun n => (d < depth n)%nat) inner ->
  (forall m rest', rest = m :: rest' -> (depth m <= d)%nat) ->
  below d (inner ++ rest) = (inner, rest).
Proof.
  intros Hin Hrest. induction Hin as [|n inner Hn Hin IH]; cbn [app below].
  - destruct rest as [|m rest']; [done|]. cbn [below].
    specialize (Hrest m rest' eq_refl).
    by rewrite (proj2 (Nat.ltb_ge _ _) Hrest).
  - by rewrite (proj2 (Nat.ltb_lt _ _) Hn), IH.
Qed.

Lemma find_app_first {A} (p : A -> bool) (l1 l2 : list A) (x : A) :
  List.find p l1 = None -> p x = true -> List.find p (l1 ++ x :: l2) = Some x.
Proof.
  intros Hnone Hx. induction l1 as [|y l1 IH]; cbn [app List.find] in *.
  - by rewrite Hx.
  - destruct (p y); [done|]. by apply IH.
Qed.

Lemma find_app_none {A} (p : A -> bool) (l1 l2 : list A) :
  List.find p (l1 ++ l2) = None -> List.find p l1 = None.
Proof.
  induction l1 as [|y l1 IH]; cbn [app List.find]; [done|].
  by destruct (p y).
Qed.

Lemma find_elem_of {A} (p : A -> bool) (l : list A) (x : A) :
  List.find p l = Some x -> x ∈ l /\ p x = true.
Proof. intros [Hin Hp]%find_some. split; [by apply list_elem_of_In|done]. Qed.


(** An element created for a query that found nothing, and inserted
    before a descendant of the element asked or appended to that
    element, is what the query finds afterwards. *)
Lemma created_is_found (l : list node) (r : nat) (child : nat -> node)
    (test : node -> bool) (before : option node) :
  NoDup (ref <$> l) -> r = body \/ r ∈ ref <$> l ->
  (forall d, depth (child d) = d) ->
  (forall d, test (child d) = true) ->
  querySelector r test l = None ->
  (forall b, before = Some b -> b ∈ descendants r l) ->
  let l' :=
    match before with
    | Some b => insertBefore (ref b) child l
    | None => appendChild r child l
    end in
  exists d, querySelector r test l' = Some (child d).
Proof.
  intros Hnd Hr Hdepth Hchild Hnone Hbefore l'. subst l'.
  unfold querySelector, descendants, appendChild in *.
  destruct (Nat.eqb_spec r body) as [Hbody|Hbody].
  - destruct before as [b|].
    + specialize (Hbefore b eq_refl). unfold insertBefore.
      destruct (locate_found (ref b) [] l) as [[[bf s] af] Hs].
      { by apply list_elem_of_fmap_2. }
      rewrite Hs. destruct (locate_spec _ _ _ _ _ _ Hs) as (pre & -> & -> & _ & _).
      rewrite rev_append_rev, app_nil_r, rev_involutive.
      exists (depth s). apply find_app_first; [|done]. by eapply find_app_none.
    + exists 0%nat. by apply find_app_first.
  - destruct Hr as [?|Hr]; [done|].
    destruct (locate_found r [] l Hr) as [[[bf p] af] Hp].
    rewrite Hp in *. destruct (locate_spec _ _ _ _ _ _ Hp) as (pre & -> & -> & Hrp & Hpre).
    destruct (below (depth p) af) as [inner rest] eqn:Hb. cbn [fst] in *.
    destruct (below_spec _ _ _ _ Hb) as (-> & Hinner & Hrest).
    destruct before as [b|].
    + specialize (Hbefore b eq_refl).
      apply list_elem_of_split in Hbefore as (i1 & i2 & ->).
      unfold insertBefore.
      assert (Hfirst : Forall (fun m => ref m <> ref b) (pre ++ p :: i1)).
      { rewrite app_nil_r in *. clear -Hnd. rewrite !fmap_app, !fmap_cons, !fmap_app, !fmap_cons in Hnd.
        replace ((ref <$> pre) ++ ref p :: ((ref <$> i1) ++ ref b :: (ref <$> i2)) ++ (ref <$> rest))
          with (((ref <$> pre) ++ ref p :: (ref <$> i1)) ++ ref b :: ((ref <$> i2) ++ (ref <$> rest)))
          in Hnd by (by rewrite <- !app_assoc).
        apply NoDup_app in Hnd as (_ & Hnd & _).
        apply Forall_forall. intros m Hm Heq. apply (Hnd (ref m)).
        - replace ((ref <$> pre) ++ ref p :: (ref <$> i1)) with (ref <$> (pre ++ p :: i1))
            by (by rewrite fmap_app).
          by apply list_elem_of_fmap_2.
        - rewrite Heq. apply list_elem_of_here. }
      replace (pre ++ p :: (i1 ++ b :: i2) ++ rest)
        with ((pre ++ p :: i1) ++ b :: (i2 ++ rest))
        by (by rewrite <- !app_assoc).
      rewrite (locate_app (ref b) [] _ _ b Hfirst eq_refl).
      rewrite rev_append_rev, !app_nil_r, rev_involutive.
      replace ((pre ++ p :: i1) ++ child (depth b) :: b :: i2 ++ rest)
        with (pre ++ p :: (i1 ++ child (depth b) :: b :: i2) ++ rest).
      2:{ by repeat (rewrite <- ?app_assoc; cbn [app]). }
      rewrite (locate_app r [] _ _ p Hpre Hrp).
      assert (Hb' : (depth p < depth b)%nat).
      { rewrite Forall_app, Forall_cons in Hinner. tauto. }
      rewrite below_app; [| |done].
      2:{ rewrite !Forall_app, !Forall_cons in *. rewrite Hdepth. tauto. }
      cbn [fst]. exists (depth b). apply find_app_first; [|done]. by eapply find_app_none.
    + rewrite rev_append_rev, app_nil_r, rev_involutive.
      replace (pre ++ p :: inner ++ child (S (depth p)) :: rest)
        with (pre ++ p :: (inner ++ [child (S (depth p))]) ++ rest)
        by (by rewrite <- !app_assoc).
      rewrite (locate_app r [] _ _ p Hpre Hrp).
      rewrite below_app; [| |done].
      2:{ rewrite Forall_app, Forall_singleton, Hdepth. split; [done|lia]. }
      cbn [fst]. exists (S (depth p)). by apply find_app_first.
Qed.

End DomTreeFacts.

(** ** FormValidator: the form as a whole *)

Section FormSubmitFacts.
Import FormValidator FormSubmit.
Context `{Platform}.

(** Whether it returns or throws, [validateField] leaves the controls,
    the validators, the options and the tree as they are. *)
Lemma validateField_keeps (field : Field.t) (fv : FormValidator.t) :
  form (snd (validateField field fv)) = form fv /\
  custom (snd (validateField field fv)) = custom fv /\
  showSuccessState (snd (validateField field fv)) = showSuccessState fv /\
  formElement (snd (validateField field fv)) = formElement fv /\
  Dom.tree (document (snd (validateField field fv))) = Dom.tree (document fv) /\
  Dom.nextRef (document (snd (validateField field fv))) = Dom.nextRef (document fv) /\
  (forall r, getErrorContainer r (document (snd (validateField field fv)))
             = getErrorContainer r (document fv)).
Proof.
  destruct (collectErrors fv field) as [errors|] eqn:Herr.
  - destruct (validateField_returns fv field errors Herr) as (_ & _ & Hd & Hf & Hc & Hs & He).
    rewrite Hd.
    destruct (updateFieldUI_keeps field (mkState true (length errors =? 0)%nat errors) fv)
      as (Ht & Hn & Hg).
    done.
  - rewrite (validateField_throws fv field Herr). cbn [snd]. unfold touch.
    by destruct (fieldStates fv !! Field.id field).
Qed.

Lemma forEachField_spec (fv0 : FormValidator.t) (fields : list Field.t) (acc : bool)
    (fv : FormValidator.t) :
  form fv = form fv0 -> custom fv = custom fv0 ->
  let throws := fun f =>
    match collectErrors fv0 f with Threw => true | Returned _ => false end in
  let passes := fun f =>
    match collectErrors fv0 f with Returned [] => true | _ => false end in
  let r := forEachField fields acc fv in
  fst r = (if existsb throws fields then Threw else Returned (acc && forallb passes fields)) /\
  form (snd r) = form fv0 /\ custom (snd r) = custom fv0 /\
  (forall fieldId, fieldId ∉ List.map Field.id fields ->
     fieldStates (snd r) !! fieldId = fieldStates fv !! fieldId) /\
  (existsb throws fields = false -> NoDup (List.map Field.id fields) ->
   forall f, f ∈ fields ->
     exists errors, collectErrors fv0 f = Returned errors /\
       fieldStates (snd r) !! Field.id f =
       Some (mkState true (length errors =? 0)%nat errors)).
Proof.
  intros Hform Hcustom throws passes. revert acc fv Hform Hcustom.
  induction fields as [|field fields IH]; intros acc fv Hform Hcustom.
  - cbn [forEachField fst snd forallb existsb]. rewrite andb_true_r.
    repeat split; try done. intros _ _ f Hf. by apply elem_of_nil in Hf.
  - cbn [forEachField existsb forallb].
    pose proof (collectErrors_rules fv0 fv field Hform Hcustom) as Hsame.
    destruct (validateField_keeps field fv) as (Hf1 & Hc1 & _).
    unfold throws at 1, passes at 1.
    destruct (collectErrors fv0 field) as [errors|] eqn:Herr.
    + destruct (validateField_returns fv field errors) as (Hok & Hst & _); [congruence|].
      destruct (validateField field fv) as [ok fv1]. cbn [fst snd] in *. subst ok.
      specialize (IH (if negb (length errors =? 0)%nat && acc then false else acc) fv1).
      destruct IH as (IHok & IHf & IHc & IHout & IHin); [congruence..|].
      cbn [orb]. split; [|split; [done|split; [done|split]]].
      * rewrite IHok. destruct (existsb throws fields); [done|].
        f_equal. by destruct errors, acc.
      * intros fieldId Hout. cbn [List.map] in Hout.
        apply not_elem_of_cons in Hout as [Hne Hout].
        rewrite (IHout _ Hout), Hst. by rewrite lookup_insert_ne.
      * intros Hno Hnd f Hf. cbn [List.map] in Hnd. apply NoDup_cons in Hnd as [Hnew Hnd].
        apply elem_of_cons in Hf as [->|Hf].
        -- exists errors. split; [done|].
           rewrite (IHout _ Hnew), Hst. by rewrite lookup_insert_eq.
        -- cbn [existsb] in Hno. apply orb_false_elim in Hno as [_ Hno]. by apply IHin.
    + rewrite (validateField_throws fv field) in Hf1, Hc1 |- * by congruence.
      cbn [fst snd orb] in Hf1, Hc1 |- *.
      split; [done|]. split; [congruence|]. split; [congruence|]. split.
      2:{ intros Hno. cbn [existsb] in Hno. unfold throws at 1 in Hno.
          by rewrite Herr in Hno. }
      intros fieldId Hout. cbn [List.map] in Hout.
      apply not_elem_of_cons in Hout as [Hne Hout]. unfold touch.
      destruct (fieldStates fv !! Field.id field); [|done].
      cbn [fieldStates setFieldStates]. by rewrite lookup_insert_ne.
Qed.


Lemma forEachField_keeps (fields : list Field.t) (acc : bool) (fv : FormValidator.t) :
  let r := forEachField fields acc fv in
  form (snd r) = form fv /\ custom (snd r) = custom fv /\
  showSuccessState (snd r) = showSuccessState fv /\
  formElement (snd r) = formElement fv /\
  Dom.tree (document (snd r)) = Dom.tree (document fv) /\
  Dom.nextRef (document (snd r)) = Dom.nextRef (document fv).
Proof.
  revert acc fv. induction fields as [|field fields IH]; intros acc fv; [done|].
  cbn [forEachField].
  destruct (validateField_keeps field fv) as (Hf & Hc & Hs & He & Ht & Hn & _).
  destruct (validateField field fv) as [[ok|] fv1]; cbn [fst snd] in *; [|done].
  destruct (IH (if negb ok && acc then false else acc) fv1) as (IHf & IHc & IHs & IHe & IHt & IHn).
  cbv zeta. repeat split; congruence.
Qed.

(** X23.  [validateForm()] validates every control that has
    [data-validate] or [required], also after the first invalid one, and
    returns [true] exactly when none of them has an error; a check that
    throws ends the call.  When it returns and these controls have
    distinct ids, each of them ends up touched, with its own errors in
    its state. *)
Theorem validateForm_checks_every_field (fv : FormValidator.t) :
  let fields := List.filter validatable (form fv) in
  let throws := fun f =>
    match collectErrors fv f with Threw => true | Returned _ => false end in
  let passes := fun f =>
    match collectErrors fv f with Returned [] => true | _ => false end in
  fst (validateForm fv) =
    (if existsb throws fields then Threw else Returned (forallb passes fields)) /\
  (forall b, fst (validateForm fv) = Returned b ->
   NoDup (List.map Field.id fields) ->
   forall f, f ∈ fields ->
     exists errors, collectErrors fv f = Returned errors /\
       fieldStates (snd (validateForm fv)) !! Field.id f =
       Some (mkState true (length errors =? 0)%nat errors)).
Proof.
  intros fields throws passes.
  destruct (forEachField_spec fv fields true fv eq_refl eq_refl) as (Hok & _ & _ & _ & Hin).
  split; [exact Hok|].
  intros b Hb. apply Hin. fold fields in Hb. unfold validateForm in Hb.
  fold fields in Hb. rewrite Hok in Hb.
  by destruct (existsb _ fields).
Qed.

(** X24.  A control that has an error container, was shown an error
    and is then corrected: the second validation returns [true].  With
    [showSuccessState] the error container is emptied and hidden; without
    it the classes and [aria-invalid] are removed but the container still
    displays the old message. *)
Theorem corrected_field_message (fv : FormValidator.t) (form' : list Field.t)
    (field field' : Field.t) (e : errorValue) (es : list errorValue) :
  Field.ref field' = Field.ref field ->
  is_Some (errorContainer (uiOf fv field)) ->
  collectErrors fv field = Returned (e :: es) ->
  collectErrors (withForm form' fv) field' = Returned [] ->
  let fv1 := snd (validateField field fv) in
  let r := validateField field' (withForm form' fv1) in
  fst r = Returned true /\
  uiOf (snd r) field =
    if showSuccessState fv
    then mkUI (Some ([], Some (str "none"))) (Some (str "false")) (Some MarkSuccess)
    else mkUI (Some (textOf (Some e), Some (str "block"))) None None.
Proof.
  intros Href Hsome Herr Hfixed fv1 r.
  assert (Hc : is_Some (getErrorContainer (Field.ref field) (document fv))).
  { destruct Hsome as [c Hc]. unfold uiOf in Hc. cbn [errorContainer] in Hc.
    destruct (getErrorContainer (Field.ref field) (document fv)); [eauto|done]. }
  destruct Hc as [c Hc].
  destruct (validateField_returns fv field _ Herr) as (_ & _ & Hd1 & Hform1 & Hcustom1 & Hshow1 & _).
  fold fv1 in Hd1, Hform1, Hcustom1, Hshow1.
  assert (Hui1 : uiOf fv1 field
                 = mkUI (Some (textOf (Some e), Some (str "block"))) (Some (str "true"))
                     (Some MarkError)).
  { unfold uiOf. rewrite Hd1. fold (uiOf (updateFieldUI field (mkState true
      (length (e :: es) =? 0)%nat (e :: es)) fv) field).
    rewrite updateFieldUI_uiOf, Hc. done. }
  assert (Hc1 : getErrorContainer (Field.ref field) (document fv1) = Some c).
  { rewrite Hd1, (proj2 (proj2 (updateFieldUI_keeps _ _ _))). done. }
  clearbody fv1.
  assert (Herr' : collectErrors (withForm form' fv1) field' = Returned []).
  { rewrite <- Hfixed. by apply collectErrors_rules. }
  destruct (validateField_returns (withForm form' fv1) field' _ Herr') as (Hok & _ & Hd2 & _).
  fold r in Hok, Hd2. split; [done|].
  assert (Hview : uiOf (snd r) field
                  = uiOf (updateFieldUI field' (mkState true true []) (withForm form' fv1)) field).
  { unfold uiOf. by rewrite Hd2. }
  rewrite Hview, updateFieldUI_view.
  cbn [isValid negb touched andb orb errors document withForm setForm showSuccessState].
  rewrite Href, Hc1.
  destruct (decide (Field.ref field = Field.ref field)); [|done].
  cbn [fmap option_fmap option_map]. rewrite bool_decide_eq_true_2 by done.
  rewrite Hshow1. destruct (showSuccessState fv); cbn [andb]; [done|].
  unfold uiOf in Hui1. rewrite Hc1 in Hui1. cbn [fmap option_fmap option_map] in Hui1.
  injection Hui1 as Htext Hdisplay _ _. by rewrite Htext, Hdisplay.
Qed.

(** [showRateLimitError] leaves the form marked. *)
Lemma showNotice_class (errorMessage : jsstring) (fv : FormValidator.t) :
  bool_decide
    (str "form--rate-limited"
     ∈ Dom.classList (Dom.attributesOf (formElement (showNotice errorMessage fv))
                        (document (showNotice errorMessage fv)))) = true.
Proof.
  pose (part := fun a => bool_decide (str "form--rate-limited" ∈ Dom.classList a)).
  change (part (Dom.attributesOf (formElement (showNotice errorMessage fv))
                  (document (showNotice errorMessage fv))) = true).
  assert (Hadd : forall a, part (Dom.add (str "btn--rate-limited") a) = part a).
  { intros a. by apply add_other. }
  assert (Hsame : forall a, part (Dom.add (str "form--rate-limited") a) = true).
  { intros a. apply add_same. }
  unfold showNotice. cbv zeta.
  destruct (globalContainer fv) as [c|]; cbn [document setDocument formElement];
    destruct (submitButton _);
    repeat first
      [ rewrite (update_keeps part) by (intros a; first [apply Hadd | reflexivity])
      | rewrite attributesOf_update_same; rewrite Hsame ];
    reflexivity.
Qed.

(** [showRateLimitError] leaves the message on display in the global
    error container of the form. *)
Lemma showNotice_text (errorMessage : jsstring) (fv : FormValidator.t) :
  Dom.wellFormed (document fv) -> Dom.attached (formElement fv) (document fv) ->
  let fv' := showNotice errorMessage fv in
  (fun c => (Dom.textContent (Dom.attributesOf (Dom.ref c) (document fv')),
             Dom.display (Dom.attributesOf (Dom.ref c) (document fv'))))
    <$> globalContainer fv' = Some (errorMessage, Some (str "block")).
Proof.
  intros [Hnd Hfresh] Hform fv'. subst fv'. unfold showNotice. cbv zeta.
  destruct (globalContainer fv) as [c|] eqn:Hc.
  - assert (Hc' : forall d, Dom.tree d = Dom.tree (document fv) ->
                    globalContainer (setDocument fv d) = Some c).
    { intros d Hd. unfold globalContainer in *. cbn [document setDocument formElement].
      by rewrite Hd. }
    rewrite Hc' by (by destruct (submitButton _)).
    cbn [fmap option_fmap option_map document setDocument]. f_equal.
    destruct (submitButton _);
      repeat first
        [ rewrite (update_keeps Dom.textContent) by done
        | rewrite (update_keeps Dom.display) by done
        | rewrite attributesOf_update_same ];
      reflexivity.
  - set (child := fun depth => Dom.mkNode (Dom.nextRef (document fv)) depth [] false true true false).
    destruct (created_is_found (Dom.tree (document fv)) (formElement fv) child
                Dom.formErrorGlobal (submitButton fv) Hnd Hform) as [depth Hfound];
      [done|done|exact Hc| |].
    { intros b Hb. by apply find_elem_of in Hb as [Hb _]. }
    assert (Hc' : forall d,
              Dom.tree d = match submitButton fv with
                           | Some button =>
                               Dom.insertBefore (Dom.ref button) child (Dom.tree (document fv))
                           | None =>
                               Dom.appendChild (formElement fv) child (Dom.tree (document fv))
                           end ->
              globalContainer (setDocument fv d) = Some (child depth)).
    { intros d Hd. unfold globalContainer in *. cbn [document setDocument formElement].
      by rewrite Hd. }
    rewrite Hc' by (by destruct (submitButton (setDocument _ _))).
    cbn [fmap option_fmap option_map document setDocument Dom.ref child]. f_equal.
    destruct (submitButton (setDocument _ _));
      repeat first
        [ rewrite (update_keeps Dom.textContent) by done
        | rewrite (update_keeps Dom.display) by done
        | rewrite attributesOf_update_same ];
      reflexivity.
Qed.

Lemma appendChild_refs (parent c : nat) (child : nat -> Dom.node) (l : list Dom.node) :
  (forall d, Dom.ref (child d) = c) ->
  Dom.ref <$> Dom.appendChild parent child l ≡ₚ c :: (Dom.ref <$> l).
Proof.
  intros Hc. unfold Dom.appendChild.
  assert (Hend : Dom.ref <$> l ++ [child 0%nat] ≡ₚ c :: (Dom.ref <$> l)).
  { rewrite fmap_app. cbn [fmap list_fmap]. rewrite Hc.
    by rewrite Permutation_app_comm. }
  destruct (parent =? Dom.body)%nat; [done|].
  destruct (Dom.locate parent [] l) as [[[bf p] af]|] eqn:Hp; [|done].
  destruct (locate_spec _ _ _ _ _ _ Hp) as (pre & -> & -> & _ & _).
  destruct (Dom.below (Dom.depth p) af) as [inner rest] eqn:Hb.
  destruct (below_spec _ _ _ _ Hb) as (-> & _ & _).
  rewrite rev_append_rev, app_nil_r, rev_involutive.
  rewrite !fmap_app, !fmap_cons, !fmap_app, !fmap_cons, Hc.
  symmetry. etrans; [apply Permutation_middle|]. apply Permutation_app_head.
  etrans; [apply perm_swap|]. apply perm_skip. apply Permutation_middle.
Qed.

(** The well-formedness of a document is about the refs of its tree. *)
Lemma wellFormed_refs (d d' : Dom.t) :
  Dom.ref <$> Dom.tree d' ≡ₚ Dom.ref <$> Dom.tree d -> Dom.nextRef d' = Dom.nextRef d ->
  Dom.wellFormed d -> Dom.wellFormed d'.
Proof.
  intros Hrefs Hnext [Hnd Hfresh]. split.
  - by rewrite Hrefs.
  - rewrite <- (Forall_fmap Dom.ref (fun r => (r < Dom.nextRef d')%nat)).
    rewrite Hrefs, Hnext. by rewrite Forall_fmap.
Qed.

Lemma wellFormed_created (d : Dom.t) (parent : nat) (child : nat -> Dom.node)
    (attrs : gmap nat Dom.attributes) :
  (forall depth, Dom.ref (child depth) = Dom.nextRef d) ->
  Dom.wellFormed d ->
  Dom.wellFormed (Dom.mk (Dom.appendChild parent child (Dom.tree d)) attrs (S (Dom.nextRef d))).
Proof.
  intros Hc [Hnd Hfresh].
  pose proof (appendChild_refs parent _ child (Dom.tree d) Hc) as Hrefs.
  rewrite <- (Forall_fmap Dom.ref (fun r => (r < Dom.nextRef d)%nat)) in Hfresh.
  split; cbn [Dom.tree Dom.nextRef].
  - rewrite Hrefs. apply NoDup_cons. split; [|done].
    intros Hin. rewrite Forall_forall in Hfresh. specialize (Hfresh _ Hin). lia.
  - rewrite <- (Forall_fmap Dom.ref (fun r => (r < S (Dom.nextRef d))%nat)).
    rewrite Hrefs. apply Forall_cons. split; [lia|].
    eapply Forall_impl; [exact Hfresh|]. cbn. lia.
Qed.


Lemma assignId_refs (field : Field.t) (fieldId : jsstring) (fv : FormValidator.t) :
  Dom.ref <$> Dom.tree (document (assignId field fieldId fv))
  = Dom.ref <$> Dom.tree (document fv).
Proof.
  unfold assignId. cbn [document setDocument setForm Dom.tree Dom.setTree].
  induction (Dom.tree (document fv)) as [|n l IH]; [done|].
  cbn [List.map fmap list_fmap] in *. rewrite IH. f_equal.
  by destruct (Dom.ref n =? Field.ref field)%nat.
Qed.

(** [setupField] keeps the document well formed and the form in it. *)
Lemma setupField_wellFormed (field : Field.t) (fv : FormValidator.t) :
  Dom.wellFormed (document fv) ->
  Dom.wellFormed (document (setupField field fv)) /\
  formElement (setupField field fv) = formElement fv /\
  (forall r, Dom.attached r (document fv) -> Dom.attached r (document (setupField field fv))).
Proof.
  intros Hwf. unfold setupField.
  set (start := if PropertyFilter.truthy (Field.id field) then (Field.id field, fv)
                else if PropertyFilter.truthy (Field.name field) then (Field.name field, fv)
                else (str "field-" ++ Math_random_text (drawn fv),
                      setDrawn fv (S (drawn fv)))).
  assert (Hstart : document (snd start) = document fv /\ formElement (snd start) = formElement fv).
  { subst start. destruct (PropertyFilter.truthy (Field.id field)); [done|].
    by destruct (PropertyFilter.truthy (Field.name field)). }
  destruct start as [fieldId fv0]. cbn [snd] in Hstart. destruct Hstart as [Hd0 He0].
  set (fv1 := if negb (PropertyFilter.truthy (Field.id field))
              then assignId field fieldId fv0 else fv0).
  assert (Hfv1 : Dom.ref <$> Dom.tree (document fv1) = Dom.ref <$> Dom.tree (document fv) /\
                 Dom.nextRef (document fv1) = Dom.nextRef (document fv) /\
                 formElement fv1 = formElement fv).
  { subst fv1. destruct (negb _); [|by rewrite Hd0, He0].
    rewrite assignId_refs. unfold assignId.
    cbn [document setDocument setForm formElement Dom.nextRef Dom.setTree].
    by rewrite Hd0, He0. }
  destruct Hfv1 as (Hrefs1 & Hnext1 & He1).
  assert (Hwf1 : Dom.wellFormed (document fv1)).
  { eapply wellFormed_refs; [by rewrite Hrefs1|exact Hnext1|exact Hwf]. }
  clearbody fv1. cbv zeta.
  destruct (getErrorContainer (Field.ref field) (document fv1)) as [c|].
  - cbn [document setDocument setFieldStates formElement]. split; [|split; [done|]].
    + eapply wellFormed_refs; [| |exact Hwf1]; done.
    + intros r [Hr|Hr]; [by left|right]. cbn [Dom.tree Dom.update]. by rewrite Hrefs1.
  - cbn [document setDocument setFieldStates formElement]. split; [|split; [done|]].
    + eapply wellFormed_refs; [| |apply (wellFormed_created (document fv1)); [|exact Hwf1]];
        [cbn [Dom.tree Dom.update]; reflexivity|reflexivity|done].
    + intros r [Hr|Hr]; [by left|right]. cbn [Dom.tree Dom.update].
      rewrite (appendChild_refs _ (Dom.nextRef (document fv1))) by (intros d; reflexivity).
      apply elem_of_cons. right. by rewrite Hrefs1.
Qed.

Lemma init_wellFormed (fv : FormValidator.t) :
  Dom.wellFormed (document fv) -> Dom.attached (formElement fv) (document fv) ->
  Dom.wellFormed (document (init fv)) /\
  Dom.attached (formElement (init fv)) (document (init fv)).
Proof.
  unfold init. generalize (List.filter validatable (form fv)) as fields.
  intros fields. revert fv.
  induction fields as [|field fields IH]; intros fv Hwf Hin; cbn [fold_left]; [done|].
  destruct (setupField_wellFormed field fv Hwf) as (Hwf' & He & Hatt).
  apply IH; [done|]. rewrite He. by apply Hatt.
Qed.

Lemma setLoadingState_keeps (loading : bool) (fv : FormValidator.t) :
  Dom.tree (document (setLoadingState loading fv)) = Dom.tree (document fv) /\
  Dom.nextRef (document (setLoadingState loading fv)) = Dom.nextRef (document fv) /\
  formElement (setLoadingState loading fv) = formElement fv.
Proof.
  unfold setLoadingState. cbv zeta. cbn [document setDocument formElement].
  destruct loading, (submitButton fv) as [button|]; try done.
  destruct (Dom.originalText _) as [originalText|]; [|done].
  by destruct (PropertyFilter.truthy originalText).
Qed.

Lemma showNotice_fieldStates (errorMessage : jsstring) (fv : FormValidator.t) :
  fieldStates (showNotice errorMessage fv) = fieldStates fv.
Proof. unfold showNotice. by destruct (globalContainer fv). Qed.

Lemma validOf_recent (rl : RateLimiter.t) (now : Z) (l : list Z) :
  Forall (fun timestamp => now - timestamp < RateLimiter.windowMs rl) l ->
  RateLimiter.validOf rl now l = l.
Proof.
  unfold RateLimiter.validOf. induction 1 as [|x l Hx Hl IH]; [done|].
  cbn [List.filter]. rewrite (proj2 (Z.ltb_lt _ _) Hx). by rewrite IH.
Qed.

Lemma submit_granted (userKey : jsstring) (l : list Z) (now : Z) (form' : list Field.t)
    (s : FormSubmit.t) :
  limiterHolds userKey l s ->
  Forall (fun timestamp => now - timestamp < 60000) l ->
  (length l < 3)%nat ->
  let s' := run userKey [Edit form'; Submit now] s in
  limiterHolds userKey (l ++ [now]) s' /\
  (exists o, (o = Rejected \/ o = Accepted \/ o = Raised) /\
             outcomes s' = outcomes s ++ [o]) /\
  Dom.tree (document (validator s')) = Dom.tree (document (validator s)) /\
  Dom.nextRef (document (validator s')) = Dom.nextRef (document (validator s)) /\
  formElement (validator s') = formElement (validator s).
Proof.
  intros (rl & Hrl & Hmax & Hwin & Hl) Hrecent Hlen s'. subst s'.
  cbn [run fold_left exec]. unfold handleSubmit.
  cbn [setValidator rateLimiter validator]. rewrite Hrl.
  assert (Hvalid : RateLimiter.validOf rl now (default [] (RateLimiter.attempts rl !! userKey)) = l).
  { rewrite Hl. apply validOf_recent. by rewrite Hwin. }
  rewrite isAllowed_granted by (rewrite Hvalid, Hmax; lia).
  rewrite Hvalid. cbn [RateLimiter.allowed negb setRateLimiter validator].
  pose proof (forEachField_keeps (List.filter validatable (form (withForm form' (validator s))))
                true (withForm form' (validator s))) as Hkeep.
  cbv zeta in Hkeep. fold (validateForm (withForm form' (validator s))) in Hkeep.
  destruct (validateForm _) as [[isValid|] fv']; cbn [fst snd] in Hkeep;
    destruct Hkeep as (_ & _ & _ & He & Ht & Hn);
    cbn [withForm setForm document formElement] in He, Ht, Hn.
  - split; [|split].
    + exists (RateLimiter.mk (RateLimiter.maxAttempts rl) (RateLimiter.windowMs rl)
                (<[userKey := l ++ [now]]> (RateLimiter.attempts rl))).
      destruct isValid; cbn; rewrite lookup_insert_eq; repeat split; done.
    + destruct isValid; cbn; eauto.
    + destruct isValid;
        cbn [negb addOutcome setValidator setRateLimiter validator onSubmit]; [|done].
      destruct (onSubmit s); [|done].
      destruct (setLoadingState_keeps true fv') as (Ht' & Hn' & He').
      by rewrite Ht', Hn', He'.
  - split; [|split].
    + exists (RateLimiter.mk (RateLimiter.maxAttempts rl) (RateLimiter.windowMs rl)
                (<[userKey := l ++ [now]]> (RateLimiter.attempts rl))).
      cbn; rewrite lookup_insert_eq; repeat split; done.
    + cbn; eauto.
    + done.
Qed.

Lemma submit_denied (userKey : jsstring) (oldest : Z) (l : list Z) (now : Z)
    (form' : list Field.t) (s : FormSubmit.t) :
  limiterHolds userKey (oldest :: l) s ->
  Forall (fun timestamp => now - timestamp < 60000) (oldest :: l) ->
  (3 <= length (oldest :: l))%nat ->
  Dom.wellFormed (document (validator s)) ->
  Dom.attached (formElement (validator s)) (document (validator s)) ->
  let s' := run userKey [Edit form'; Submit now] s in
  let message :=
    str "Too many attempts. Please wait "
    ++ Z_toString (Math_ceil_div (oldest + 60000 - now) 1000)
    ++ str " seconds before trying again." in
  outcomes s' = outcomes s ++ [RateLimited message] /\
  validator s' = showNotice message (withForm form' (validator s)) /\
  globalError s' = Some (message, Some (str "block")) /\
  rateLimitedClass s' = true /\
  rateLimiter s' = rateLimiter s.
Proof.
  intros (rl & Hrl & Hmax & Hwin & Hl) Hrecent Hlen Hwf Hform s'. subst s'.
  cbn [run fold_left exec]. unfold handleSubmit.
  cbn [setValidator rateLimiter validator]. rewrite Hrl.
  assert (Hvalid : RateLimiter.validOf rl now (default [] (RateLimiter.attempts rl !! userKey))
                   = oldest :: l).
  { rewrite Hl. apply validOf_recent. by rewrite Hwin. }
  rewrite isAllowed_denied by (rewrite Hvalid, Hmax; lia).
  rewrite Hvalid. cbn [RateLimiter.allowed negb head].
  assert (Hmsg : forall r, RateLimiter.retryAfter r =
                   Some (Math_max 1 (Num (Math_ceil_div (oldest + RateLimiter.windowMs rl - now) 1000))) ->
                 rateLimitMessage r =
                 str "Too many attempts. Please wait "
                 ++ Z_toString (Math_ceil_div (oldest + 60000 - now) 1000)
                 ++ str " seconds before trying again.").
  { intros r Hr. unfold rateLimitMessage. rewrite Hr, Hwin. cbn [Math_max].
    apply Forall_cons in Hrecent as [Hold _].
    pose proof (Math_ceil_div_pos (oldest + 60000 - now) 1000 ltac:(lia) ltac:(lia)) as Hpos.
    rewrite Z.max_r by lia.
    destruct (Z.eqb_spec (Math_ceil_div (oldest + 60000 - now) 1000) 0); [lia|done]. }
  set (r := RateLimiter.mkResult false _ _ _ _).
  unfold showRateLimitError, globalError, rateLimitedClass.
  cbn [outcomes validator rateLimiter setRateLimiter setValidator]. cbv zeta.
  rewrite (Hmsg r eq_refl).
  split; [done|]. split; [done|]. split; [|split; [|done]].
  - by apply (showNotice_text _ (withForm form' (validator s))).
  - apply showNotice_class.
Qed.

Lemma construct_limiter (form0 : list Field.t) (formElement0 : nat) (document0 : Dom.t)
    (drawn0 : nat) (showSuccess onValid onInvalid onSubmit0 : bool)
    (rateLimitConfig : option (Z * Z)) (s0 : FormSubmit.t) (userKey : jsstring) :
  Dom.wellFormed document0 -> Dom.attached formElement0 document0 ->
  construct form0 formElement0 document0 drawn0 showSuccess onValid onInvalid onSubmit0
    true rateLimitConfig = Some s0 ->
  rateLimitConfig = None /\ limiterHolds userKey [] s0 /\ outcomes s0 = [] /\
  Dom.wellFormed (document (validator s0)) /\
  Dom.attached (formElement (validator s0)) (document (validator s0)).
Proof.
  intros Hwf Hform. unfold construct, initRateLimiter.
  destruct rateLimitConfig; [done|]. intros [= <-].
  split; [done|]. split; [by exists RateLimiter.createFormRateLimiter|]. split; [done|].
  cbn [validator]. by apply init_wellFormed.
Qed.

(** X25.  On a well-formed document that contains the form, a form
    validator built with rate limiting on has the limiter of
    [createFormRateLimiter]: the constructor throws when it is given a
    [rateLimitConfig].  Every submit that the limiter lets through uses up
    an attempt, whether the form was valid, invalid or its validation
    threw: after three submits the fourth, less than a minute after the
    first, is refused whatever the form holds.  It validates nothing,
    shows the message with the seconds left until the first attempt
    expires in the global error container, which it creates when the
    form has none, and marks the form as rate limited. *)
Theorem fourth_submit_is_rate_limited (form0 : list Field.t) (formElement0 : nat)
    (document0 : Dom.t) (drawn0 : nat) (showSuccess onValid onInvalid onSubmit0 : bool)
    (rateLimitConfig : option (Z * Z))
    (s0 : FormSubmit.t) (userKey : jsstring) (f1 f2 f3 f4 : list Field.t)
    (t1 t2 t3 t4 : Z) :
  Dom.wellFormed document0 -> Dom.attached formElement0 document0 ->
  construct form0 formElement0 document0 drawn0 showSuccess onValid onInvalid onSubmit0
    true rateLimitConfig = Some s0 ->
  t1 <= t2 -> t2 <= t3 -> t3 <= t4 -> t4 < t1 + 60000 ->
  let s3 := run userKey [Edit f1; Submit t1; Edit f2; Submit t2; Edit f3; Submit t3] s0 in
  let s4 := run userKey [Edit f4; Submit t4] s3 in
  let message :=
    str "Too many attempts. Please wait "
    ++ Z_toString (Math_ceil_div (t1 + 60000 - t4) 1000)
    ++ str " seconds before trying again." in
  rateLimitConfig = None /\
  length (outcomes s3) = 3%nat /\
  Forall (fun o => o = Rejected \/ o = Accepted \/ o = Raised) (outcomes s3) /\
  outcomes s4 = outcomes s3 ++ [RateLimited message] /\
  validator s4 = showNotice message (withForm f4 (validator s3)) /\
  fieldStates (validator s4) = fieldStates (validator s3) /\
  globalError s4 = Some (message, Some (str "block")) /\
  rateLimitedClass s4 = true.
Proof.
  intros Hwf Hform Hnew H12 H23 H34 Hwin s3 s4 message.
  destruct (construct_limiter _ _ _ _ _ _ _ _ _ _ userKey Hwf Hform Hnew)
    as (Hcfg & H0 & Hout0 & Hwf0 & Hform0).
  destruct (submit_granted userKey [] t1 f1 s0 H0) as (H1 & (o1 & Ho1 & Hout1) & Ht1 & Hn1 & He1);
    [constructor|simpl; lia|].
  set (s1 := run userKey [Edit f1; Submit t1] s0) in *.
  destruct (submit_granted userKey [t1] t2 f2 s1 H1) as (H2 & (o2 & Ho2 & Hout2) & Ht2 & Hn2 & He2);
    [repeat constructor; lia|simpl; lia|].
  set (s2 := run userKey [Edit f2; Submit t2] s1) in *.
  destruct (submit_granted userKey [t1; t2] t3 f3 s2 H2) as (H3 & (o3 & Ho3 & Hout3) & Ht3 & Hn3 & He3);
    [repeat constructor; lia|simpl; lia|].
  change (run userKey [Edit f3; Submit t3] s2) with s3 in *.
  assert (Hwf3 : Dom.wellFormed (document (validator s3))).
  { eapply wellFormed_refs; [| |exact Hwf0]; [by rewrite Ht3, Ht2, Ht1|congruence]. }
  assert (Hform3 : Dom.attached (formElement (validator s3)) (document (validator s3))).
  { unfold Dom.attached in *. by rewrite He3, He2, He1, Ht3, Ht2, Ht1. }
  destruct (submit_denied userKey t1 [t2; t3] t4 f4 s3 H3) as (Hout4 & Hv4 & Hg4 & Hc4 & _);
    [repeat constructor; lia|simpl; lia|done|done|].
  fold s4 in Hout4, Hv4, Hg4, Hc4. fold message in Hout4, Hv4, Hg4.
  rewrite Hout4, Hout3, Hout2, Hout1, Hout0. cbn [app length].
  split; [done|]. split; [done|].
  split; [by repeat (apply Forall_cons; split; [assumption|])|].
  split; [done|]. split; [done|]. split; [by rewrite Hv4, showNotice_fieldStates|]. done.
Qed.

Lemma update_comm (r r' : nat) (f g : Dom.attributes -> Dom.attributes) (d : Dom.t) :
  (forall a, f (g a) = g (f a)) ->
  Dom.update r f (Dom.update r' g d) = Dom.update r' g (Dom.update r f d).
Proof.
  intros Hc. unfold Dom.update at 1 3. rewrite !attributesOf_update.
  cbn [Dom.tree Dom.attrs Dom.nextRef Dom.update]. f_equal.
  destruct (decide (r = r')) as [->|Hne].
  - destruct (decide (r' = r')); [|done]. by rewrite !insert_insert_eq, Hc.
  - destruct (decide (r' = r)); [done|]. by apply insert_insert_ne.
Qed.

(** Updates that commute on the attributes of an element commute on
    the document. *)
Lemma updates_comm (ops1 ops2 : list (nat * (Dom.attributes -> Dom.attributes)))
    (d : Dom.t) :
  Forall (fun op1 => Forall (fun op2 => forall a, snd op1 (snd op2 a) = snd op2 (snd op1 a))
                       ops2) ops1 ->
  foldr (fun op d => Dom.update (fst op) (snd op) d)
    (foldr (fun op d => Dom.update (fst op) (snd op) d) d ops2) ops1
  = foldr (fun op d => Dom.update (fst op) (snd op) d)
      (foldr (fun op d => Dom.update (fst op) (snd op) d) d ops1) ops2.
Proof.
  induction 1 as [|op1 ops1 Hop1 Hops1 IH]; cbn [foldr]; [done|].
  rewrite IH. clear IH Hops1.
  generalize (foldr (fun op d => Dom.update (fst op) (snd op) d) d ops1) as d'.
  induction Hop1 as [|op2 ops2 Hop2 Hops2 IH]; intros d'; cbn [foldr]; [done|].
  by rewrite <- IH, update_comm.
Qed.

Lemma filter_comm {A} (p q : A -> bool) (l : list A) :
  List.filter p (List.filter q l) = List.filter q (List.filter p l).
Proof.
  induction l as [|x l IH]; [done|]. cbn [List.filter].
  destruct (p x) eqn:Hp, (q x) eqn:Hq; cbn [List.filter]; rewrite ?Hp, ?Hq, IH; done.
Qed.

(** [clearField] as the updates it makes, the last one first. *)
Lemma clearField_updates (fieldId : jsstring) (d : Dom.t) :
  clearField fieldId d =
  foldr (fun op d => Dom.update (fst op) (snd op) d) d
    match Dom.getElementById fieldId (Dom.tree d) with
    | Some field =>
        match getErrorContainer (Dom.ref field) d with
        | Some errorContainer =>
            [(errorContainer, Dom.setDisplay (str "none"));
             (errorContainer, Dom.setTextContent [])]
        | None => []
        end
        ++ [(Dom.ref field, Dom.setAriaInvalid None);
            (Dom.ref field,
             Dom.remove [str "form-control--error"; str "form-control--success"]);
            (Dom.groupOf (Dom.ref field) (Dom.tree d),
             Dom.remove [str "form-group--error"; str "form-group--success"])]
    | None => []
    end.
Proof.
  unfold clearField. destruct (Dom.getElementById fieldId (Dom.tree d)) as [field|]; [|done].
  cbv zeta. rewrite !getErrorContainer_update by done.
  by destruct (getErrorContainer (Dom.ref field) d).
Qed.

Lemma clearField_keeps (fieldId : jsstring) (d : Dom.t) :
  Dom.tree (clearField fieldId d) = Dom.tree d /\
  (forall r, getErrorContainer r (clearField fieldId d) = getErrorContainer r d).
Proof.
  unfold clearField. destruct (Dom.getElementById fieldId (Dom.tree d)) as [field|]; [|done].
  cbv zeta. destruct (getErrorContainer (Dom.ref field) _); split; try done;
    intros r; by rewrite !getErrorContainer_update.
Qed.

Lemma clearField_comm (fieldId fieldId' : jsstring) (d : Dom.t) :
  clearField fieldId (clearField fieldId' d) = clearField fieldId' (clearField fieldId d).
Proof.
  destruct (clearField_keeps fieldId d) as [Ht Hc].
  destruct (clearField_keeps fieldId' d) as [Ht' Hc'].
  rewrite (clearField_updates fieldId (clearField fieldId' d)).
  rewrite (clearField_updates fieldId' (clearField fieldId d)).
  rewrite Ht, Ht'.
  destruct (Dom.getElementById fieldId (Dom.tree d)) as [field|] eqn:Hf;
    destruct (Dom.getElementById fieldId' (Dom.tree d)) as [field'|] eqn:Hf';
    rewrite ?Hc, ?Hc';
    rewrite (clearField_updates fieldId d), (clearField_updates fieldId' d), ?Hf, ?Hf';
    cbn [foldr]; [|done..].
  apply updates_comm.
  destruct (getErrorContainer (Dom.ref field) d), (getErrorContainer (Dom.ref field') d);
    cbn [app]; repeat constructor; cbn [snd]; intros [];
    first [reflexivity
          | unfold Dom.remove, Dom.setClassList; cbn [Dom.classList]; f_equal;
            apply filter_comm ].
Qed.

(** The loop of [reset()] gives the same document in whatever order it
    meets the entries of [fieldStates]. *)
Lemma reset_order (d : Dom.t) (states : gmap jsstring FieldState)
    (entries : list (jsstring * FieldState)) :
  entries ≡ₚ map_to_list states ->
  foldr (fun entry d => clearField (fst entry) d) d entries
  = map_fold (fun fieldId _ d => clearField fieldId d) d states.
Proof.
  intros Hperm. rewrite map_fold_foldr.
  assert (Hsame : forall l : list (jsstring * FieldState),
            foldr (uncurry (fun fieldId (_ : FieldState) d => clearField fieldId d)) d l
            = foldr (fun entry d => clearField (fst entry) d) d l).
  { induction l as [|[fieldId state] l IH]; cbn [foldr uncurry fst]; [done|by rewrite IH]. }
  rewrite Hsame.
  apply (foldr_permutation_proper eq (fun entry d => clearField (fst entry) d) d);
    [|done].
  intros a1 a2 d'. apply clearField_comm.
Qed.

(** X26.  [reset()] ends with [resetRateLimit()], which forgets the
    attempts of the user: whatever was submitted before, with a positive
    [maxAttempts] the submit that follows a reset is not refused by the
    limiter, and its outcome is the one of the validation.  The reset
    leaves every field state untouched, valid and without errors. *)
Theorem reset_lifts_rate_limit (s : FormSubmit.t) (defaults : list Field.t)
    (userKey : jsstring) (now : Z) :
  (forall rl, rateLimiter s = Some rl -> 0 < RateLimiter.maxAttempts rl) ->
  let s1 := reset defaults userKey s in
  let s2 := handleSubmit now userKey s1 in
  outcomes s2 =
    outcomes s ++ [match fst (validateForm (validator s1)) with
                   | Returned true => Accepted
                   | Returned false => Rejected
                   | Threw => Raised
                   end] /\
  (forall fieldId state,
     fieldStates (validator s1) !! fieldId = Some state -> state = mkState false true []).
Proof.
  intros Hmax s1 s2. split.
  - subst s2 s1. unfold handleSubmit, reset, resetRateLimit.
    cbn [setValidator rateLimiter validator outcomes].
    destruct (rateLimiter s) as [rl|] eqn:Hrl.
    + cbn [rateLimiter validator].
      rewrite isAllowed_granted.
      2:{ unfold RateLimiter.resetUserAttempts. cbn [RateLimiter.attempts RateLimiter.maxAttempts].
          rewrite lookup_delete_eq. cbn. by apply Hmax. }
      cbn [RateLimiter.allowed negb setRateLimiter validator].
      destruct (validateForm _) as [[isValid|] fv']; [by destruct isValid|done].
    + cbn [rateLimiter setValidator]. rewrite Hrl.
      destruct (validateForm _) as [[isValid|] fv']; [by destruct isValid|done].
  - intros fieldId state. subst s1. unfold reset, resetRateLimit.
    cbn [setValidator rateLimiter validator].
    destruct (rateLimiter s); cbn [validator fieldStates setValidator outcomes hideNotice
                                   setDocument setFieldStates];
      rewrite lookup_fmap; cbn [fieldStates setForm];
      destruct (fieldStates (validator s) !! fieldId); by intros [= <-].
Qed.

(** X27.  Two controls that are linked to the same error container
    overwrite each other's message.  When the first is found invalid its
    first error is displayed; when the second is then found valid, with
    [showSuccessState] the container is emptied and hidden although the
    first control is still marked invalid, and without
    [showSuccessState] the message stays. *)
Theorem shared_error_container_is_cleared (fv : FormValidator.t) (f1 f2 : Field.t)
    (c : nat) (e : errorValue) (es : list errorValue) :
  Field.ref f1 <> Field.ref f2 ->
  getErrorContainer (Field.ref f1) (document fv) = Some c ->
  getErrorContainer (Field.ref f2) (document fv) = Some c ->
  collectErrors fv f1 = Returned (e :: es) ->
  collectErrors fv f2 = Returned [] ->
  let fv1 := snd (validateField f1 fv) in
  let fv2 := snd (validateField f2 fv1) in
  uiOf fv1 f1 =
    mkUI (Some (textOf (Some e), Some (str "block"))) (Some (str "true")) (Some MarkError) /\
  uiOf fv2 f1 =
    mkUI (if showSuccessState fv then Some ([], Some (str "none"))
          else Some (textOf (Some e), Some (str "block")))
      (Some (str "true")) (Some MarkError).
Proof.
  intros Hne Hc1 Hc2 Herr1 Herr2 fv1 fv2.
  destruct (validateField_returns fv f1 _ Herr1) as (_ & _ & Hd1 & Hform1 & Hcustom1 & Hshow1 & _).
  fold fv1 in Hd1, Hform1, Hcustom1, Hshow1.
  assert (Hui1 : uiOf fv1 f1
                 = mkUI (Some (textOf (Some e), Some (str "block"))) (Some (str "true"))
                     (Some MarkError)).
  { unfold uiOf. rewrite Hd1.
    fold (uiOf (updateFieldUI f1 (mkState true (length (e :: es) =? 0)%nat (e :: es)) fv) f1).
    by rewrite updateFieldUI_uiOf, Hc1. }
  split; [exact Hui1|].
  assert (Hc1' : getErrorContainer (Field.ref f1) (document fv1) = Some c).
  { by rewrite Hd1, (proj2 (proj2 (updateFieldUI_keeps _ _ _))). }
  assert (Hc2' : getErrorContainer (Field.ref f2) (document fv1) = Some c).
  { by rewrite Hd1, (proj2 (proj2 (updateFieldUI_keeps _ _ _))). }
  assert (Herr2' : collectErrors fv1 f2 = Returned []).
  { rewrite <- Herr2. by apply collectErrors_rules. }
  destruct (validateField_returns fv1 f2 _ Herr2') as (_ & _ & Hd2 & _).
  fold fv2 in Hd2. clearbody fv2 fv1.
  assert (Hview : uiOf fv2 f1 = uiOf (updateFieldUI f2 (mkState true true []) fv1) f1).
  { unfold uiOf. by rewrite Hd2. }
  rewrite Hview, updateFieldUI_view.
  cbn [isValid negb touched andb orb errors].
  rewrite Hc1', Hc2', Hshow1, Hui1.
  destruct (decide (Field.ref f1 = Field.ref f2)); [done|].
  cbn [fmap option_fmap option_map ariaInvalid marked]. rewrite bool_decide_eq_true_2 by done.
  destruct (showSuccessState fv); cbn [andb]; [done|].
  unfold uiOf in Hui1. rewrite Hc1' in Hui1. cbn [fmap option_fmap option_map] in Hui1.
  injection Hui1 as Htext Hdisplay _ _. by rewrite Htext, Hdisplay.
Qed.

End FormSubmitFacts.

(** On the contact form the constructor links the name control and the
    contact control, which are in one group, to the same container. *)
Lemma shared_error_container_is_cleared_witness :
  FormValidator.uiOf
    (snd (@FormValidator.validateField asciiPlatform (Samples.contactField [])
            (snd (@FormValidator.validateField asciiPlatform (Samples.nameField [])
                    Samples.validator))))
    (Samples.nameField [])
  = FormValidator.mkUI (Some ([], Some (str "none"))) (Some (str "true"))
      (Some FormValidator.MarkError).
Proof.
  apply (proj2 (@shared_error_container_is_cleared asciiPlatform Samples.validator
                  (Samples.nameField []) (Samples.contactField []) 9%nat
                  (FormValidator.Message (str "This field is required")) []
                  ltac:(discriminate) ltac:(vm_compute; reflexivity)
                  ltac:(vm_compute; reflexivity) ltac:(vm_compute; reflexivity)
                  ltac:(vm_compute; reflexivity))).
Defined.

Lemma validateForm_checks_every_field_witness :
  exists errors,
    @FormValidator.collectErrors asciiPlatform Samples.validator (Samples.nameField [])
    = Returned errors /\
    FormValidator.fieldStates
      (snd (@FormValidator.validateForm asciiPlatform Samples.validator))
    !! FormValidator.Field.id (Samples.nameField []) =
    Some (FormValidator.mkState true (length errors =? 0)%nat errors).
Proof.
  apply (proj2 (@validateForm_checks_every_field asciiPlatform Samples.validator) false).
  - vm_compute. reflexivity.
  - apply (bool_decide_unpack _). vm_compute. exact I.
  - vm_compute. apply list_elem_of_further, list_elem_of_here.
Defined.

Lemma corrected_field_message_witness :
  FormValidator.uiOf
    (snd (@FormValidator.validateField asciiPlatform (Samples.nameField (str "abc"))
            (FormSubmit.withForm (FormValidator.form Samples.validator)
               (snd (@FormValidator.validateField asciiPlatform
                       (Samples.nameField (str "ab")) Samples.validator)))))
    (Samples.nameField (str "ab"))
  = FormValidator.mkUI (Some ([], Some (str "none"))) (Some (str "false"))
      (Some FormValidator.MarkSuccess).
Proof.
  apply (proj2 (@corrected_field_message asciiPlatform Samples.validator
                  (FormValidator.form Samples.validator)
                  (Samples.nameField (str "ab")) (Samples.nameField (str "abc"))
                  (FormValidator.Message (str "Must be at least 3 characters")) [] eq_refl
                  ltac:(vm_compute; eauto) ltac:(vm_compute; reflexivity)
                  ltac:(vm_compute; reflexivity))).
Defined.

Lemma fourth_submit_is_rate_limited_witness :
  FormSubmit.rateLimitedClass
    (@FormSubmit.run asciiPlatform (str "session_1")
       [FormSubmit.Edit FormSamples.fields; FormSubmit.Submit 32000]
       (@FormSubmit.run asciiPlatform (str "session_1")
          [FormSubmit.Edit FormSamples.fields; FormSubmit.Submit 1000;
           FormSubmit.Edit FormSamples.fields; FormSubmit.Submit 2000;
           FormSubmit.Edit FormSamples.fields; FormSubmit.Submit 31000]
          FormSamples.fresh)) = true.
Proof.
  destruct (@fourth_submit_is_rate_limited asciiPlatform FormSamples.fields 1%nat
              Samples.contactForm 0%nat true false false false None FormSamples.fresh
              (str "session_1")
              FormSamples.fields FormSamples.fields FormSamples.fields FormSamples.fields
              1000 2000 31000 32000)
    as (_ & _ & _ & _ & _ & _ & _ & Hclass).
  - split; [apply (bool_decide_unpack _); vm_compute; exact I|].
    repeat constructor.
  - right. apply (bool_decide_unpack _). vm_compute. exact I.
  - reflexivity.
  - lia.
  - lia.
  - lia.
  - lia.
  - exact Hclass.
Defined.

Lemma reset_lifts_rate_limit_witness :
  exists o : FormSubmit.outcome,
    FormSubmit.outcomes
      (@FormSubmit.handleSubmit asciiPlatform 5000 (str "session_1")
         (FormSubmit.reset FormSamples.fields (str "session_1") FormSamples.fresh))
    = [o].
Proof.
  destruct (@reset_lifts_rate_limit asciiPlatform FormSamples.fresh FormSamples.fields
              (str "session_1") 5000) as [Hout _].
  - intros rl [= <-]. reflexivity.
  - eexists. exact Hout.
Defined.
